(** * Hurna-Core: the Grid data structure and its maze generators

    A shallow embedding of [DataStructures/grid.hxx] and of the generators
    of [Modules/Maze] (Kruskal's, Prim's, Recursive-Division, Binary-Tree,
    Sidewinder), with the properties of the specification stated on it. *)

From Stdlib Require Import ZArith List Lia Bool.
From stdpp Require Import base numbers option list gmap.

#[local] Set Warnings "-clear-no-such-hyp".
Local Open Scope Z_scope.

(** ** Machine integers

    [uint32_t] and [uint8_t] values are integers of [Z]; every place where
    the C++ arithmetic can wrap, or where an argument is converted to a
    narrower parameter type, applies the reduction explicitly. *)

Definition u32 (z : Z) : Z := z mod 2 ^ 32.
Definition u8 (z : Z) : Z := z mod 2 ^ 8.

(** [static_cast<int>] of a [uint32_t] value (two's complement). *)
Definition to_int (z : Z) : Z :=
  let w := u32 z in if w <? 2 ^ 31 then w else w - 2 ^ 32.

(** ** [std::mt19937]

    The 32-bit Mersenne Twister with the parameters the C++ standard fixes
    for [std::mt19937]; [seed] is the constructor [mt19937(seed)] and
    [next] is [operator()]. *)

Module MT19937.

Record state := mkState { mt_x : list Z; mt_p : nat }.

Definition state_size : nat := 624.
Definition shift_size : nat := 397.

Definition seed_word (prev i : Z) : Z :=
  u32 (1812433253 * Z.lxor prev (Z.shiftr prev 30) + i).

Fixpoint seed_fill (n : nat) (i prev : Z) : list Z :=
  match n with
  | O => []
  | S n' => let v := seed_word prev i in v :: seed_fill n' (i + 1) v
  end.

Definition seed (sd : Z) : state :=
  let x0 := u32 sd in
  mkState (x0 :: seed_fill (state_size - 1) 1 x0) state_size.

Definition word (x : list Z) (i : nat) : Z := default 0 (x !! i).

Definition twist_word (xk xk1 xm : Z) : Z :=
  let y := Z.lor (Z.land xk 0x80000000) (Z.land xk1 0x7fffffff) in
  Z.lxor (Z.lxor xm (Z.shiftr y 1)) (if Z.odd y then 0x9908b0df else 0).

(** [_M_gen_rand]: the state words are regenerated in place, in index
    order, so the words read at [k + 397] and [k + 1] past the wrap are
    the new ones. *)
Fixpoint gen_rand_from (n k : nat) (x : list Z) : list Z :=
  match n with
  | O => x
  | S n' =>
      let v := twist_word (word x k)
                 (word x ((k + 1) mod state_size))
                 (word x ((k + shift_size) mod state_size)) in
      gen_rand_from n' (S k) (<[k := v]> x)
  end.

Definition gen_rand (x : list Z) : list Z := gen_rand_from state_size 0 x.

Definition temper (z : Z) : Z :=
  let z := Z.lxor z (Z.land (Z.shiftr z 11) 0xffffffff) in
  let z := Z.lxor z (Z.land (Z.shiftl z 7) 0x9d2c5680) in
  let z := Z.lxor z (Z.land (Z.shiftl z 15) 0xefc60000) in
  Z.lxor z (Z.shiftr z 18).

Definition next (s : state) : Z * state :=
  let '(x, p) := if (state_size <=? mt_p s)%nat
                 then (gen_rand (mt_x s), O)
                 else (mt_x s, mt_p s) in
  (temper (word x p), mkState x (S p)).

Fixpoint discard (n : nat) (s : state) : state :=
  match n with
  | O => s
  | S n' => discard n' (snd (next s))
  end.

End MT19937.

(** ** Results of fallible operations

    An indexing [v[i]] of a [std::vector] outside its bounds is undefined
    behaviour in the source; the embedding makes it an explicit fault.
    Loops whose termination is not structural carry a fuel. *)

Inductive fault : Type :=
  | IndexOutOfRange    (* maze[x][y] or a vector of cells outside its bounds *)
  | BucketOutOfRange   (* bucketCells[id] outside its bounds *)
  | OutOfFuel.

Inductive result (A : Type) : Type :=
  | Ok (a : A)
  | Fault (f : fault).
Arguments Ok {A} a.
Arguments Fault {A} f.

#[global] Instance result_ret : MRet result := fun A a => Ok a.
#[global] Instance result_bind : MBind result := fun A B f m =>
  match m with
  | Ok a => f a
  | Fault e => Fault e
  end.

(** [for (i = lo; i < lo + n; ++i) body], threading the state [s]. *)
Fixpoint for_ {St : Type} (n : nat) (i : Z) (body : Z -> St -> result St) (s : St)
  : result St :=
  match n with
  | O => Ok s
  | S n' => s' ← body i s; for_ n' (i + 1) body s'
  end.

(** ** The grid

    A [std::shared_ptr<Cell>] is modelled by the coordinates of the cell it
    points to: [Init] allocates exactly one cell per coordinate and the
    coordinates of a cell are [const].  The cells live in [data], indexed
    as [data[x][y]]; a mutation through a pointer updates the cell stored
    at the pointer's coordinates. *)

Definition Point : Type := Z * Z.
Definition CellRef : Type := Point.

Class DefaultCtor (I : Type) := default_ctor : I.

Record CellInfoBase := mkCellInfoBase { isVisited : bool }.
#[global] Instance CellInfoBase_ctor : DefaultCtor CellInfoBase :=
  mkCellInfoBase false.

Record Cell (I : Type) := mkCell {
  cell_x : Z;
  cell_y : Z;
  connectedCells : gset Point;
  info : I
}.
Arguments mkCell {I}.
Arguments cell_x {I}.
Arguments cell_y {I}.
Arguments connectedCells {I}.
Arguments info {I}.

Record Grid (I : Type) := mkGrid { data : list (list (Cell I)) }.
Arguments mkGrid {I}.
Arguments data {I}.

Record Edge := mkEdge { first : CellRef; second : CellRef }.

(** [Edge::operator<]. *)
Definition Edge_lt (e a : Edge) : bool :=
  ((first e).1 <? (first a).1) || ((first e).2 <? (first a).2).

Section GridOps.
Context {I : Type} `{!DefaultCtor I}.

Definition in_nat_range (p : Point) : bool := (0 <=? p.1) && (0 <=? p.2).

(** The cell a pointer refers to. *)
Definition cell_at (g : Grid I) (p : CellRef) : option (Cell I) :=
  if in_nat_range p
  then col ← data g !! Z.to_nat p.1; col !! Z.to_nat p.2
  else None.

(** [maze[x][y]]: the pointer stored at that place of [data]. *)
Definition at_ (g : Grid I) (x y : Z) : result CellRef :=
  match cell_at g (x, y) with
  | Some c => Ok (cell_x c, cell_y c)
  | None => Fault IndexOutOfRange
  end.

(** A mutation of the cell behind a pointer. *)
Definition upd (g : Grid I) (p : CellRef) (f : Cell I -> Cell I) : Grid I :=
  if in_nat_range p
  then mkGrid (alter (alter f (Z.to_nat p.2)) (Z.to_nat p.1) (data g))
  else g.

Definition conn_insert (q : CellRef) (c : Cell I) : Cell I :=
  mkCell (cell_x c) (cell_y c) ({[q]} ∪ connectedCells c) (info c).

Definition conn_erase (q : CellRef) (c : Cell I) : Cell I :=
  mkCell (cell_x c) (cell_y c) (connectedCells c ∖ {[q]}) (info c).

Definition set_info (i : I) (c : Cell I) : Cell I :=
  mkCell (cell_x c) (cell_y c) (connectedCells c) i.

(** [p->info], total: a [shared_ptr] to a cell of the grid is never
    dangling. *)
Definition info_of (g : Grid I) (p : CellRef) : I :=
  match cell_at g p with
  | Some c => info c
  | None => default_ctor
  end.

Definition connected_of (g : Grid I) (p : CellRef) : gset Point :=
  match cell_at g p with
  | Some c => connectedCells c
  | None => ∅
  end.

Definition Connect (g : Grid I) (root cell : CellRef) : Grid I :=
  upd (upd g root (conn_insert cell)) cell (conn_insert root).

Definition Connect_list (g : Grid I) (cell : CellRef)
    (neighbours : list CellRef) : Grid I :=
  if (length neighbours <? 1)%nat then g
  else foldl (fun g it => upd (upd g cell (conn_insert it)) it (conn_insert cell))
             g neighbours.

Definition Disconnect (g : Grid I) (root cell : CellRef) : Grid I :=
  upd (upd g root (conn_erase cell)) cell (conn_erase root).

(** The three scalar parameters are [u_int8_t]: the arguments are
    converted on entry.  The loop counter is an [int]. *)
Definition DisconnectCol (g : Grid I) (origin : Point) (idx height pathIdx : Z)
  : result (Grid I) :=
  let idx := u8 idx in
  let height := u8 height in
  let pathIdx := u8 pathIdx in
  for_ (Z.to_nat height) 0 (fun y g =>
    if y =? pathIdx then Ok g
    else
      a ← at_ g (u32 (origin.1 + idx)) (u32 (origin.2 + y));
      b ← at_ g (u32 (origin.1 + idx + 1)) (u32 (origin.2 + y));
      Ok (Disconnect g a b)) g.

Definition DisconnectRow (g : Grid I) (origin : Point) (idx width pathIdx : Z)
  : result (Grid I) :=
  let idx := u8 idx in
  let width := u8 width in
  let pathIdx := u8 pathIdx in
  for_ (Z.to_nat width) 0 (fun x g =>
    if x =? pathIdx then Ok g
    else
      a ← at_ g (u32 (origin.1 + x)) (u32 (origin.2 + idx));
      b ← at_ g (u32 (origin.1 + x)) (u32 (origin.2 + idx + 1));
      Ok (Disconnect g a b)) g.

Definition Width (g : Grid I) : Z := u32 (Z.of_nat (length (data g))).

Definition Height (g : Grid I) : Z :=
  match data g with
  | [] => 0
  | col :: _ => u32 (Z.of_nat (length col))
  end.

Definition new_cell (x y : Z) : Cell I := mkCell x y ∅ default_ctor.

Definition push_back_cell (g : Grid I) (x : Z) (c : Cell I) : Grid I :=
  mkGrid (alter (fun col => col ++ [c]) (Z.to_nat x) (data g)).

Definition Init_cell (isConnected : bool) (x y : Z) (g : Grid I)
  : result (Grid I) :=
  let g := push_back_cell g x (new_cell x y) in
  g ← (if isConnected && (0 <? x)
       then a ← at_ g x y; b ← at_ g (x - 1) y; Ok (Connect g a b)
       else Ok g);
  if isConnected && (0 <? y)
  then a ← at_ g x y; b ← at_ g x (y - 1); Ok (Connect g a b)
  else Ok g.

(** [Grid(width, height, isConnected)]: the constructor only calls
    [Init] on the empty [data]. *)
Definition Init (width height : Z) (isConnected : bool) : result (Grid I) :=
  for_ (Z.to_nat width) 0 (fun x g =>
    for_ (Z.to_nat height) 0 (Init_cell isConnected x) g)
    (mkGrid (replicate (Z.to_nat width) [])).

End GridOps.

(** [v[i]] on a vector of cell pointers. *)
Definition vec_at {A : Type} (v : list A) (i : Z) : result A :=
  match (if 0 <=? i then v !! Z.to_nat i else None) with
  | Some a => Ok a
  | None => Fault IndexOutOfRange
  end.

Fixpoint foldM {A St : Type} (f : A -> St -> result St) (l : list A) (s : St)
  : result St :=
  match l with
  | [] => Ok s
  | a :: l' => s' ← f a s; foldM f l' s'
  end.

(** ** Sets of cell pointers

    [std::set<std::shared_ptr<Cell>>] orders its elements by the address
    of the cell.  The address the allocator gave to each cell is the
    parameter [addr]; the set is the list of its elements in increasing
    address order, which is the order its iterators walk. *)

Section PtrSet.
Variable addr : CellRef -> Z.

Fixpoint ptrset_insert (p : CellRef) (s : list CellRef) : list CellRef :=
  match s with
  | [] => [p]
  | q :: s' =>
      if addr p <? addr q then p :: s
      else if addr q <? addr p then q :: ptrset_insert p s'
      else s
  end.

(** [erase(it)] where [it] points to [p]. *)
Definition ptrset_erase (p : CellRef) (s : list CellRef) : list CellRef :=
  filter (fun q => addr q ≠ addr p) s.

Definition ptrset_insert_range (ps : list CellRef) (s : list CellRef)
  : list CellRef :=
  foldl (fun s p => ptrset_insert p s) s ps.
End PtrSet.

(** ** Binary-Tree generator *)

Module BinaryTree.
Definition Maze : Type := Grid CellInfoBase.

Definition GetNeighbours (maze : Maze) (cell : CellRef)
  : result (list CellRef) :=
  let x := cell.1 in
  let y := cell.2 in
  ns ← (if 0 <? x then c ← at_ maze (u32 (x - 1)) y; Ok [c] else Ok []);
  if 0 <? y then c ← at_ maze x (u32 (y - 1)); Ok (ns ++ [c]) else Ok ns.

Definition visit (y x : Z) (st : Maze * MT19937.state)
  : result (Maze * MT19937.state) :=
  let '(maze, mt) := st in
  cell ← at_ maze x y;
  curNeighbours ← GetNeighbours maze cell;
  match curNeighbours with
  | [] => Ok (maze, mt)
  | _ =>
      let '(r, mt) := MT19937.next mt in
      let randIdx := r mod Z.of_nat (length curNeighbours) in
      n ← vec_at curNeighbours randIdx;
      Ok (Connect maze cell n, mt)
  end.

Definition generate (width height seed : Z) : result (option Maze) :=
  if (width <? 1) || (height <? 1) then Ok None
  else
    maze ← Init width height false;
    let mt := MT19937.seed seed in
    st ← for_ (Z.to_nat height) 0 (fun y st =>
            for_ (Z.to_nat width) 0 (visit y) st) (maze, mt);
    Ok (Some st.1).
End BinaryTree.

(** ** Sidewinder generator *)

Module Sidewinder.
Definition Maze : Type := Grid CellInfoBase.

Section WithHeap.
Variable addr : CellRef -> Z.

Definition visit (width y x : Z) (st : Maze * MT19937.state * list CellRef)
  : result (Maze * MT19937.state * list CellRef) :=
  let '(maze, mt, runSet) := st in
  runSet ← (if 0 <? y
            then c ← at_ maze x y; Ok (ptrset_insert addr c runSet)
            else Ok runSet);
  let '(east, mt) :=
    if u32 (x + 1) <? width
    then let '(r, mt) := MT19937.next mt in
         ((r mod 2 =? 0) || (y =? 0), mt)
    else (false, mt) in
  if east
  then
    a ← at_ maze x y;
    b ← at_ maze (u32 (x + 1)) y;
    Ok (Connect maze a b, mt, runSet)
  else if 0 <? y
  then
    let '(r, mt) := MT19937.next mt in
    cell ← vec_at runSet (r mod Z.of_nat (length runSet));
    north ← at_ maze cell.1 (u32 (cell.2 - 1));
    Ok (Connect maze cell north, mt, [])
  else Ok (maze, mt, runSet).

Definition row (width y : Z) (st : Maze * MT19937.state * list CellRef)
  : result (Maze * MT19937.state * list CellRef) :=
  st ← for_ (Z.to_nat width) 0 (visit width y) st;
  Ok (st.1, []).

Definition generate (width height seed : Z) : result (option Maze) :=
  if (width <? 1) || (height <? 1) then Ok None
  else
    maze ← Init width height false;
    let mt := MT19937.seed seed in
    st ← for_ (Z.to_nat height) 0 (row width) (maze, mt, []);
    Ok (Some st.1.1).
End WithHeap.
End Sidewinder.

(** ** Prim's generator *)

Module Prims.
(** [struct CellInfo : CellInfoBase { uint64_t rootDistance; }]; the
    source leaves [rootDistance] uninitialised, here it starts at 0. *)
Record CellInfo := mkCellInfo { base : CellInfoBase; rootDistance : Z }.
#[global] Instance CellInfo_ctor : DefaultCtor CellInfo :=
  mkCellInfo default_ctor 0.

Definition Maze : Type := Grid CellInfo.

Definition visited (maze : Maze) (p : CellRef) : bool :=
  isVisited (base (info_of maze p)).

Definition set_visited (c : Cell CellInfo) : Cell CellInfo :=
  set_info (mkCellInfo (mkCellInfoBase true) (rootDistance (info c))) c.

Definition set_rootDistance (d : Z) (c : Cell CellInfo) : Cell CellInfo :=
  set_info (mkCellInfo (base (info c)) d) c.

(** One of the four tests of [GetNeighbours]: when the bound check
    [inb] holds, the cell at [(x, y)] is read and pushed if its visited
    flag is the wanted one. *)
Definition push_if (maze : Maze) (visited_wanted : bool) (inb : bool)
    (x y : Z) (neighbour : list CellRef) : result (list CellRef) :=
  if inb
  then
    c ← at_ maze x y;
    if (if visited_wanted then visited maze c else negb (visited maze c))
    then n ← at_ maze x y; Ok (neighbour ++ [n])
    else Ok neighbour
  else Ok neighbour.

Definition GetNeighbours (maze : Maze) (cell : CellRef) (visited_wanted : bool)
  : result (list CellRef) :=
  let x := cell.1 in
  let y := cell.2 in
  n ← push_if maze visited_wanted (0 <=? to_int (x - 1)) (u32 (x - 1)) y [];
  n ← push_if maze visited_wanted (0 <=? to_int (y - 1)) x (u32 (y - 1)) n;
  n ← push_if maze visited_wanted (u32 (x + 1) <? Width maze) (u32 (x + 1)) y n;
  push_if maze visited_wanted (u32 (y + 1) <? Height maze) x (u32 (y + 1)) n.

Section WithHeap.
Variable addr : CellRef -> Z.

(** One iteration of the [while (!pathSet.empty())] loop. *)
Definition step (st : Maze * MT19937.state * list CellRef)
  : result (Maze * MT19937.state * list CellRef) :=
  let '(maze, mt, pathSet) := st in
  let '(r, mt) := MT19937.next mt in
  cell ← vec_at pathSet (r mod Z.of_nat (length pathSet));
  let maze := upd maze cell set_visited in
  neighbours ← GetNeighbours maze cell true;
  '(maze, mt) ←
    match neighbours with
    | [] => Ok (maze, mt)
    | _ =>
        let '(r, mt) := MT19937.next mt in
        let randIdx := r mod Z.of_nat (length neighbours) in
        n ← vec_at neighbours randIdx;
        let maze := upd maze cell
          (set_rootDistance (rootDistance (info_of maze n) + 1)) in
        Ok (Connect maze cell n, mt)
    end;
  neighbours ← GetNeighbours maze cell false;
  Ok (maze, mt, ptrset_erase addr cell (ptrset_insert_range addr neighbours pathSet)).

Fixpoint loop (fuel : nat) (st : Maze * MT19937.state * list CellRef)
  : result Maze :=
  match st.2 with
  | [] => Ok st.1.1
  | _ =>
      match fuel with
      | O => Fault OutOfFuel
      | S fuel' => st' ← step st; loop fuel' st'
      end
  end.

Definition generate (width height : Z) (startPoint : Point) (seed : Z)
  : result (option Maze) :=
  if (width <? 1) || (height <? 1) || (width <=? startPoint.1)
     || (height <=? startPoint.2)
  then Ok None
  else
    maze ← Init width height false;
    let mt := MT19937.seed seed in
    start ← at_ maze startPoint.1 startPoint.2;
    let maze := upd maze start (set_rootDistance 0) in
    start ← at_ maze startPoint.1 startPoint.2;
    maze ← loop (Z.to_nat (width * height)) (maze, mt, ptrset_insert addr start []);
    Ok (Some maze).
End WithHeap.
End Prims.

(** ** Recursive-Division generator *)

Module RecursiveDivision.
Definition Maze : Type := Grid CellInfoBase.

Fixpoint Compute (fuel : nat) (mt : MT19937.state) (maze : Maze)
    (origin : Point) (width height : Z) : result (Maze * MT19937.state) :=
  if (width <? 2) || (height <? 2) then Ok (maze, mt)
  else
    match fuel with
    | O => Fault OutOfFuel
    | S fuel' =>
        let '(r, mt) := MT19937.next mt in
        let isHorizontalCut := r mod 2 =? 0 in
        let '(r, mt) := MT19937.next mt in
        let wallIdx := if isHorizontalCut then r mod (u32 (height - 1))
                       else r mod (u32 (width - 1)) in
        let '(r, mt) := MT19937.next mt in
        let pathIdx := if isHorizontalCut then r mod width else r mod height in
        if isHorizontalCut
        then
          maze ← DisconnectRow maze origin wallIdx width pathIdx;
          '(maze, mt) ← Compute fuel' mt maze origin width (u32 (wallIdx + 1));
          Compute fuel' mt maze (origin.1, u32 (origin.2 + wallIdx + 1))
            width (u32 (height - wallIdx - 1))
        else
          maze ← DisconnectCol maze origin wallIdx height pathIdx;
          '(maze, mt) ← Compute fuel' mt maze origin (u32 (wallIdx + 1)) height;
          Compute fuel' mt maze (u32 (origin.1 + wallIdx + 1), origin.2)
            (u32 (width - wallIdx - 1)) height
    end.

Definition generate (width height seed : Z) : result (option Maze) :=
  if (width <? 1) || (height <? 1) then Ok None
  else
    maze ← Init width height true;
    let mt := MT19937.seed seed in
    '(maze, _) ← Compute (Z.to_nat (width + height)) mt maze (0, 0) width height;
    Ok (Some maze).
End RecursiveDivision.

(** ** Kruskal's generator *)

Module Kruskals.
(** [struct CellInfoBucket : CellInfoBase { uint64_t bucketId; }]; every
    cell is given its bucket id before any is read. *)
Record CellInfoBucket := mkCellInfoBucket { base : CellInfoBase; bucketId : Z }.
#[global] Instance CellInfoBucket_ctor : DefaultCtor CellInfoBucket :=
  mkCellInfoBucket default_ctor 0.

Definition Maze : Type := Grid CellInfoBucket.
Abbreviation Buckets := (list (list CellRef)).

Definition u64 (z : Z) : Z := z mod 2 ^ 64.

Definition bucket_of (maze : Maze) (p : CellRef) : Z :=
  bucketId (info_of maze p).

Definition set_bucketId (id : Z) (c : Cell CellInfoBucket) : Cell CellInfoBucket :=
  set_info (mkCellInfoBucket (base (info c)) id) c.

(** [buckets[id]]. *)
Definition bucket_at (buckets : Buckets) (id : Z) : result (list CellRef) :=
  match (if 0 <=? id then buckets !! Z.to_nat id else None) with
  | Some b => Ok b
  | None => Fault BucketOutOfRange
  end.

(** [buckets[id].push_back(p)]. *)
Definition bucket_push (buckets : Buckets) (id : Z) (p : CellRef)
  : result Buckets :=
  _ ← bucket_at buckets id;
  Ok (alter (fun b => b ++ [p]) (Z.to_nat id) buckets).

(** The two ids are [uint32_t] parameters. *)
Definition MergeBucket (st : Maze * Buckets) (fromId ToId : Z)
  : result (Maze * Buckets) :=
  let fromId := u32 fromId in
  let ToId := u32 ToId in
  if fromId =? ToId then Ok st
  else
    from ← bucket_at st.2 fromId;
    '(maze, buckets) ← foldM (fun it '(maze, buckets) =>
        let maze := upd maze it (set_bucketId ToId) in
        buckets ← bucket_push buckets ToId it;
        Ok (maze, buckets)) from st;
    _ ← bucket_at buckets fromId;
    Ok (maze, <[Z.to_nat fromId := []]> buckets).

Record state := mkSt {
  st_maze : Maze;
  st_mt : MT19937.state;
  st_edges : list Edge;
  st_buckets : Buckets
}.

(** One iteration of the [while (!edges.empty())] loop; the pool is the
    sequence of the set's elements in iteration order. *)
Definition step (st : state) : result state :=
  let '(r, mt) := MT19937.next (st_mt st) in
  let idx := r mod Z.of_nat (length (st_edges st)) in
  e ← vec_at (st_edges st) idx;
  let firstBucket := bucket_of (st_maze st) (first e) in
  let secondBucket := bucket_of (st_maze st) (second e) in
  '(maze, buckets) ←
    (if firstBucket =? secondBucket then Ok (st_maze st, st_buckets st)
     else MergeBucket (Connect (st_maze st) (first e) (second e), st_buckets st)
            firstBucket secondBucket);
  Ok (mkSt maze mt (delete (Z.to_nat idx) (st_edges st)) buckets).

Fixpoint loop (fuel : nat) (st : state) : result Maze :=
  match st_edges st with
  | [] => Ok (st_maze st)
  | _ =>
      match fuel with
      | O => Fault OutOfFuel
      | S fuel' => st' ← step st; loop fuel' st'
      end
  end.

Section WithEdgeSet.
(** [std::set<Edge>::insert] under [Edge::operator<].  That operator
    is not a strict weak ordering, so what the container does with it
    is not fixed by the language; the generator is embedded for any
    insertion function. *)
Variable set_insert : Edge -> list Edge -> list Edge.

Definition fill_cell (x y : Z) (st : Maze * list Edge * Buckets * Z)
  : result (Maze * list Edge * Buckets * Z) :=
  let '(maze, edges, bucketCells, nodeId) := st in
  c ← at_ maze x y;
  let maze := upd maze c (set_bucketId nodeId) in
  c ← at_ maze x y;
  bucketCells ← bucket_push bucketCells nodeId c;
  edges ← (if u32 (x + 1) <? Width maze
           then a ← at_ maze x y; b ← at_ maze (u32 (x + 1)) y;
                Ok (set_insert (mkEdge a b) edges)
           else Ok edges);
  edges ← (if u32 (y + 1) <? Height maze
           then a ← at_ maze x y; b ← at_ maze x (u32 (y + 1));
                Ok (set_insert (mkEdge a b) edges)
           else Ok edges);
  Ok (maze, edges, bucketCells, u64 (nodeId + 1)).

Definition fill (maze : Maze) (width height : Z)
  : result (Maze * list Edge * Buckets * Z) :=
  for_ (Z.to_nat (Width maze)) 0 (fun x st =>
    for_ (Z.to_nat (Height st.1.1.1)) 0 (fill_cell x) st)
    (maze, [], replicate (Z.to_nat (u32 (height * width))) [], 0).

(** The state on entry to the [while] loop. *)
Definition start (width height seed : Z) : result state :=
  maze ← Init width height false;
  let mt := MT19937.seed seed in
  '(maze, edges, bucketCells, _) ← fill maze width height;
  Ok (mkSt maze mt edges bucketCells).

Definition generate (width height seed : Z) : result (option Maze) :=
  if (width <? 1) || (height <? 1) then Ok None
  else
    st ← start width height seed;
    maze ← loop (length (st_edges st)) st;
    Ok (Some maze).
End WithEdgeSet.

(** The first [n] iterations of the loop. *)
Fixpoint steps (n : nat) (st : state) : result state :=
  match n with
  | O => Ok st
  | S n' => st' ← step st; steps n' st'
  end.

(** The edge the next iteration draws. *)
Definition drawn_index (st : state) : Z :=
  (MT19937.next (st_mt st)).1 mod Z.of_nat (length (st_edges st)).

(** What the loop of [MergeBucket] does to the cells: each cell listed in
    the bucket takes the id [ToId]. *)
Definition relabel (ToId : Z) (from : list CellRef) (maze : Maze) : Maze :=
  foldl (fun m it => upd m it (set_bucketId ToId)) maze from.

(** A reference container: the elements in increasing order, a new one
    placed before the first element it is less than and dropped when
    the element before that place is not less than it. *)
Fixpoint ordered_insert_after (prev : Edge) (e : Edge) (s : list Edge) : list Edge :=
  match s with
  | [] => if Edge_lt prev e then [e] else []
  | q :: s' =>
      if Edge_lt e q
      then (if Edge_lt prev e then e :: s else s)
      else q :: ordered_insert_after q e s'
  end.

Definition ordered_insert (e : Edge) (s : list Edge) : list Edge :=
  match s with
  | [] => [e]
  | q :: s' => if Edge_lt e q then e :: s else q :: ordered_insert_after q e s'
  end.
End Kruskals.

(** ** Properties of grids *)

Definition is_u32 (z : Z) : Prop := 0 <= z < 2 ^ 32.

Definition is_cell {I : Type} (g : Grid I) (p : Point) : Prop :=
  is_Some (cell_at g p).

(** [a] is in [b]'s connection set iff [b] is in [a]'s. *)
Definition Symmetric {I : Type} (g : Grid I) : Prop :=
  forall a b, is_cell g a -> is_cell g b ->
    (b ∈ connected_of g a <-> a ∈ connected_of g b).

Definition adjacent (a b : Point) : Prop :=
  Z.abs (a.1 - b.1) + Z.abs (a.2 - b.2) = 1.

Definition AdjacentOnly {I : Type} (g : Grid I) : Prop :=
  forall a b, b ∈ connected_of g a -> adjacent a b.

(** The grid holds [W] columns, column [i] holds [lens i] cells, and the
    cell stored at [data[x][y]] has the coordinates [(x, y)]. *)
Definition gshape {I : Type} (W : nat) (lens : nat -> nat) (g : Grid I) : Prop :=
  length (data g) = W /\
  (forall i col, data g !! i = Some col -> length col = lens i) /\
  (forall p c, cell_at g p = Some c -> (cell_x c, cell_y c) = p).

(** A finished grid: [W] columns of [H] cells. *)
Definition shape {I : Type} (W H : nat) (g : Grid I) : Prop :=
  gshape W (fun _ => H) g.

(** Column lengths while [Init] is filling the cell [(x, y)]. *)
Definition init_lens (H : nat) (x y : Z) (i : nat) : nat :=
  if Z.of_nat i <? x then H else if Z.of_nat i =? x then Z.to_nat y else O.

(** Number of connection edges: every edge is held by its two endpoints. *)
Definition grid_sum {I : Type} (w : Cell I -> nat) (g : Grid I) : nat :=
  sum_list_with (sum_list_with w) (data g).

Definition degree_sum {I : Type} (g : Grid I) : nat :=
  grid_sum (fun c => size (connectedCells c)) g.

Definition edge_count {I : Type} (g : Grid I) : Z := Z.of_nat (degree_sum g) / 2.

(** Connection sets only hold cells of the grid. *)
Definition Closed {I : Type} (g : Grid I) : Prop :=
  forall a b, b ∈ connected_of g a -> is_cell g b.

(** What holds of the grid while [Init] is about to fill [(x, y)]. *)
Definition InitInv {I : Type} `{!DefaultCtor I} (isConnected : bool) (W H : nat)
    (x y : Z) (g : Grid I) : Prop :=
  gshape W (init_lens H x y) g /\ Symmetric g /\ Closed g /\ AdjacentOnly g /\
  (isConnected = false -> forall p, connected_of g p = ∅) /\
  (forall p, info_of g p = default_ctor).

(** What every generator keeps true of the maze it is carving. *)
Definition MazeInv {I : Type} (W H : nat) (g : Grid I) : Prop :=
  shape W H g /\ Symmetric g /\ Closed g /\ AdjacentOnly g.

(** Sidewinder: the run set holds cells of the current row, which is not
    the first one. *)
Definition RunInv (W H : nat)
    (st : Sidewinder.Maze * MT19937.state * list CellRef) : Prop :=
  MazeInv W H st.1.1 /\
  forall c, c ∈ st.2 -> is_cell st.1.1 c /\ 0 < c.2.

(** Prim's: the cells not yet visited, the measure of its loop. *)
Definition unvisited_weight (c : Cell Prims.CellInfo) : nat :=
  if isVisited (Prims.base (info c)) then O else 1%nat.

Definition unvisited_count (g : Prims.Maze) : nat := grid_sum unvisited_weight g.

Definition PrimsInv (W H : nat) (fuel : nat)
    (st : Prims.Maze * MT19937.state * list CellRef) : Prop :=
  MazeInv W H st.1.1 /\
  (forall c, c ∈ st.2 -> is_cell st.1.1 c /\ Prims.visited st.1.1 c = false) /\
  (unvisited_count st.1.1 <= fuel)%nat.

(** Kruskal's: the only fault its embedding can raise is an access to
    [bucketCells] outside its bounds, and only when [width * height] does
    not fit the [uint32_t] product that sizes the table. *)
Definition bucket_overflow (W H : nat) (e : fault) : Prop :=
  e = BucketOutOfRange /\ 2 ^ 32 <= Z.of_nat W * Z.of_nat H.

Definition in_grid (W H : nat) (p : Point) : Prop :=
  0 <= p.1 < Z.of_nat W /\ 0 <= p.2 < Z.of_nat H.

Definition EdgeOk (W H : nat) (e : Edge) : Prop :=
  in_grid W H (first e) /\ in_grid W H (second e) /\ adjacent (first e) (second e).

(** The container only holds edges that were inserted. *)
Definition insert_keeps (set_insert : Edge -> list Edge -> list Edge) : Prop :=
  forall e l x, x ∈ set_insert e l -> x = e \/ x ∈ l.

(** Kruskal's: every bucket id names a bucket of the table. *)
Definition BucketsInv (W H : nat) (maze : Kruskals.Maze) (buckets : Kruskals.Buckets)
  : Prop :=
  Z.of_nat W * Z.of_nat H < 2 ^ 32 ->
  Z.of_nat (length buckets) = Z.of_nat W * Z.of_nat H /\
  forall p, 0 <= Kruskals.bucket_of maze p < Z.of_nat W * Z.of_nat H.

Definition KruskalInv (W H : nat) (sub : Prop) (maze : Kruskals.Maze)
    (edges : list Edge) (buckets : Kruskals.Buckets) : Prop :=
  shape W H maze /\ BucketsInv W H maze buckets /\
  (sub -> MazeInv W H maze /\ forall e, e ∈ edges -> EdgeOk W H e).

(** Kruskal's, while the pool is being filled: [nodeId] counts the cells
    already numbered. *)
Definition FillInv (W H : nat) (sub : Prop) (x y : Z)
    (st : Kruskals.Maze * list Edge * Kruskals.Buckets * Z) : Prop :=
  KruskalInv W H sub st.1.1.1 st.1.1.2 st.1.2 /\ st.2 = x * Z.of_nat H + y.

(** The mutating operations of the public interface of [Grid], and the
    grids that a sequence of them can produce from a constructed one. *)
Inductive GridOp : Type :=
  | OpConnect (root cell : CellRef)
  | OpConnectList (cell : CellRef) (neighbours : list CellRef)
  | OpDisconnect (root cell : CellRef)
  | OpDisconnectRow (origin : Point) (idx width pathIdx : Z)
  | OpDisconnectCol (origin : Point) (idx height pathIdx : Z).

Definition apply_op {I : Type} (g : Grid I) (op : GridOp) : result (Grid I) :=
  match op with
  | OpConnect root cell => Ok (Connect g root cell)
  | OpConnectList cell neighbours => Ok (Connect_list g cell neighbours)
  | OpDisconnect root cell => Ok (Disconnect g root cell)
  | OpDisconnectRow origin idx width pathIdx => DisconnectRow g origin idx width pathIdx
  | OpDisconnectCol origin idx height pathIdx => DisconnectCol g origin idx height pathIdx
  end.

Inductive reachable {I : Type} `{!DefaultCtor I} : Grid I -> Prop :=
  | reachable_Init width height isConnected g :
      Init width height isConnected = Ok g -> reachable g
  | reachable_op g op g' :
      reachable g -> apply_op g op = Ok g' -> reachable g'.

(** Sequences of interface calls, used to exercise the invariants. *)
Fixpoint run_ops {I : Type} (g : Grid I) (ops : list GridOp) : result (Grid I) :=
  match ops with
  | [] => Ok g
  | op :: ops' => g' ← apply_op g op; run_ops g' ops'
  end.

Definition is_ok {A : Type} (r : result A) : bool :=
  match r with
  | Ok _ => true
  | Fault _ => false
  end.

Definition get_grid {I : Type} (r : result (Grid I)) : Grid I :=
  match r with
  | Ok g => g
  | Fault _ => mkGrid []
  end.

Definition example_ops : list GridOp :=
  [OpDisconnectRow (0, 0) 0 3 1; OpDisconnectCol (0, 1) 1 2 0;
   OpDisconnect (0, 0) (1, 0); OpConnect (2, 2) (2, 1);
   OpConnectList (1, 1) [(0, 1); (1, 2)]].

Definition example_walls : result (Grid CellInfoBase) :=
  g ← Init 3 3 true; run_ops g example_ops.

(** The heap, for the sets ordered by cell address.  [Init] allocates the
    cells column by column; [addr_allocation_order] is an allocator that
    hands out increasing addresses, [addr_reverse_order] one that hands
    out decreasing addresses (a free list reused last-in first-out). *)
Definition addr_allocation_order (p : CellRef) : Z :=
  4096 + 128 * (p.1 * 2 ^ 32 + p.2).

Definition addr_reverse_order (p : CellRef) : Z :=
  2 ^ 62 - 128 * (p.1 * 2 ^ 32 + p.2).

(** The value of a computation that did not fault. *)
Definition value {A : Type} (r : result A) : option A :=
  match r with
  | Ok a => Some a
  | Fault _ => None
  end.

(** The maze a generator call returned, if any. *)
Definition returned {I : Type} (r : result (option (Grid I))) : option (Grid I) :=
  match r with
  | Ok o => o
  | Fault _ => None
  end.

(** The connection set of every cell, column by column. *)
Definition topology {I : Type} (g : Grid I) : list (list (list Point)) :=
  map (map (fun c => elements (connectedCells c))) (data g).

(** Kruskal's: the size of every bucket, the bucket id of the listed
    cells and the pool, after some iterations. *)
Definition kruskal_summary (cells : list CellRef) (st : Kruskals.state)
  : list nat * list Z * list Edge :=
  (map length (Kruskals.st_buckets st),
   map (Kruskals.bucket_of (Kruskals.st_maze st)) cells,
   Kruskals.st_edges st).

(** Kruskal's on the 3 x 1 grid with seed 0, after one iteration. *)
Definition example_state : Kruskals.state :=
  match Kruskals.start Kruskals.ordered_insert 3 1 0 ≫= Kruskals.steps 1 with
  | Ok st => st
  | Fault _ => Kruskals.mkSt (mkGrid []) (MT19937.seed 0) [] []
  end.

(** The pairs of cells a wall separates: along row [idx] of the region at
    [origin], every column [x] of the first [width] except [pathIdx]. *)
Definition pair_is (a b p q : Point) : Prop :=
  (a = p /\ b = q) \/ (a = q /\ b = p).

Definition row_wall (origin : Point) (idx width pathIdx : Z) (a b : Point) : Prop :=
  exists x, 0 <= x < width /\ x <> pathIdx /\
    pair_is a b (origin.1 + x, origin.2 + idx) (origin.1 + x, origin.2 + idx + 1).

Definition col_wall (origin : Point) (idx height pathIdx : Z) (a b : Point) : Prop :=
  exists y, 0 <= y < height /\ y <> pathIdx /\
    pair_is a b (origin.1 + idx, origin.2 + y) (origin.1 + idx + 1, origin.2 + y).

(** Every connection links two distinct, orthogonally adjacent cells of
    the grid. *)
Definition AdjacentCells {I : Type} (g : Grid I) : Prop :=
  forall a b, b ∈ connected_of g a ->
    is_cell g a /\ is_cell g b /\ a <> b /\
    Z.abs (a.1 - b.1) + Z.abs (a.2 - b.2) = 1.

(** Every two orthogonally adjacent cells of the grid are connected: what
    [Init] builds when asked for a connected grid. *)
Definition FullyConnected {I : Type} (g : Grid I) : Prop :=
  forall a b, is_cell g a -> is_cell g b -> adjacent a b -> b ∈ connected_of g a.

(** Passages: [b] can be entered from [a]. *)
Definition linked {I : Type} (g : Grid I) (a b : Point) : Prop :=
  b ∈ connected_of g a.

(** [b] is the west or the north neighbour of [a]: the two cells
    Binary Tree's [GetNeighbours] offers. *)
Definition west_or_north (a b : Point) : Prop :=
  b = (a.1 - 1, a.2) \/ b = (a.1, a.2 - 1).

(** The cells the two loops of a generator have been through when they
    are about to visit [(x, y)]: rows from the top, each from the west. *)
Definition visited_before (x y : Z) (p : Point) : Prop :=
  p.2 < y \/ (p.2 = y /\ p.1 < x).

(** [b] is the only cell of [a]'s connection set that lies west or north
    of [a]. *)
Definition only_parent {I : Type} (g : Grid I) (a b : Point) : Prop :=
  linked g a b /\ west_or_north a b /\
  forall b', linked g a b' -> west_or_north a b' -> b' = b.

(** Binary Tree, about to visit [(x, y)]: every passage leads from a
    visited cell to its west or north neighbour, every visited cell but
    the first has one such passage, and there are as many passages as
    visited cells other than the first. *)
Definition CarvedInv (W H : nat) (x y : Z) (g : BinaryTree.Maze) : Prop :=
  MazeInv W H g /\
  (forall a b, linked g a b ->
     (visited_before x y a /\ west_or_north a b) \/
     (visited_before x y b /\ west_or_north b a)) /\
  (forall a, is_cell g a -> visited_before x y a -> a <> (0, 0) ->
     exists b, only_parent g a b) /\
  Z.of_nat (degree_sum g) = 2 * Z.max 0 (y * Z.of_nat W + x - 1).

(** Sidewinder, about to visit [(x, y)] with the current run starting at
    column [s]: the run set holds cells of the run; the cells before the
    run are joined to the first cell; the cells of the run are joined to
    each other by east passages and have no north passage yet; the cells
    still to come are untouched; the first row is one corridor; and there
    is one passage per visited cell, less one for the last cell of the
    first row. *)
Definition SidewinderInv (W H : nat) (x y : Z)
    (st : Sidewinder.Maze * MT19937.state * list CellRef) : Prop :=
  MazeInv W H st.1.1 /\
  exists s,
    (0 <= s <= x /\ (y = 0 -> s = 0) /\ (0 < y -> s < x -> x < Z.of_nat W)) /\
    (forall c, c ∈ st.2 -> c.2 = y /\ s <= c.1 < x /\ 0 < y) /\
    (forall p, is_cell st.1.1 p -> p.2 < y \/ (p.2 = y /\ p.1 < s) ->
       rtc (linked st.1.1) p (0, 0)) /\
    (forall i, s <= i < x -> i + 1 < Z.of_nat W -> linked st.1.1 (i, y) (i + 1, y)) /\
    (forall p, ~ visited_before x y p -> p <> (x, y) -> connected_of st.1.1 p = ∅) /\
    (forall i, s <= i -> (i, y - 1) ∉ connected_of st.1.1 (i, y)) /\
    (forall i, 0 <= i -> i + 1 < Z.of_nat W -> visited_before x y (i, 0) ->
       linked st.1.1 (i, 0) (i + 1, 0)) /\
    Z.of_nat (degree_sum st.1.1) =
      2 * (if y =? 0 then Z.min x (Z.of_nat W - 1) else y * Z.of_nat W + x - 1).

(** Passages of the connected grid when [Init] is about to create the cell
    [(x, y)]: those inside the [x] full columns, between the last of them
    and the [y] cells of column [x], and between these cells. *)
Definition init_edges (H : nat) (x y : Z) : Z :=
  (if 0 <? x then (x - 1) * Z.of_nat H + x * Z.max (Z.of_nat H - 1) 0 + y else 0)
  + Z.max (y - 1) 0.

(** Passages of a fully connected block of [w] columns and [h] rows. *)
Definition full_edges (w h : Z) : Z := (w - 1) * h + w * (h - 1).

(** The block of [w] columns and [h] rows whose first cell is [origin]. *)
Definition in_region (origin : Point) (w h : Z) (p : Point) : Prop :=
  origin.1 <= p.1 < origin.1 + w /\ origin.2 <= p.2 < origin.2 + h.

(** Passages between two cells of a part [P] of the grid. *)
Definition linked_in {I : Type} (g : Grid I) (P : Point -> Prop) (a b : Point) : Prop :=
  P a /\ P b /\ linked g a b.

(** Every two neighbours inside the block are connected: a room that has
    not been divided yet. *)
Definition RoomFull {I : Type} (g : Grid I) (origin : Point) (w h : Z) : Prop :=
  forall a b, in_region origin w h a -> in_region origin w h b -> adjacent a b ->
    linked g a b.

(** What [Compute] does to a room: it only removes passages, only inside
    the room, and leaves the room a tree: its cells joined to each other
    by paths inside it, with one passage less than cells. *)
Definition Divided {I : Type} (g g' : Grid I) (origin : Point) (w h : Z) : Prop :=
  (forall a b, linked g' a b -> linked g a b) /\
  (forall a b, ~ (in_region origin w h a /\ in_region origin w h b) ->
     linked g a b -> linked g' a b) /\
  (forall a b, in_region origin w h a -> in_region origin w h b ->
     rtc (linked_in g' (in_region origin w h)) a b) /\
  Z.of_nat (degree_sum g') + 2 * (full_edges w h - (w * h - 1)) = Z.of_nat (degree_sum g).

(** Distinct cells of the grid lie at distinct addresses. *)
Definition addr_injective (addr : CellRef -> Z) (W H : nat) : Prop :=
  forall p q, in_grid W H p -> in_grid W H q -> addr p = addr q -> p = q.

(** [p->info.rootDistance]. *)
Definition root_distance (m : Prims.Maze) (p : CellRef) : Z :=
  Prims.rootDistance (info_of m p).

(** Prim's, at the head of its loop, for the start cell [s]: the frontier
    holds exactly the cells not yet visited that touch a visited one (or
    the start cell alone, before the first iteration); the visited cells
    are joined to the start cell, the others have no passage, there is
    one passage per visited cell other than the first, and the root
    distance of a visited cell is one more than that of a visited cell it
    has a passage to, from 0 at the start cell. *)
Definition PrimsTreeInv (W H : nat) (s : Point)
    (st : Prims.Maze * MT19937.state * list CellRef) : Prop :=
  MazeInv W H st.1.1 /\
  (forall c, c ∈ st.2 ->
     is_cell st.1.1 c /\ Prims.visited st.1.1 c = false /\
     ((exists v, is_cell st.1.1 v /\ adjacent c v /\ Prims.visited st.1.1 v = true) \/
      (c = s /\ forall q, Prims.visited st.1.1 q = false))) /\
  (forall v u, is_cell st.1.1 v -> is_cell st.1.1 u ->
     Prims.visited st.1.1 v = true -> adjacent v u ->
     Prims.visited st.1.1 u = false -> u ∈ st.2) /\
  (Prims.visited st.1.1 s = true \/
   (s ∈ st.2 /\ forall q, Prims.visited st.1.1 q = false)) /\
  (forall v, is_cell st.1.1 v -> Prims.visited st.1.1 v = true ->
     rtc (linked st.1.1) v s) /\
  (forall p, Prims.visited st.1.1 p = false -> connected_of st.1.1 p = ∅) /\
  (((forall q, Prims.visited st.1.1 q = false) /\ degree_sum st.1.1 = O /\
    Z.of_nat (unvisited_count st.1.1) = Z.of_nat W * Z.of_nat H) \/
   (Prims.visited st.1.1 s = true /\
    Z.of_nat (degree_sum st.1.1) =
      2 * (Z.of_nat W * Z.of_nat H - Z.of_nat (unvisited_count st.1.1) - 1))) /\
  root_distance st.1.1 s = 0 /\
  (forall v, is_cell st.1.1 v -> Prims.visited st.1.1 v = true ->
     0 <= root_distance st.1.1 v
       <= Z.of_nat W * Z.of_nat H - Z.of_nat (unvisited_count st.1.1) - 1 /\
     (v <> s ->
      exists n, linked st.1.1 v n /\ Prims.visited st.1.1 n = true /\
        root_distance st.1.1 v = root_distance st.1.1 n + 1)).

(** Kruskal's: the buckets in use, and the bucket ids the cells of a maze
    carry. *)
Definition nonempty_buckets (bs : Kruskals.Buckets) : nat :=
  sum_list_with (fun b : list CellRef => match b with [] => O | _ => 1%nat end) bs.

Definition bucket_ids (m : Kruskals.Maze) : gset Z :=
  list_to_set ((fun c => Kruskals.bucketId (info c)) <$> concat (data m)).

(** Kruskal's, at the head of its loop: every cell is listed in the bucket
    its id names and nowhere else; the cells of a bucket are joined to
    each other and to no other cell; and there are as many passages as
    buckets have been emptied. *)
Definition ForestInv (W H : nat) (maze : Kruskals.Maze) (buckets : Kruskals.Buckets)
  : Prop :=
  MazeInv W H maze /\
  Z.of_nat (length buckets) = Z.of_nat W * Z.of_nat H /\
  (forall p, is_cell maze p ->
     0 <= Kruskals.bucket_of maze p /\
     exists b, buckets !! Z.to_nat (Kruskals.bucket_of maze p) = Some b /\ p ∈ b) /\
  (forall i b p, buckets !! i = Some b -> p ∈ b ->
     is_cell maze p /\ Kruskals.bucket_of maze p = Z.of_nat i) /\
  (forall a b, linked maze a b -> Kruskals.bucket_of maze a = Kruskals.bucket_of maze b) /\
  (forall a b, is_cell maze a -> is_cell maze b ->
     Kruskals.bucket_of maze a = Kruskals.bucket_of maze b -> rtc (linked maze) a b) /\
  Z.of_nat (degree_sum maze) + 2 * Z.of_nat (nonempty_buckets buckets)
    = 2 * (Z.of_nat W * Z.of_nat H).

(** The cells [fill] has numbered when it is about to number [(x, y)]:
    columns from the west, each from the top. *)
Definition numbered (x y : Z) (p : Point) : Prop :=
  p.1 < x \/ (p.1 = x /\ p.2 < y).

(** Kruskal's, while the buckets are being filled. *)
Definition FillForest (W H : nat) (x y : Z)
    (st : Kruskals.Maze * list Edge * Kruskals.Buckets * Z) : Prop :=
  MazeInv W H st.1.1.1 /\
  (forall p, connected_of st.1.1.1 p = ∅) /\
  st.2 = x * Z.of_nat H + y /\
  Z.of_nat (length st.1.2) = Z.of_nat W * Z.of_nat H /\
  (forall p, is_cell st.1.1.1 p -> numbered x y p ->
     Kruskals.bucket_of st.1.1.1 p = p.1 * Z.of_nat H + p.2) /\
  (forall i b, st.1.2 !! i = Some b ->
     b = if Z.of_nat i <? x * Z.of_nat H + y
         then [(Z.of_nat i / Z.of_nat H, Z.of_nat i mod Z.of_nat H)] else []) /\
  (forall e, e ∈ st.1.1.2 -> EdgeOk W H e).

(** Postcondition of a fallible computation: [P] on its value, [F] on its
    fault. *)
Definition post {A : Type} (P : A -> Prop) (F : fault -> Prop) (r : result A)
  : Prop :=
  match r with
  | Ok a => P a
  | Fault e => F e
  end.

Definition no_fault : fault -> Prop := fun _ => False.

(** * Proofs *)

(** ** Checks of the embedding against known values

    The C++ standard fixes the 10000th value of a default-constructed
    [std::mt19937] (seed 5489); the other checks replay the unit tests of
    the repository. *)

Example mt19937_first_value : (MT19937.next (MT19937.seed 5489)).1 = 3499211612.
Proof. vm_compute. reflexivity. Qed.

Example mt19937_10000th_value :
  (MT19937.next (MT19937.discard (Z.to_nat 9999) (MT19937.seed 5489))).1 = 4123659995.
Proof. vm_compute. reflexivity. Qed.

Example mt19937_seed_0_values :
  let s0 := MT19937.seed 0 in
  let '(r1, s1) := MT19937.next s0 in
  let '(r2, s2) := MT19937.next s1 in
  let '(r3, _) := MT19937.next s2 in
  [r1; r2; r3] = [2357136044; 2546248239; 3071714933].
Proof. vm_compute. reflexivity. Qed.

Example TestGrid_build :
  (fun g : Grid CellInfoBase => (Width g, Height g)) <$> value (Init 0 0 false) = Some (0, 0) /\
  (fun g : Grid CellInfoBase => (Width g, Height g)) <$> value (Init 0 0 true) = Some (0, 0) /\
  (fun g : Grid CellInfoBase => (Width g, Height g)) <$> value (Init 10 10 false) = Some (10, 10) /\
  (fun g : Grid CellInfoBase => (Width g, Height g)) <$> value (Init 10 10 true) = Some (10, 10).
Proof. repeat split; vm_compute; reflexivity. Qed.

Example TestSidewinderGen_build :
  Sidewinder.generate addr_allocation_order 0 0 0 = Ok None /\
  Sidewinder.generate addr_allocation_order 5 0 0 = Ok None /\
  (fun m => (Width m, Height m))
    <$> returned (Sidewinder.generate addr_allocation_order 5 10 0) = Some (5, 10) /\
  (fun m => (Width m, Height m))
    <$> returned (Sidewinder.generate addr_allocation_order 10 10 0) = Some (10, 10).
Proof. repeat split; vm_compute; reflexivity. Qed.

(** ** Machine integers *)

Lemma u32_small z : is_u32 z -> u32 z = z.
Proof. intros Hz. unfold u32. apply Z.mod_small. exact Hz. Qed.

Lemma u32_range z : is_u32 (u32 z).
Proof. unfold is_u32, u32. apply Z.mod_pos_bound. lia. Qed.

Lemma u8_small z : 0 <= z < 2 ^ 8 -> u8 z = z.
Proof. intros Hz. unfold u8. apply Z.mod_small. exact Hz. Qed.

Lemma u8_range z : 0 <= u8 z < 2 ^ 8.
Proof. unfold u8. apply Z.mod_pos_bound. lia. Qed.

Lemma u8_le z : 0 <= z -> u8 z <= z.
Proof. intros Hz. unfold u8. apply Z.mod_le; lia. Qed.

(** ** The result monad *)

Lemma post_bind {A B : Type} (m : result A) (f : A -> result B) P F :
  post (fun a => post P F (f a)) F m -> post P F (m ≫= f).
Proof. destruct m; simpl; auto. Qed.

Lemma post_mono {A : Type} (P Q : A -> Prop) (F G : fault -> Prop) r :
  (forall a, P a -> Q a) -> (forall e, F e -> G e) -> post P F r -> post Q G r.
Proof. destruct r; simpl; auto. Qed.

Lemma post_ok {A : Type} (P : A -> Prop) r :
  post P no_fault r -> exists a, r = Ok a /\ P a.
Proof. destruct r; simpl; [eauto | intros []]. Qed.

Lemma bind_elim {A B : Type} (m : result A) (f : A -> result B) P
    (Q : result B -> Prop) :
  post P no_fault m -> (forall a, P a -> Q (f a)) -> Q (m ≫= f).
Proof. destruct m; simpl; [auto | intros []]. Qed.

Lemma for_post {St : Type} (Inv : Z -> St -> Prop) F n lo body (s : St) :
  Inv lo s ->
  (forall i s, lo <= i < lo + Z.of_nat n -> Inv i s -> post (Inv (i + 1)) F (body i s)) ->
  post (Inv (lo + Z.of_nat n)) F (for_ n lo body s).
Proof.
  revert lo s. induction n as [|n IH]; intros lo s H0 Hbody.
  - simpl. replace (lo + Z.of_nat 0) with lo by lia. exact H0.
  - simpl. apply post_bind.
    eapply post_mono; [| intros e He; exact He | apply (Hbody lo s); [lia | exact H0]].
    intros s' Hs'. simpl.
    replace (lo + Z.of_nat (S n)) with (lo + 1 + Z.of_nat n) by lia.
    apply IH; [exact Hs' |].
    intros i s0 Hi. apply Hbody. lia.
Qed.

Lemma foldM_post {A St : Type} (Inv : list A -> St -> Prop) F f (l : list A) (s : St) :
  Inv l s ->
  (forall a l' s, Inv (a :: l') s -> post (Inv l') F (f a s)) ->
  post (Inv []) F (foldM f l s).
Proof.
  revert s. induction l as [|a l IH]; intros s H0 Hf; simpl; [exact H0 |].
  apply post_bind. eapply post_mono; [| intros e He; exact He | apply Hf, H0].
  intros s' Hs'. simpl. apply IH; assumption.
Qed.

(** ** Cells behind pointers *)

Section GridFacts.
Context {I : Type}.
Implicit Types (g : Grid I) (p q : Point) (f : Cell I -> Cell I) (c : Cell I).

Lemma cell_at_Some g p c :
  cell_at g p = Some c <->
  0 <= p.1 /\ 0 <= p.2 /\
  exists col, data g !! Z.to_nat p.1 = Some col /\ col !! Z.to_nat p.2 = Some c.
Proof.
  unfold cell_at, in_nat_range.
  destruct (0 <=? p.1) eqn:E1; destruct (0 <=? p.2) eqn:E2; simpl;
    try (split; [discriminate | intros (? & ? & _); lia]).
  apply Z.leb_le in E1, E2.
  destruct (data g !! Z.to_nat p.1) as [col|]; simpl.
  - split; [intros Hc; eauto | intros (_ & _ & col' & [= <-] & Hc); exact Hc].
  - split; [discriminate | intros (_ & _ & col' & [=] & _)].
Qed.

Lemma cell_at_upd g p f q :
  cell_at (upd g p f) q = if decide (p = q) then f <$> cell_at g q else cell_at g q.
Proof.
  unfold upd. destruct (in_nat_range p) eqn:Ep.
  - unfold cell_at. destruct (in_nat_range q) eqn:Eq.
    + simpl. unfold in_nat_range in Ep, Eq.
      apply andb_true_iff in Ep as [Ep1 Ep2]. apply andb_true_iff in Eq as [Eq1 Eq2].
      apply Z.leb_le in Ep1, Ep2, Eq1, Eq2.
      destruct (decide (p = q)) as [->|Hne].
      * rewrite list_lookup_alter_eq.
        destruct (data g !! Z.to_nat q.1) as [col|]; simpl; [| reflexivity].
        apply list_lookup_alter_eq.
      * destruct (decide (Z.to_nat p.1 = Z.to_nat q.1)) as [Hx|Hx].
        -- rewrite Hx, list_lookup_alter_eq.
           destruct (data g !! Z.to_nat q.1) as [col|]; simpl; [| reflexivity].
           apply list_lookup_alter_ne. intros Hy. apply Hne.
           destruct p, q; simpl in *. f_equal; lia.
        -- rewrite list_lookup_alter_ne by exact Hx. reflexivity.
    + destruct (decide (p = q)); reflexivity.
  - destruct (decide (p = q)) as [->|]; [| reflexivity].
    unfold cell_at. rewrite Ep. reflexivity.
Qed.

Lemma is_cell_upd g p f q : is_cell (upd g p f) q <-> is_cell g q.
Proof.
  unfold is_cell. rewrite cell_at_upd. destruct (decide (p = q)); [| reflexivity].
  rewrite fmap_is_Some. reflexivity.
Qed.

Lemma connected_of_upd g p f q :
  (forall c, connectedCells (f c) = connectedCells c) ->
  connected_of (upd g p f) q = connected_of g q.
Proof.
  intros Hf. unfold connected_of. rewrite cell_at_upd.
  destruct (decide (p = q)); [| reflexivity].
  destruct (cell_at g q); simpl; [apply Hf | reflexivity].
Qed.

Lemma connected_of_insert g p r q :
  connected_of (upd g p (conn_insert r)) q =
  if decide (p = q /\ is_cell g q) then {[r]} ∪ connected_of g q else connected_of g q.
Proof.
  unfold connected_of, is_cell. rewrite cell_at_upd.
  destruct (decide (p = q)) as [->|Hne].
  - destruct (cell_at g q) as [c|]; simpl.
    + rewrite decide_True; [reflexivity | split; eauto].
    + rewrite decide_False; [reflexivity | intros [_ [? [=]]]].
  - rewrite decide_False; [reflexivity | tauto].
Qed.

Lemma connected_of_erase g p r q :
  connected_of (upd g p (conn_erase r)) q =
  if decide (p = q) then connected_of g q ∖ {[r]} else connected_of g q.
Proof.
  unfold connected_of. rewrite cell_at_upd.
  destruct (decide (p = q)) as [->|Hne]; [| reflexivity].
  destruct (cell_at g q) as [c|]; simpl; [reflexivity |].
  symmetry. apply empty_difference_L.
Qed.

Lemma not_cell_connected g p : ~ is_cell g p -> connected_of g p = ∅.
Proof.
  unfold is_cell, connected_of. destruct (cell_at g p); [| reflexivity].
  intros Hn. destruct Hn. eauto.
Qed.

Lemma elem_connected_is_cell g p r : r ∈ connected_of g p -> is_cell g p.
Proof.
  unfold is_cell, connected_of. destruct (cell_at g p); [eauto | set_solver].
Qed.

(** *** Shape *)

Lemma data_upd_length g p f : length (data (upd g p f)) = length (data g).
Proof. unfold upd. destruct (in_nat_range p); simpl; [apply length_alter | reflexivity]. Qed.

Lemma gshape_upd W lens g p f :
  (forall c, cell_x (f c) = cell_x c /\ cell_y (f c) = cell_y c) ->
  gshape W lens g -> gshape W lens (upd g p f).
Proof.
  intros Hf (HW & HH & Hco). split; [| split].
  - rewrite data_upd_length. exact HW.
  - intros i col. unfold upd. destruct (in_nat_range p); simpl; [| apply HH].
    rewrite list_lookup_alter. destruct (decide (Z.to_nat p.1 = i)) as [<-|]; [| apply HH].
    destruct (data g !! Z.to_nat p.1) as [col0|] eqn:E; simpl; [| intros [=]].
    intros [= <-]. rewrite length_alter. eapply HH, E.
  - intros q c. rewrite cell_at_upd. destruct (decide (p = q)) as [->|]; [| apply Hco].
    destruct (cell_at g q) as [c0|] eqn:E; simpl; [| intros [=]].
    intros [= <-]. destruct (Hf c0) as [-> ->]. apply Hco, E.
Qed.

Lemma gshape_ext W lens lens' g :
  (forall i, (i < W)%nat -> lens i = lens' i) -> gshape W lens g -> gshape W lens' g.
Proof.
  intros He (HW & HH & Hco). split; [exact HW | split; [| exact Hco]].
  intros i col Hcol. rewrite <- He; [eapply HH, Hcol |].
  rewrite <- HW. eapply lookup_lt_Some, Hcol.
Qed.

Lemma gshape_is_cell W lens g p :
  gshape W lens g ->
  (is_cell g p <->
   0 <= p.1 < Z.of_nat W /\ 0 <= p.2 < Z.of_nat (lens (Z.to_nat p.1))).
Proof.
  intros (HW & HH & _). unfold is_cell. split.
  - intros [c Hc]. apply cell_at_Some in Hc as (H1 & H2 & col & Hcol & Hc).
    pose proof (lookup_lt_Some _ _ _ Hcol). pose proof (lookup_lt_Some _ _ _ Hc).
    apply HH in Hcol. lia.
  - intros [H1 H2].
    destruct (lookup_lt_is_Some_2 (data g) (Z.to_nat p.1)) as [col Hcol]; [lia |].
    destruct (lookup_lt_is_Some_2 col (Z.to_nat p.2)) as [c Hc];
      [rewrite (HH _ _ Hcol); lia |].
    exists c. apply cell_at_Some. split; [lia | split; [lia | eauto]].
Qed.

Lemma gshape_at W lens g x y :
  gshape W lens g -> 0 <= x < Z.of_nat W -> 0 <= y < Z.of_nat (lens (Z.to_nat x)) ->
  at_ g x y = Ok (x, y).
Proof.
  intros Hs Hx Hy. unfold at_.
  destruct (proj2 (gshape_is_cell W lens g (x, y) Hs)) as [c Hc]; [simpl; lia |].
  rewrite Hc. destruct Hs as (_ & _ & Hco). apply Hco in Hc. congruence.
Qed.

Lemma shape_upd W H g p f :
  (forall c, cell_x (f c) = cell_x c /\ cell_y (f c) = cell_y c) ->
  shape W H g -> shape W H (upd g p f).
Proof. apply gshape_upd. Qed.

Lemma shape_is_cell W H g p :
  shape W H g ->
  (is_cell g p <-> 0 <= p.1 < Z.of_nat W /\ 0 <= p.2 < Z.of_nat H).
Proof. intros Hs. apply (gshape_is_cell W (fun _ => H) g p Hs). Qed.

Lemma shape_at W H g x y :
  shape W H g -> 0 <= x < Z.of_nat W -> 0 <= y < Z.of_nat H ->
  at_ g x y = Ok (x, y).
Proof. intros Hs. apply (gshape_at W (fun _ => H) g x y Hs). Qed.

Lemma shape_Width W H g : shape W H g -> Z.of_nat W < 2 ^ 32 -> Width g = Z.of_nat W.
Proof.
  intros (HW & _) Hlt. unfold Width. rewrite HW. apply u32_small. unfold is_u32. lia.
Qed.

Lemma shape_Height W H g :
  shape W H g -> (0 < W)%nat -> Z.of_nat H < 2 ^ 32 -> Height g = Z.of_nat H.
Proof.
  intros (HW & HH & _) Hpos Hlt. unfold Height.
  destruct (data g) as [|col l] eqn:E; [simpl in HW; lia |].
  rewrite (HH O col) by reflexivity.
  apply u32_small. unfold is_u32. lia.
Qed.

(** *** Connect and Disconnect *)

Lemma conn_insert_coords q c :
  cell_x (conn_insert q c) = cell_x c /\ cell_y (conn_insert q c) = cell_y c.
Proof. split; reflexivity. Qed.

Lemma conn_erase_coords q c :
  cell_x (conn_erase q c) = cell_x c /\ cell_y (conn_erase q c) = cell_y c.
Proof. split; reflexivity. Qed.

Lemma set_info_coords (i : I) c :
  cell_x (set_info i c) = cell_x c /\ cell_y (set_info i c) = cell_y c.
Proof. split; reflexivity. Qed.

Lemma gshape_Connect W lens g a b : gshape W lens g -> gshape W lens (Connect g a b).
Proof.
  intros Hs. unfold Connect.
  apply gshape_upd; [apply conn_insert_coords |].
  apply gshape_upd; [apply conn_insert_coords | exact Hs].
Qed.

Lemma gshape_Disconnect W lens g a b :
  gshape W lens g -> gshape W lens (Disconnect g a b).
Proof.
  intros Hs. unfold Disconnect.
  apply gshape_upd; [apply conn_erase_coords |].
  apply gshape_upd; [apply conn_erase_coords | exact Hs].
Qed.

Lemma is_cell_Connect g a b q : is_cell (Connect g a b) q <-> is_cell g q.
Proof. unfold Connect. rewrite !is_cell_upd. reflexivity. Qed.

Lemma is_cell_Disconnect g a b q : is_cell (Disconnect g a b) q <-> is_cell g q.
Proof. unfold Disconnect. rewrite !is_cell_upd. reflexivity. Qed.

Lemma elem_of_connected_Connect g a b q r :
  r ∈ connected_of (Connect g a b) q <->
  r ∈ connected_of g q \/ (is_cell g q /\ ((q = a /\ r = b) \/ (q = b /\ r = a))).
Proof.
  unfold Connect. rewrite !connected_of_insert.
  repeat case_decide; rewrite ?elem_of_union, ?elem_of_singleton, ?is_cell_upd in *;
    naive_solver.
Qed.

Lemma elem_of_connected_Disconnect g a b q r :
  r ∈ connected_of (Disconnect g a b) q <->
  r ∈ connected_of g q /\ ~ (q = a /\ r = b) /\ ~ (q = b /\ r = a).
Proof.
  unfold Disconnect. rewrite !connected_of_erase.
  repeat case_decide; rewrite ?elem_of_difference, ?elem_of_singleton; naive_solver.
Qed.

Lemma Symmetric_Connect g a b : Symmetric g -> Symmetric (Connect g a b).
Proof.
  intros Hs p q Hp Hq. rewrite !elem_of_connected_Connect.
  rewrite is_cell_Connect in Hp, Hq. specialize (Hs p q Hp Hq). naive_solver.
Qed.

Lemma Symmetric_Disconnect g a b : Symmetric g -> Symmetric (Disconnect g a b).
Proof.
  intros Hs p q Hp Hq. rewrite !elem_of_connected_Disconnect.
  rewrite is_cell_Disconnect in Hp, Hq. specialize (Hs p q Hp Hq). naive_solver.
Qed.

Lemma adjacent_sym a b : adjacent a b -> adjacent b a.
Proof. unfold adjacent. lia. Qed.

Lemma AdjacentOnly_Connect g a b :
  adjacent a b -> AdjacentOnly g -> AdjacentOnly (Connect g a b).
Proof.
  intros Hab Hg p q. rewrite elem_of_connected_Connect.
  intros [Hq | (_ & [[-> ->] | [-> ->]])]; auto using adjacent_sym.
Qed.

Lemma AdjacentOnly_Disconnect g a b : AdjacentOnly g -> AdjacentOnly (Disconnect g a b).
Proof. intros Hg p q. rewrite elem_of_connected_Disconnect. intros [Hq _]. auto. Qed.

Lemma AdjacentOnly_upd g p f :
  (forall c, connectedCells (f c) = connectedCells c) ->
  AdjacentOnly g -> AdjacentOnly (upd g p f).
Proof. intros Hf Hg a b. rewrite connected_of_upd by exact Hf. apply Hg. Qed.

Lemma Symmetric_upd g p f :
  (forall c, connectedCells (f c) = connectedCells c) ->
  Symmetric g -> Symmetric (upd g p f).
Proof.
  intros Hf Hg a b. rewrite !is_cell_upd, !connected_of_upd by exact Hf. apply Hg.
Qed.

End GridFacts.

(** ** Construction of the grid *)

Section InitFacts.
Context {I : Type} `{!DefaultCtor I}.
Implicit Types (g : Grid I) (p q : Point) (c : Cell I).

Lemma cell_at_push_back g x c q col :
  0 <= x -> data g !! Z.to_nat x = Some col ->
  cell_at (push_back_cell g x c) q =
  if decide (q = (x, Z.of_nat (length col))) then Some c else cell_at g q.
Proof.
  intros Hx Hcol. unfold cell_at, push_back_cell, in_nat_range. simpl.
  destruct (0 <=? q.1) eqn:E1; destruct (0 <=? q.2) eqn:E2; simpl;
    try (rewrite decide_False; [reflexivity |];
         intros ->; simpl in *;
         try apply Z.leb_gt in E1; try apply Z.leb_gt in E2; lia).
  apply Z.leb_le in E1, E2.
  rewrite list_lookup_alter.
  destruct (decide (Z.to_nat x = Z.to_nat q.1)) as [Heq|Hne].
  - rewrite <- Heq, Hcol. simpl.
    destruct (decide (q = (x, Z.of_nat (length col)))) as [->|Hq].
    + simpl. rewrite Nat2Z.id. rewrite lookup_app_r by lia.
      rewrite Nat.sub_diag. reflexivity.
    + destruct (decide (Z.to_nat q.2 < length col)%nat) as [Hlt|Hge].
      * rewrite lookup_app_l by exact Hlt. reflexivity.
      * rewrite !lookup_ge_None_2; [reflexivity | lia |].
        rewrite length_app. simpl.
        assert (Z.to_nat q.2 <> length col); [| lia].
        intros Hl. apply Hq. destruct q as [q1 q2]. simpl in *. f_equal; lia.
  - rewrite decide_False; [reflexivity |]. intros ->. simpl in *. lia.
Qed.

Lemma init_lens_done H x i : init_lens H x (Z.of_nat H) i = init_lens H (x + 1) 0 i.
Proof.
  unfold init_lens.
  destruct (Z.of_nat i <? x) eqn:E1; destruct (Z.of_nat i <? x + 1) eqn:E2;
    destruct (Z.of_nat i =? x) eqn:E3; destruct (Z.of_nat i =? x + 1) eqn:E4;
    try reflexivity; try lia.
Qed.

Lemma InitInv_push_back isc W H x y g :
  0 <= x < Z.of_nat W -> 0 <= y < Z.of_nat H ->
  InitInv isc W H x y g ->
  InitInv isc W H x (y + 1) (push_back_cell g x (new_cell x y)).
Proof.
  intros Hx Hy (Hsh & Hsym & Hcl & Hadj & Hemp & Hinf).
  pose proof Hsh as (HW & HH & Hco).
  destruct (lookup_lt_is_Some_2 (data g) (Z.to_nat x)) as [col Hcol]; [lia |].
  assert (Hlen : Z.of_nat (length col) = y).
  { rewrite (HH _ _ Hcol). unfold init_lens.
    rewrite Z2Nat.id by lia. rewrite Z.ltb_irrefl, Z.eqb_refl. lia. }
  assert (Hat : forall q, cell_at (push_back_cell g x (new_cell x y)) q =
                  if decide (q = (x, y)) then Some (new_cell x y) else cell_at g q).
  { intros q. rewrite (cell_at_push_back g x _ q col) by (lia || exact Hcol).
    rewrite Hlen. reflexivity. }
  assert (Hnew : ~ is_cell g (x, y)).
  { rewrite (gshape_is_cell _ _ _ _ Hsh). simpl. unfold init_lens.
    rewrite Z2Nat.id by lia. rewrite Z.ltb_irrefl, Z.eqb_refl. lia. }
  assert (Hconn : forall q, connected_of (push_back_cell g x (new_cell x y)) q =
                    connected_of g q).
  { intros q. unfold connected_of at 1. rewrite Hat.
    destruct (decide _) as [->|]; [| reflexivity].
    simpl. symmetry. apply not_cell_connected, Hnew. }
  assert (Hcell : forall q, is_cell (push_back_cell g x (new_cell x y)) q <->
                    is_cell g q \/ q = (x, y)).
  { intros q. unfold is_cell. rewrite Hat.
    destruct (decide _); [split; eauto | split; [auto | intros [|]; tauto]]. }
  split; [| split; [| split; [| split; [| split]]]].
  - split; [| split].
    + unfold push_back_cell. simpl. rewrite length_alter. exact HW.
    + intros i col'. unfold push_back_cell. simpl. rewrite list_lookup_alter.
      destruct (decide (Z.to_nat x = i)) as [<-|Hne].
      * rewrite Hcol. simpl. intros [= <-]. rewrite length_app. simpl.
        unfold init_lens. rewrite Z2Nat.id by lia.
        rewrite Z.ltb_irrefl, Z.eqb_refl. lia.
      * intros Hc. rewrite (HH _ _ Hc). unfold init_lens.
        destruct (Z.of_nat i <? x); [reflexivity |].
        destruct (Z.of_nat i =? x) eqn:E; [lia | reflexivity].
    + intros q c. rewrite Hat. destruct (decide _) as [->|]; [| apply Hco].
      intros [= <-]. reflexivity.
  - intros a b Ha Hb. rewrite !Hconn. apply Hcell in Ha, Hb.
    destruct Ha as [Ha | ->]; destruct Hb as [Hb | ->].
    + apply Hsym; assumption.
    + rewrite (not_cell_connected g (x, y) Hnew). split; [| set_solver].
      intros Hin. destruct Hnew. eapply Hcl, Hin.
    + rewrite (not_cell_connected g (x, y) Hnew). split; [set_solver |].
      intros Hin. destruct Hnew. eapply Hcl, Hin.
    + reflexivity.
  - intros a b. rewrite Hconn, Hcell. intros Hin. left. eapply Hcl, Hin.
  - intros a b. rewrite Hconn. apply Hadj.
  - intros He q. rewrite Hconn. apply Hemp, He.
  - intros q. unfold info_of. rewrite Hat.
    destruct (decide _); [reflexivity | apply Hinf].
Qed.

Lemma Closed_Connect g a b :
  is_cell g a -> is_cell g b -> Closed g -> Closed (Connect g a b).
Proof.
  intros Ha Hb Hcl p q. rewrite elem_of_connected_Connect, is_cell_Connect.
  intros [Hq | (_ & [[-> ->] | [-> ->]])]; eauto.
Qed.

Lemma Closed_Disconnect g a b : Closed g -> Closed (Disconnect g a b).
Proof.
  intros Hcl p q. rewrite elem_of_connected_Disconnect, is_cell_Disconnect.
  intros [Hq _]. eauto.
Qed.

Lemma info_of_upd_conn g p (f : Cell I -> Cell I) q :
  (forall c, info (f c) = info c) -> info_of (upd g p f) q = info_of g q.
Proof.
  intros Hf. unfold info_of. rewrite cell_at_upd.
  destruct (decide (p = q)); [| reflexivity].
  destruct (cell_at g q); simpl; [apply Hf | reflexivity].
Qed.

Lemma info_of_upd g p (f : Cell I -> Cell I) q :
  info_of (upd g p f) q =
  if decide (p = q /\ is_cell g q)
  then match cell_at g q with Some c => info (f c) | None => default_ctor end
  else info_of g q.
Proof.
  unfold info_of, is_cell. rewrite cell_at_upd.
  destruct (decide (p = q)) as [->|Hne].
  - destruct (cell_at g q) as [c|]; simpl.
    + rewrite decide_True; [reflexivity | split; eauto].
    + rewrite decide_False; [reflexivity | intros [_ [? [=]]]].
  - rewrite decide_False; [reflexivity | tauto].
Qed.

Lemma info_of_Connect g a b q : info_of (Connect g a b) q = info_of g q.
Proof. unfold Connect. rewrite !info_of_upd_conn; reflexivity. Qed.

Lemma info_of_Disconnect g a b q : info_of (Disconnect g a b) q = info_of g q.
Proof. unfold Disconnect. rewrite !info_of_upd_conn; reflexivity. Qed.

Lemma InitInv_Connect W H x y g a b :
  is_cell g a -> is_cell g b -> adjacent a b ->
  InitInv true W H x y g -> InitInv true W H x y (Connect g a b).
Proof.
  intros Ha Hb Hab (Hsh & Hsym & Hcl & Hadj & Hemp & Hinf).
  split; [| split; [| split; [| split; [| split]]]].
  - apply gshape_Connect, Hsh.
  - apply Symmetric_Connect, Hsym.
  - apply Closed_Connect; assumption.
  - apply AdjacentOnly_Connect; assumption.
  - intros [=].
  - intros q. rewrite info_of_Connect. apply Hinf.
Qed.

Lemma Init_cell_post isc W H x y g :
  0 <= x < Z.of_nat W -> 0 <= y < Z.of_nat H ->
  InitInv isc W H x y g ->
  post (InitInv isc W H x (y + 1)) no_fault (Init_cell isc x y g).
Proof.
  intros Hx Hy Hinv. unfold Init_cell.
  pose proof (InitInv_push_back isc W H x y g Hx Hy Hinv) as Hinv1.
  set (g1 := push_back_cell g x (new_cell x y)) in *.
  assert (Hlens : forall i, 0 <= i <= x -> 0 <= y < Z.of_nat (init_lens H x (y + 1) (Z.to_nat i))).
  { intros i Hi. unfold init_lens. rewrite Z2Nat.id by lia.
    destruct (i <? x) eqn:E; [lia |].
    assert (i = x) as -> by lia. rewrite Z.eqb_refl. lia. }
  assert (Hcellat : forall g' i j, InitInv isc W H x (y + 1) g' ->
            0 <= i <= x -> 0 <= j <= y -> (i = x \/ j = y) ->
            at_ g' i j = Ok (i, j) /\ is_cell g' (i, j)).
  { intros g' i j (Hsh & _) Hi Hj Hor.
    assert (0 <= j < Z.of_nat (init_lens H x (y + 1) (Z.to_nat i))).
    { unfold init_lens. rewrite Z2Nat.id by lia.
      destruct (i <? x) eqn:E; [lia |].
      assert (i = x) as -> by lia. rewrite Z.eqb_refl. lia. }
    split.
    - eapply gshape_at; [exact Hsh | lia | assumption].
    - rewrite (gshape_is_cell _ _ _ _ Hsh). simpl. lia. }
  apply post_bind.
  assert (Hstep1 : post (InitInv isc W H x (y + 1)) no_fault
            (if isc && (0 <? x)
             then a ← at_ g1 x y; b ← at_ g1 (x - 1) y; Ok (Connect g1 a b)
             else Ok g1)).
  { destruct isc; simpl; [| exact Hinv1].
    destruct (0 <? x) eqn:E; simpl; [| exact Hinv1].
    destruct (Hcellat g1 x y Hinv1) as [-> Hc1]; [lia | lia | auto |].
    destruct (Hcellat g1 (x - 1) y Hinv1) as [-> Hc2]; [lia | lia | auto |].
    simpl. apply InitInv_Connect; [assumption | assumption | | exact Hinv1].
    unfold adjacent. simpl. lia. }
  eapply post_mono; [| intros e He; exact He | exact Hstep1].
  intros g2 Hinv2. simpl.
  destruct isc; simpl; [| exact Hinv2].
  destruct (0 <? y) eqn:E; simpl; [| exact Hinv2].
  destruct (Hcellat g2 x y Hinv2) as [-> Hc1]; [lia | lia | auto |].
  destruct (Hcellat g2 x (y - 1) Hinv2) as [-> Hc2]; [lia | lia | auto |].
  simpl. apply InitInv_Connect; [assumption | assumption | | exact Hinv2].
  unfold adjacent. simpl. lia.
Qed.

Lemma InitInv_start isc W H :
  InitInv (I := I) isc W H 0 0 (mkGrid (replicate W [])).
Proof.
  assert (Hno : forall p, cell_at (I := I) (mkGrid (replicate W [])) p = None).
  { intros p. destruct (cell_at _ p) eqn:E; [| reflexivity].
    apply cell_at_Some in E as (_ & _ & col & Hcol & Hc). simpl in Hcol.
    apply lookup_replicate in Hcol as [-> _]. discriminate. }
  assert (Hcn : forall p, connected_of (I := I) (mkGrid (replicate W [])) p = ∅).
  { intros p. unfold connected_of. rewrite Hno. reflexivity. }
  split; [| split; [| split; [| split; [| split]]]].
  - split; [| split].
    + simpl. apply length_replicate.
    + intros i col. simpl. intros [-> Hi]%lookup_replicate. simpl.
      unfold init_lens. destruct (Z.of_nat i <? 0) eqn:E; [lia |].
      destruct (Z.of_nat i =? 0); reflexivity.
    + intros p c. rewrite Hno. intros [=].
  - intros a b [c Hc]. rewrite Hno in Hc. discriminate.
  - intros a b. rewrite Hcn. set_solver.
  - intros a b. rewrite Hcn. set_solver.
  - intros _. exact Hcn.
  - intros p. unfold info_of. rewrite Hno. reflexivity.
Qed.

Lemma Init_post isc width height :
  post (fun g => InitInv isc (Z.to_nat width) (Z.to_nat height)
                   (Z.of_nat (Z.to_nat width)) 0 g)
       no_fault (Init (I := I) width height isc).
Proof.
  unfold Init.
  set (W := Z.to_nat width). set (H := Z.to_nat height).
  apply (for_post (fun x g => InitInv isc W H x 0 g) no_fault W 0).
  - apply InitInv_start.
  - intros x g Hx Hinv.
    pose proof (for_post (fun y g => InitInv isc W H x y g) no_fault H 0
                  (Init_cell isc x) g Hinv) as Hin.
    eapply post_mono; [| intros e He; exact He | apply Hin].
    + simpl. intros g' (Hsh & Hrest). split; [| exact Hrest].
      eapply gshape_ext; [| exact Hsh]. intros i _. apply init_lens_done.
    + intros y g' Hy Hinv'. apply Init_cell_post; [lia | lia | exact Hinv'].
Qed.

Lemma init_lens_full H W i : (i < W)%nat -> init_lens H (Z.of_nat W) 0 i = H.
Proof.
  intros Hi. unfold init_lens. destruct (Z.of_nat i <? Z.of_nat W) eqn:E; [reflexivity | lia].
Qed.

(** [Init] always returns, and what it returns is a well-shaped grid. *)
Lemma Init_spec isc width height :
  exists g, Init (I := I) width height isc = Ok g /\
    shape (Z.to_nat width) (Z.to_nat height) g /\
    Symmetric g /\ Closed g /\ AdjacentOnly g /\
    (isc = false -> forall p, connected_of g p = ∅) /\
    (forall p, info_of g p = default_ctor).
Proof.
  destruct (post_ok _ _ (Init_post isc width height)) as (g & Hg & Hsh & Hrest).
  exists g. split; [exact Hg |]. split; [| exact Hrest].
  eapply gshape_ext; [| exact Hsh]. intros i Hi. apply init_lens_full, Hi.
Qed.

End InitFacts.

(** ** Generators: common facts *)

Arguments MT19937.next : simpl never.
Arguments MT19937.seed : simpl never.
Arguments Connect : simpl never.
Arguments Disconnect : simpl never.
Arguments upd : simpl never.
Arguments at_ : simpl never.
Arguments u32 : simpl never.

Lemma bind_Ok {A B : Type} (a : A) (f : A -> result B) : (Ok a ≫= f) = f a.
Proof. reflexivity. Qed.

Lemma vec_at_mod {A : Type} (l : list A) (r : Z) :
  l <> [] -> exists a, vec_at l (r mod Z.of_nat (length l)) = Ok a /\ a ∈ l.
Proof.
  intros Hne. assert (0 < length l)%nat by (destruct l; simpl; [congruence | lia]).
  pose proof (Z.mod_pos_bound r (Z.of_nat (length l))) as Hb.
  destruct (lookup_lt_is_Some_2 l (Z.to_nat (r mod Z.of_nat (length l)))) as [a Ha]; [lia |].
  exists a. unfold vec_at.
  destruct (0 <=? r mod Z.of_nat (length l)) eqn:E; [| apply Z.leb_gt in E; lia].
  rewrite Ha. split; [reflexivity | eapply list_elem_of_lookup_2, Ha].
Qed.

Section MazeFacts.
Context {I : Type}.
Implicit Types (g : Grid I) (p q : Point).

Lemma MazeInv_Connect W H g a b :
  is_cell g a -> is_cell g b -> adjacent a b ->
  MazeInv W H g -> MazeInv W H (Connect g a b).
Proof.
  intros Ha Hb Hab (Hsh & Hsym & Hcl & Hadj).
  split; [apply gshape_Connect, Hsh |].
  split; [apply Symmetric_Connect, Hsym |].
  split; [apply Closed_Connect; assumption | apply AdjacentOnly_Connect; assumption].
Qed.

Lemma MazeInv_Disconnect W H g a b : MazeInv W H g -> MazeInv W H (Disconnect g a b).
Proof.
  intros (Hsh & Hsym & Hcl & Hadj).
  split; [apply gshape_Disconnect, Hsh |].
  split; [apply Symmetric_Disconnect, Hsym |].
  split; [apply Closed_Disconnect, Hcl | apply AdjacentOnly_Disconnect, Hadj].
Qed.

Lemma MazeInv_upd_info W H g p (i : Cell I -> I) :
  MazeInv W H g -> MazeInv W H (upd g p (fun c => set_info (i c) c)).
Proof.
  intros (Hsh & Hsym & Hcl & Hadj).
  split; [apply shape_upd; [intros c; apply set_info_coords | exact Hsh] |].
  split; [apply Symmetric_upd; [reflexivity | exact Hsym] |].
  split; [| apply AdjacentOnly_upd; [reflexivity | exact Hadj]].
  intros a b. rewrite connected_of_upd by reflexivity. rewrite is_cell_upd. apply Hcl.
Qed.

Lemma MazeInv_at W H g x y :
  MazeInv W H g -> 0 <= x < Z.of_nat W -> 0 <= y < Z.of_nat H ->
  at_ g x y = Ok (x, y) /\ is_cell g (x, y).
Proof.
  intros (Hsh & _) Hx Hy. split; [eapply shape_at; eassumption |].
  rewrite (shape_is_cell _ _ _ _ Hsh). simpl. lia.
Qed.

Lemma MazeInv_Width W H g :
  MazeInv W H g -> Z.of_nat W < 2 ^ 32 -> Width g = Z.of_nat W.
Proof. intros (Hsh & _). eapply shape_Width, Hsh. Qed.

Lemma MazeInv_Height W H g :
  MazeInv W H g -> (0 < W)%nat -> Z.of_nat H < 2 ^ 32 -> Height g = Z.of_nat H.
Proof. intros (Hsh & _). eapply shape_Height, Hsh. Qed.

End MazeFacts.

Lemma Init_MazeInv {I : Type} `{!DefaultCtor I} isc width height :
  exists g, Init (I := I) width height isc = Ok g /\
    MazeInv (Z.to_nat width) (Z.to_nat height) g /\
    (isc = false -> forall p, connected_of g p = ∅) /\
    (forall p, info_of g p = default_ctor).
Proof.
  destruct (Init_spec (I := I) isc width height) as (g & Hg & Hsh & Hsym & Hcl & Hadj & He & Hi).
  exists g. split; [exact Hg |].
  split; [| split; assumption].
  split; [exact Hsh | split; [exact Hsym | split; assumption]].
Qed.

(** ** Binary-Tree generator *)

Module BinaryTreeFacts.
Import BinaryTree.

Lemma bt_GetNeighbours_post W H (maze : Maze) x y :
  MazeInv W H maze -> Z.of_nat W < 2 ^ 32 -> Z.of_nat H < 2 ^ 32 ->
  0 <= x < Z.of_nat W -> 0 <= y < Z.of_nat H ->
  post (fun ns => forall n, n ∈ ns -> is_cell maze n /\ adjacent (x, y) n)
       no_fault (GetNeighbours maze (x, y)).
Proof.
  intros Hinv HW HH Hx Hy. unfold GetNeighbours. simpl.
  apply post_bind.
  assert (Hw : post (fun ns => forall n, n ∈ ns -> is_cell maze n /\ adjacent (x, y) n)
                 no_fault
                 (if 0 <? x then c ← at_ maze (u32 (x - 1)) y; Ok [c] else Ok [])).
  { destruct (0 <? x) eqn:E; simpl; [| intros n Hn; inversion Hn].
    apply Z.ltb_lt in E. rewrite u32_small by (unfold is_u32; lia).
    destruct (MazeInv_at W H maze (x - 1) y Hinv) as [-> Hc]; [lia | lia |].
    simpl. intros n ->%list_elem_of_singleton. split; [exact Hc |].
    unfold adjacent. simpl. lia. }
  eapply post_mono; [| intros e He; exact He | exact Hw].
  intros ns Hns. simpl.
  destruct (0 <? y) eqn:E; simpl; [| exact Hns].
  apply Z.ltb_lt in E. rewrite u32_small by (unfold is_u32; lia).
  destruct (MazeInv_at W H maze x (y - 1) Hinv) as [-> Hc]; [lia | lia |].
  simpl. intros n [Hn | ->%list_elem_of_singleton]%elem_of_app; [auto |].
  split; [exact Hc |]. unfold adjacent. simpl. lia.
Qed.

Lemma bt_visit_post W H y x (st : Maze * MT19937.state) :
  Z.of_nat W < 2 ^ 32 -> Z.of_nat H < 2 ^ 32 ->
  0 <= x < Z.of_nat W -> 0 <= y < Z.of_nat H ->
  MazeInv W H st.1 ->
  post (fun st' => MazeInv W H st'.1) no_fault (visit y x st).
Proof.
  intros HW HH Hx Hy Hinv. destruct st as [maze mt]. simpl in Hinv. unfold visit.
  destruct (MazeInv_at W H maze x y Hinv Hx Hy) as [-> Hc]. rewrite bind_Ok.
  apply post_bind.
  eapply post_mono; [| intros e He; exact He
                     | apply (bt_GetNeighbours_post W H maze x y); assumption].
  intros ns Hns. simpl.
  destruct ns as [|n0 ns']; [exact Hinv |].
  destruct (MT19937.next mt) as [r mt'].
  destruct (vec_at_mod (n0 :: ns') r) as (n & -> & Hn); [discriminate |].
  rewrite bind_Ok. simpl.
  destruct (Hns n Hn) as [Hcn Hadj].
  apply MazeInv_Connect; assumption.
Qed.

Lemma bt_generate_absent width height seed :
  width < 1 \/ height < 1 -> generate width height seed = Ok None.
Proof.
  intros Hbad. unfold generate.
  destruct (width <? 1) eqn:E1; [reflexivity |].
  destruct (height <? 1) eqn:E2; [reflexivity |]. lia.
Qed.

Lemma bt_generate_spec width height seed :
  is_u32 width -> is_u32 height -> 1 <= width -> 1 <= height ->
  exists maze, generate width height seed = Ok (Some maze) /\
    MazeInv (Z.to_nat width) (Z.to_nat height) maze.
Proof.
  intros Hw Hh Hw1 Hh1. unfold generate.
  destruct (width <? 1) eqn:E1; [lia |].
  destruct (height <? 1) eqn:E2; [lia |]. simpl.
  destruct (Init_MazeInv (I := CellInfoBase) false width height) as (g & -> & Hinv & _).
  rewrite bind_Ok.
  set (W := Z.to_nat width) in *. set (H := Z.to_nat height) in *.
  unfold is_u32 in *.
  apply (bind_elim _ _ (fun st => MazeInv W H st.1)
           (fun r => exists maze, r = Ok (Some maze) /\ MazeInv W H maze));
    [| intros st Hst; eauto].
  eapply post_mono;
    [| intros e He; exact He
     | apply (for_post (fun _ st => MazeInv W H st.1) no_fault H 0)].
  - intros st Hst. exact Hst.
  - exact Hinv.
  - intros y st Hy Hst.
    apply (for_post (fun _ st => MazeInv W H st.1) no_fault W 0); [exact Hst |].
    intros x st' Hx Hst'. apply (bt_visit_post W H); try assumption; lia.
Qed.

End BinaryTreeFacts.

(** ** Sets of cell pointers *)

Section PtrSetFacts.
Variable addr : CellRef -> Z.

Lemma elem_of_ptrset_insert p q s :
  q ∈ ptrset_insert addr p s -> q = p \/ q ∈ s.
Proof.
  induction s as [|a s IH]; simpl.
  - intros ->%list_elem_of_singleton. auto.
  - destruct (addr p <? addr a).
    + intros [-> | Hq]%elem_of_cons; auto.
    + destruct (addr a <? addr p); [| auto].
      intros [-> | Hq]%elem_of_cons; [right; left |].
      destruct (IH Hq) as [-> | Hs]; [auto | right; right; exact Hs].
Qed.

Lemma ptrset_insert_nonempty p s : ptrset_insert addr p s <> [].
Proof.
  destruct s as [|a s]; simpl; [discriminate |].
  destruct (addr p <? addr a); [discriminate |].
  destruct (addr a <? addr p); discriminate.
Qed.

Lemma elem_of_ptrset_insert_range ps q s :
  q ∈ ptrset_insert_range addr ps s -> q ∈ ps \/ q ∈ s.
Proof.
  unfold ptrset_insert_range. revert s. induction ps as [|p ps IH]; simpl; intros s.
  - auto.
  - intros Hq. destruct (IH _ Hq) as [Hps | Hs]; [left; right; exact Hps |].
    destruct (elem_of_ptrset_insert _ _ _ Hs) as [-> | Hs']; [left; left | right; exact Hs'].
Qed.

Lemma elem_of_ptrset_erase p q s :
  q ∈ ptrset_erase addr p s -> q ∈ s /\ q <> p.
Proof.
  unfold ptrset_erase. rewrite list_elem_of_filter. intros [Hne Hq].
  split; [exact Hq | intros ->; apply Hne; reflexivity].
Qed.

End PtrSetFacts.

(** ** Sidewinder generator *)

Module SidewinderFacts.
Import Sidewinder.

Section WithHeap.
Variable addr : CellRef -> Z.

Lemma sw_visit_post W H y x st :
  Z.of_nat W < 2 ^ 32 -> Z.of_nat H < 2 ^ 32 ->
  0 <= x < Z.of_nat W -> 0 <= y < Z.of_nat H ->
  RunInv W H st ->
  post (RunInv W H) no_fault (visit addr (Z.of_nat W) y x st).
Proof.
  intros HW HH Hx Hy [Hinv Hrun]. destruct st as [[maze mt] runSet].
  simpl in Hinv, Hrun. unfold visit.
  destruct (MazeInv_at W H maze x y Hinv Hx Hy) as [Hat Hc].
  apply post_bind.
  assert (Hrs : post (fun rs => (forall c, c ∈ rs -> is_cell maze c /\ 0 < c.2) /\
                               (0 < y -> rs <> []))
                  no_fault
                  (if 0 <? y then c ← at_ maze x y; Ok (ptrset_insert addr c runSet)
                   else Ok runSet)).
  { destruct (0 <? y) eqn:E; simpl.
    - apply Z.ltb_lt in E. rewrite Hat, bind_Ok. simpl. split.
      + intros c [-> | Hin]%elem_of_ptrset_insert; [split; [exact Hc | exact E] | auto].
      + intros _. apply ptrset_insert_nonempty.
    - apply Z.ltb_ge in E. split; [exact Hrun | lia]. }
  eapply post_mono; [| intros e He; exact He | exact Hrs].
  clear Hrs. intros rs [Hrs Hne]. simpl.
  assert (Hnorth : forall mt', 0 < y ->
            post (RunInv W H) no_fault
              (let '(r, mt0) := MT19937.next mt' in
               cell ← vec_at rs (r mod Z.of_nat (length rs));
               north ← at_ maze cell.1 (u32 (cell.2 - 1));
               Ok (Connect maze cell north, mt0, []))).
  { intros mt' Hy0. destruct (MT19937.next mt') as [r mt0].
    destruct (vec_at_mod rs r (Hne Hy0)) as (c & -> & Hcin). rewrite bind_Ok.
    destruct (Hrs c Hcin) as [Hcc Hc2].
    pose proof (proj1 (shape_is_cell _ _ _ _ (proj1 Hinv)) Hcc) as [Hc1r Hc2r].
    rewrite u32_small by (unfold is_u32; lia).
    destruct (MazeInv_at W H maze c.1 (c.2 - 1) Hinv) as [-> Hn]; [lia | lia |].
    rewrite bind_Ok. simpl. split; simpl.
    - apply MazeInv_Connect; [exact Hcc | exact Hn | | exact Hinv].
      unfold adjacent. simpl. lia.
    - intros c' Hc'. inversion Hc'. }
  destruct (u32 (x + 1) <? Z.of_nat W) eqn:Ee.
  - apply Z.ltb_lt in Ee.
    assert (Hx1 : u32 (x + 1) = x + 1) by (apply u32_small; unfold is_u32; lia).
    rewrite Hx1 in Ee.
    destruct (MT19937.next mt) as [r mt'].
    destruct ((r mod 2 =? 0) || (y =? 0)) eqn:Eeast.
    + rewrite Hat, bind_Ok, Hx1.
      destruct (MazeInv_at W H maze (x + 1) y Hinv) as [-> Hc']; [lia | lia |].
      rewrite bind_Ok. simpl. split; simpl.
      * apply MazeInv_Connect; [exact Hc | exact Hc' | | exact Hinv].
        unfold adjacent. simpl. lia.
      * intros c Hcin. rewrite is_cell_Connect. apply Hrs, Hcin.
    + destruct (0 <? y) eqn:Ey.
      * apply Hnorth. apply Z.ltb_lt, Ey.
      * simpl. split; [exact Hinv | exact Hrs].
  - destruct (0 <? y) eqn:Ey.
    + apply Hnorth. apply Z.ltb_lt, Ey.
    + simpl. split; [exact Hinv | exact Hrs].
Qed.

Lemma sw_row_post W H y st :
  Z.of_nat W < 2 ^ 32 -> Z.of_nat H < 2 ^ 32 -> 0 <= y < Z.of_nat H ->
  RunInv W H st ->
  post (RunInv W H) no_fault (row addr (Z.of_nat W) y st).
Proof.
  intros HW HH Hy Hinv. unfold row. rewrite Nat2Z.id. apply post_bind.
  eapply post_mono;
    [| intros e He; exact He
     | apply (for_post (fun _ st => RunInv W H st) no_fault W 0
                (visit addr (Z.of_nat W) y) st Hinv)].
  - intros st' [Hm _]. simpl. split; [exact Hm |]. simpl. intros c Hc. inversion Hc.
  - intros x st' Hx Hst'. apply sw_visit_post; try assumption; lia.
Qed.

Lemma sw_generate_absent width height seed :
  width < 1 \/ height < 1 -> generate addr width height seed = Ok None.
Proof.
  intros Hbad. unfold generate.
  destruct (width <? 1) eqn:E1; [reflexivity |].
  destruct (height <? 1) eqn:E2; [reflexivity |]. lia.
Qed.

Lemma sw_generate_spec width height seed :
  is_u32 width -> is_u32 height -> 1 <= width -> 1 <= height ->
  exists maze, generate addr width height seed = Ok (Some maze) /\
    MazeInv (Z.to_nat width) (Z.to_nat height) maze.
Proof.
  intros Hw Hh Hw1 Hh1. unfold generate.
  destruct (width <? 1) eqn:E1; [lia |].
  destruct (height <? 1) eqn:E2; [lia |]. simpl.
  destruct (Init_MazeInv (I := CellInfoBase) false width height) as (g & -> & Hinv & _).
  rewrite bind_Ok.
  set (W := Z.to_nat width) in *. set (H := Z.to_nat height) in *.
  unfold is_u32 in *.
  replace width with (Z.of_nat W) by (unfold W; lia).
  apply (bind_elim _ _ (RunInv W H)
           (fun r => exists maze, r = Ok (Some maze) /\ MazeInv W H maze));
    [| intros st [Hst _]; eauto].
  apply (for_post (fun _ st => RunInv W H st) no_fault H 0).
  - split; [exact Hinv |]. simpl. intros c Hc. inversion Hc.
  - intros y st Hy Hst. apply sw_row_post; try assumption; lia.
Qed.

End WithHeap.
End SidewinderFacts.

(** ** Walls: [DisconnectRow] and [DisconnectCol] *)

Section WallFacts.
Context {I : Type}.
Implicit Types (g : Grid I).

Lemma DisconnectRow_post W H g origin idx width pathIdx :
  MazeInv W H g -> Z.of_nat W < 2 ^ 32 -> Z.of_nat H < 2 ^ 32 ->
  0 <= origin.1 -> 0 <= origin.2 -> 0 <= idx -> 0 <= width ->
  origin.1 + width <= Z.of_nat W -> origin.2 + idx + 1 < Z.of_nat H ->
  post (MazeInv W H) no_fault (DisconnectRow g origin idx width pathIdx).
Proof.
  intros Hinv HW HH Ho1 Ho2 Hidx Hwd Hfit1 Hfit2. unfold DisconnectRow.
  pose proof (u8_le idx Hidx). pose proof (u8_range idx).
  pose proof (u8_le width Hwd). pose proof (u8_range width).
  eapply post_mono;
    [| intros e He; exact He
     | apply (for_post (fun _ g => MazeInv W H g) no_fault _ 0 _ g Hinv)].
  - auto.
  - intros x g' Hx Hg'.
    destruct (x =? u8 pathIdx); [exact Hg' |].
    rewrite !u32_small by (unfold is_u32; lia).
    destruct (MazeInv_at W H g' (origin.1 + x) (origin.2 + u8 idx) Hg') as [-> _]; [lia | lia |].
    rewrite bind_Ok.
    destruct (MazeInv_at W H g' (origin.1 + x) (origin.2 + u8 idx + 1) Hg') as [-> _]; [lia | lia |].
    rewrite bind_Ok. simpl. apply MazeInv_Disconnect, Hg'.
Qed.

Lemma DisconnectCol_post W H g origin idx height pathIdx :
  MazeInv W H g -> Z.of_nat W < 2 ^ 32 -> Z.of_nat H < 2 ^ 32 ->
  0 <= origin.1 -> 0 <= origin.2 -> 0 <= idx -> 0 <= height ->
  origin.2 + height <= Z.of_nat H -> origin.1 + idx + 1 < Z.of_nat W ->
  post (MazeInv W H) no_fault (DisconnectCol g origin idx height pathIdx).
Proof.
  intros Hinv HW HH Ho1 Ho2 Hidx Hht Hfit1 Hfit2. unfold DisconnectCol.
  pose proof (u8_le idx Hidx). pose proof (u8_range idx).
  pose proof (u8_le height Hht). pose proof (u8_range height).
  eapply post_mono;
    [| intros e He; exact He
     | apply (for_post (fun _ g => MazeInv W H g) no_fault _ 0 _ g Hinv)].
  - auto.
  - intros y g' Hy Hg'.
    destruct (y =? u8 pathIdx); [exact Hg' |].
    rewrite !u32_small by (unfold is_u32; lia).
    destruct (MazeInv_at W H g' (origin.1 + u8 idx) (origin.2 + y) Hg') as [-> _]; [lia | lia |].
    rewrite bind_Ok.
    destruct (MazeInv_at W H g' (origin.1 + u8 idx + 1) (origin.2 + y) Hg') as [-> _]; [lia | lia |].
    rewrite bind_Ok. simpl. apply MazeInv_Disconnect, Hg'.
Qed.

End WallFacts.

(** Within the 8-bit range of their parameters the two wall operations
    do what the specification says: they remove exactly the connections
    across the wall, except at the gap. *)

Section WallSevers.
Context {I : Type}.
Implicit Types (g : Grid I).

Lemma row_wall_succ origin idx i pathIdx a b :
  0 <= i ->
  (row_wall origin idx (i + 1) pathIdx a b <->
   row_wall origin idx i pathIdx a b \/
   (i <> pathIdx /\
    pair_is a b (origin.1 + i, origin.2 + idx) (origin.1 + i, origin.2 + idx + 1))).
Proof.
  intros Hi. unfold row_wall. split.
  - intros (x & Hx & Hp & Hab). destruct (decide (x = i)) as [->|Hne].
    + right. auto.
    + left. exists x. split; [lia | auto].
  - intros [(x & Hx & Hp & Hab) | [Hp Hab]].
    + exists x. split; [lia | auto].
    + exists i. split; [lia | auto].
Qed.

Lemma col_wall_succ origin idx i pathIdx a b :
  0 <= i ->
  (col_wall origin idx (i + 1) pathIdx a b <->
   col_wall origin idx i pathIdx a b \/
   (i <> pathIdx /\
    pair_is a b (origin.1 + idx, origin.2 + i) (origin.1 + idx + 1, origin.2 + i))).
Proof.
  intros Hi. unfold col_wall. split.
  - intros (y & Hy & Hp & Hab). destruct (decide (y = i)) as [->|Hne].
    + right. auto.
    + left. exists y. split; [lia | auto].
  - intros [(y & Hy & Hp & Hab) | [Hp Hab]].
    + exists y. split; [lia | auto].
    + exists i. split; [lia | auto].
Qed.

(** X6: [DisconnectRow] with arguments that fit their 8-bit parameters and
    a wall that lies inside the grid returns normally, keeps the shape,
    and removes exactly the connections between row [origin.y + idx] and
    the row below it in the [width] columns from [origin.x], except in
    column [origin.x + pathIdx]. *)
Lemma DisconnectRow_severs W H g origin idx width pathIdx :
  shape W H g -> Z.of_nat W < 2 ^ 32 -> Z.of_nat H < 2 ^ 32 ->
  0 <= origin.1 -> 0 <= origin.2 ->
  0 <= idx < 2 ^ 8 -> 0 <= width < 2 ^ 8 -> 0 <= pathIdx < 2 ^ 8 ->
  origin.1 + width <= Z.of_nat W -> origin.2 + idx + 1 < Z.of_nat H ->
  exists g', DisconnectRow g origin idx width pathIdx = Ok g' /\
    shape W H g' /\
    forall a b, b ∈ connected_of g' a <->
      b ∈ connected_of g a /\ ~ row_wall origin idx width pathIdx a b.
Proof.
  intros Hsh HW HH Ho1 Ho2 Hidx Hwd Hp Hfit1 Hfit2.
  apply post_ok. unfold DisconnectRow.
  rewrite (u8_small idx Hidx), (u8_small width Hwd), (u8_small pathIdx Hp).
  eapply post_mono; [| intros e He; exact He |].
  2:{ apply (for_post (fun i g' => shape W H g' /\
                 forall a b, b ∈ connected_of g' a <->
                   b ∈ connected_of g a /\ ~ row_wall origin idx i pathIdx a b)
               no_fault (Z.to_nat width) 0).
      - split; [exact Hsh |]. intros a b. split; [| tauto].
        intros Hb. split; [exact Hb |]. intros (x & Hx & _). lia.
      - intros x g' Hx [Hsh' Hconn].
        destruct (x =? pathIdx) eqn:E.
        + apply Z.eqb_eq in E. simpl. split; [exact Hsh' |].
          intros a b. rewrite Hconn, row_wall_succ by lia. tauto.
        + apply Z.eqb_neq in E.
          rewrite !u32_small by (unfold is_u32; lia).
          rewrite (shape_at W H g' (origin.1 + x) (origin.2 + idx) Hsh') by lia.
          rewrite bind_Ok.
          rewrite (shape_at W H g' (origin.1 + x) (origin.2 + idx + 1) Hsh') by lia.
          rewrite bind_Ok. simpl. split; [apply gshape_Disconnect, Hsh' |].
          intros a b. rewrite elem_of_connected_Disconnect, Hconn, row_wall_succ by lia.
          unfold pair_is. tauto. }
  simpl. rewrite Z2Nat.id by lia. auto.
Qed.

(** X7: [DisconnectCol] with arguments that fit their 8-bit parameters and
    a wall that lies inside the grid returns normally, keeps the shape,
    and removes exactly the connections between column [origin.x + idx]
    and the column right of it in the [height] rows from [origin.y],
    except in row [origin.y + pathIdx]. *)
Lemma DisconnectCol_severs W H g origin idx height pathIdx :
  shape W H g -> Z.of_nat W < 2 ^ 32 -> Z.of_nat H < 2 ^ 32 ->
  0 <= origin.1 -> 0 <= origin.2 ->
  0 <= idx < 2 ^ 8 -> 0 <= height < 2 ^ 8 -> 0 <= pathIdx < 2 ^ 8 ->
  origin.2 + height <= Z.of_nat H -> origin.1 + idx + 1 < Z.of_nat W ->
  exists g', DisconnectCol g origin idx height pathIdx = Ok g' /\
    shape W H g' /\
    forall a b, b ∈ connected_of g' a <->
      b ∈ connected_of g a /\ ~ col_wall origin idx height pathIdx a b.
Proof.
  intros Hsh HW HH Ho1 Ho2 Hidx Hht Hp Hfit1 Hfit2.
  apply post_ok. unfold DisconnectCol.
  rewrite (u8_small idx Hidx), (u8_small height Hht), (u8_small pathIdx Hp).
  eapply post_mono; [| intros e He; exact He |].
  2:{ apply (for_post (fun i g' => shape W H g' /\
                 forall a b, b ∈ connected_of g' a <->
                   b ∈ connected_of g a /\ ~ col_wall origin idx i pathIdx a b)
               no_fault (Z.to_nat height) 0).
      - split; [exact Hsh |]. intros a b. split; [| tauto].
        intros Hb. split; [exact Hb |]. intros (y & Hy & _). lia.
      - intros y g' Hy [Hsh' Hconn].
        destruct (y =? pathIdx) eqn:E.
        + apply Z.eqb_eq in E. simpl. split; [exact Hsh' |].
          intros a b. rewrite Hconn, col_wall_succ by lia. tauto.
        + apply Z.eqb_neq in E.
          rewrite !u32_small by (unfold is_u32; lia).
          rewrite (shape_at W H g' (origin.1 + idx) (origin.2 + y) Hsh') by lia.
          rewrite bind_Ok.
          rewrite (shape_at W H g' (origin.1 + idx + 1) (origin.2 + y) Hsh') by lia.
          rewrite bind_Ok. simpl. split; [apply gshape_Disconnect, Hsh' |].
          intros a b. rewrite elem_of_connected_Disconnect, Hconn, col_wall_succ by lia.
          unfold pair_is. tauto. }
  simpl. rewrite Z2Nat.id by lia. auto.
Qed.

End WallSevers.

(** ** Recursive-Division generator *)

Module RecursiveDivisionFacts.
Import RecursiveDivision.

Lemma rd_Compute_post W H :
  Z.of_nat W < 2 ^ 32 -> Z.of_nat H < 2 ^ 32 ->
  forall fuel mt (maze : Maze) ox oy width height,
    MazeInv W H maze ->
    0 <= ox -> 0 <= oy -> 0 <= width -> 0 <= height ->
    ox + width <= Z.of_nat W -> oy + height <= Z.of_nat H ->
    width + height <= Z.of_nat fuel ->
    post (fun r => MazeInv W H r.1) no_fault
         (Compute fuel mt maze (ox, oy) width height).
Proof.
  intros HW HH. induction fuel as [|fuel IH];
    intros mt maze ox oy width height Hinv Hox Hoy Hwd Hht Hfw Hfh Hfuel.
  - simpl. destruct (width <? 2) eqn:E1; [exact Hinv |].
    destruct (height <? 2) eqn:E2; [exact Hinv |]. lia.
  - simpl. destruct (width <? 2) eqn:E1; [exact Hinv |].
    destruct (height <? 2) eqn:E2; [exact Hinv |]. simpl.
    apply Z.ltb_ge in E1, E2.
    destruct (MT19937.next mt) as [r1 mt1].
    destruct (MT19937.next mt1) as [r2 mt2].
    destruct (MT19937.next mt2) as [r3 mt3].
    rewrite !(u32_small (height - 1)), !(u32_small (width - 1)) by (unfold is_u32; lia).
    destruct (r1 mod 2 =? 0).
    + pose proof (Z.mod_pos_bound r2 (height - 1)) as Hwall.
      set (wallIdx := r2 mod (height - 1)) in *.
      apply post_bind.
      eapply post_mono;
        [| intros e He; exact He
         | apply (DisconnectRow_post W H maze (ox, oy) wallIdx width (r3 mod width));
           simpl; try assumption; lia].
      intros maze1 Hinv1. simpl.
      rewrite !u32_small by (unfold is_u32; lia).
      apply post_bind.
      eapply post_mono;
        [| intros e He; exact He
         | apply (IH mt3 maze1 ox oy width (wallIdx + 1)); try assumption; lia].
      intros [maze2 mt4] Hinv2. simpl in Hinv2. simpl.
      apply IH; try assumption; lia.
    + pose proof (Z.mod_pos_bound r2 (width - 1)) as Hwall.
      set (wallIdx := r2 mod (width - 1)) in *.
      apply post_bind.
      eapply post_mono;
        [| intros e He; exact He
         | apply (DisconnectCol_post W H maze (ox, oy) wallIdx height (r3 mod height));
           simpl; try assumption; lia].
      intros maze1 Hinv1. simpl.
      rewrite !u32_small by (unfold is_u32; lia).
      apply post_bind.
      eapply post_mono;
        [| intros e He; exact He
         | apply (IH mt3 maze1 ox oy (wallIdx + 1) height); try assumption; lia].
      intros [maze2 mt4] Hinv2. simpl in Hinv2. simpl.
      apply IH; try assumption; lia.
Qed.

Lemma rd_generate_absent width height seed :
  width < 1 \/ height < 1 -> generate width height seed = Ok None.
Proof.
  intros Hbad. unfold generate.
  destruct (width <? 1) eqn:E1; [reflexivity |].
  destruct (height <? 1) eqn:E2; [reflexivity |]. lia.
Qed.

Lemma rd_generate_spec width height seed :
  is_u32 width -> is_u32 height -> 1 <= width -> 1 <= height ->
  exists maze, generate width height seed = Ok (Some maze) /\
    MazeInv (Z.to_nat width) (Z.to_nat height) maze.
Proof.
  intros Hw Hh Hw1 Hh1. unfold generate.
  destruct (width <? 1) eqn:E1; [lia |].
  destruct (height <? 1) eqn:E2; [lia |]. simpl.
  destruct (Init_MazeInv (I := CellInfoBase) true width height) as (g & -> & Hinv & _).
  rewrite bind_Ok.
  set (W := Z.to_nat width) in *. set (H := Z.to_nat height) in *.
  unfold is_u32 in *.
  apply (bind_elim _ _ (fun r => MazeInv W H r.1)
           (fun r => exists maze, r = Ok (Some maze) /\ MazeInv W H maze)).
  - apply rd_Compute_post; try assumption; unfold W, H; lia.
  - intros [maze mt] Hm. simpl in Hm. eauto.
Qed.

End RecursiveDivisionFacts.

(** ** Sums over the cells of a grid *)

Lemma sum_list_with_alter {A : Type} (F : A -> nat) (G : A -> A) i l x :
  l !! i = Some x ->
  (sum_list_with F (alter G i l) + F x = sum_list_with F l + F (G x))%nat.
Proof.
  revert i. induction l as [|a l IH]; intros [|i] Hx; simpl in *; try discriminate.
  - injection Hx as ->. lia.
  - specialize (IH i Hx). unfold alter in IH. lia.
Qed.

Lemma sum_list_with_alter_same {A : Type} (F : A -> nat) (G : A -> A) i l :
  (forall x, F (G x) = F x) -> sum_list_with F (alter G i l) = sum_list_with F l.
Proof.
  intros HF. revert i. induction l as [|a l IH]; intros [|i]; simpl; auto.
  specialize (IH i). unfold alter in IH. rewrite IH. reflexivity.
Qed.

Lemma sum_list_with_le {A : Type} (F : A -> nat) l k :
  (forall x, x ∈ l -> (F x <= k)%nat) -> (sum_list_with F l <= length l * k)%nat.
Proof.
  induction l as [|a l IH]; intros HF; simpl; [lia |].
  pose proof (HF a (list_elem_of_here a l)).
  assert (sum_list_with F l <= length l * k)%nat; [| lia].
  apply IH. intros x Hx. apply HF. right. exact Hx.
Qed.

Section GridSum.
Context {I : Type}.
Implicit Types (g : Grid I) (w : Cell I -> nat).

Lemma grid_sum_upd w g p f c :
  cell_at g p = Some c ->
  (grid_sum w (upd g p f) + w c = grid_sum w g + w (f c))%nat.
Proof.
  intros Hc. pose proof Hc as Hc'. apply cell_at_Some in Hc' as (H1 & H2 & col & Hcol & Hcc).
  unfold grid_sum, upd, in_nat_range.
  destruct (0 <=? p.1) eqn:E1; [| apply Z.leb_gt in E1; lia].
  destruct (0 <=? p.2) eqn:E2; [| apply Z.leb_gt in E2; lia]. simpl.
  pose proof (sum_list_with_alter (sum_list_with w) (alter f (Z.to_nat p.2))
                _ _ _ Hcol) as Ho.
  pose proof (sum_list_with_alter w f _ _ _ Hcc) as Hi. lia.
Qed.

Lemma grid_sum_upd_same w g p f :
  (forall c, w (f c) = w c) -> grid_sum w (upd g p f) = grid_sum w g.
Proof.
  intros Hw. unfold grid_sum, upd. destruct (in_nat_range p); [| reflexivity]. simpl.
  apply sum_list_with_alter_same. intros col. apply sum_list_with_alter_same, Hw.
Qed.

Lemma grid_sum_le w W H g k :
  shape W H g -> (forall c, (w c <= k)%nat) -> (grid_sum w g <= W * (H * k))%nat.
Proof.
  intros (HW & HH & _) Hk. unfold grid_sum. rewrite <- HW.
  apply sum_list_with_le. intros col Hcol.
  apply list_elem_of_lookup in Hcol as [i Hi]. rewrite <- (HH _ _ Hi).
  apply sum_list_with_le. intros c _. apply Hk.
Qed.

End GridSum.

(** ** Prim's generator *)

Module PrimsFacts.
Import Prims.

Lemma visited_set_visited (g : Maze) p q :
  is_cell g p ->
  visited (upd g p set_visited) q = if decide (p = q) then true else visited g q.
Proof.
  intros Hp. unfold visited. rewrite info_of_upd.
  destruct (decide (p = q)) as [->|Hne].
  - rewrite decide_True by (split; [reflexivity | exact Hp]).
    destruct Hp as [c ->]. reflexivity.
  - rewrite decide_False by tauto. reflexivity.
Qed.

Lemma visited_upd_same (g : Maze) p f q :
  (forall c, isVisited (base (info (f c))) = isVisited (base (info c))) ->
  visited (upd g p f) q = visited g q.
Proof.
  intros Hf. unfold visited. rewrite info_of_upd.
  destruct (decide _) as [[-> Hc]|]; [| reflexivity].
  unfold info_of. destruct (cell_at g q); [apply Hf | reflexivity].
Qed.

Lemma visited_Connect (g : Maze) a b q : visited (Connect g a b) q = visited g q.
Proof. unfold visited. rewrite info_of_Connect. reflexivity. Qed.

Lemma unvisited_count_visit (g : Maze) p :
  is_cell g p -> visited g p = false ->
  (unvisited_count (upd g p set_visited) + 1 = unvisited_count g)%nat.
Proof.
  intros [c Hc] Hv. unfold unvisited_count.
  pose proof (grid_sum_upd unvisited_weight g p set_visited c Hc) as Hs.
  unfold visited, info_of in Hv. rewrite Hc in Hv.
  assert (Hw1 : unvisited_weight c = 1%nat)
    by (unfold unvisited_weight; rewrite Hv; reflexivity).
  assert (Hw0 : unvisited_weight (set_visited c) = 0%nat) by reflexivity.
  rewrite Hw1, Hw0 in Hs. lia.
Qed.

Lemma unvisited_count_same (g : Maze) p f :
  (forall c, isVisited (base (info (f c))) = isVisited (base (info c))) ->
  unvisited_count (upd g p f) = unvisited_count g.
Proof.
  intros Hf. apply grid_sum_upd_same. intros c. unfold unvisited_weight.
  rewrite Hf. reflexivity.
Qed.

Lemma unvisited_count_Connect (g : Maze) a b :
  unvisited_count (Connect g a b) = unvisited_count g.
Proof. unfold Connect. rewrite !unvisited_count_same; reflexivity. Qed.

Lemma prims_push_if_post W H (maze : Maze) wanted inb x y acc cell :
  MazeInv W H maze ->
  (inb = true -> 0 <= x < Z.of_nat W /\ 0 <= y < Z.of_nat H /\ adjacent cell (x, y)) ->
  (forall n, n ∈ acc -> is_cell maze n /\ adjacent cell n /\ visited maze n = wanted) ->
  post (fun ns => forall n, n ∈ ns ->
          is_cell maze n /\ adjacent cell n /\ visited maze n = wanted)
       no_fault (push_if maze wanted inb x y acc).
Proof.
  intros Hinv Hb Hacc. unfold push_if.
  destruct inb; [| exact Hacc].
  destruct (Hb eq_refl) as (Hx & Hy & Hadj).
  destruct (MazeInv_at W H maze x y Hinv Hx Hy) as [-> Hc]. rewrite bind_Ok.
  destruct (if wanted then visited maze (x, y) else negb (visited maze (x, y))) eqn:E;
    [| exact Hacc].
  rewrite bind_Ok. simpl.
  intros n [Hn | ->%list_elem_of_singleton]%elem_of_app; [auto |].
  split; [exact Hc | split; [exact Hadj |]].
  destruct wanted; [exact E | apply negb_true_iff, E].
Qed.

Lemma to_int_nonneg z : is_u32 z -> 0 <= to_int (z - 1) -> 1 <= z /\ u32 (z - 1) = z - 1.
Proof.
  unfold is_u32, to_int. intros Hz.
  destruct (decide (z = 0)) as [->|Hnz].
  - change (u32 (0 - 1)) with (2 ^ 32 - 1). simpl. lia.
  - intros _. split; [lia |]. apply u32_small. unfold is_u32. lia.
Qed.

Lemma prims_GetNeighbours_post W H (maze : Maze) cell wanted :
  MazeInv W H maze -> Z.of_nat W < 2 ^ 32 -> Z.of_nat H < 2 ^ 32 ->
  is_cell maze cell ->
  post (fun ns => forall n, n ∈ ns ->
          is_cell maze n /\ adjacent cell n /\ visited maze n = wanted)
       no_fault (GetNeighbours maze cell wanted).
Proof.
  intros Hinv HW HH Hc. unfold GetNeighbours.
  pose proof (proj1 (shape_is_cell _ _ _ _ (proj1 Hinv)) Hc) as [Hx Hy].
  assert (Hwd : Width maze = Z.of_nat W) by (eapply MazeInv_Width; eassumption).
  assert (Hht : Height maze = Z.of_nat H) by (eapply MazeInv_Height; [eassumption | lia | lia]).
  rewrite Hwd, Hht.
  apply post_bind. eapply post_mono; [| intros e He; exact He |].
  2:{ apply (prims_push_if_post W H maze wanted _ _ _ [] cell Hinv).
      - intros Hb. apply Z.leb_le in Hb.
        apply to_int_nonneg in Hb as [H1 ->]; [| unfold is_u32; lia].
        unfold adjacent. simpl. lia.
      - intros n Hn. inversion Hn. }
  intros n1 Hn1. simpl.
  apply post_bind. eapply post_mono; [| intros e He; exact He |].
  2:{ apply (prims_push_if_post W H maze wanted _ _ _ n1 cell Hinv); [| exact Hn1].
      intros Hb. apply Z.leb_le in Hb.
      apply to_int_nonneg in Hb as [H1 ->]; [| unfold is_u32; lia].
      unfold adjacent. simpl. lia. }
  intros n2 Hn2. simpl.
  apply post_bind. eapply post_mono; [| intros e He; exact He |].
  2:{ apply (prims_push_if_post W H maze wanted _ _ _ n2 cell Hinv); [| exact Hn2].
      intros Hb. apply Z.ltb_lt in Hb.
      rewrite (u32_small (cell.1 + 1)) in * by (unfold is_u32; lia).
      unfold adjacent. simpl. lia. }
  intros n3 Hn3. simpl.
  apply (prims_push_if_post W H maze wanted _ _ _ n3 cell Hinv); [| exact Hn3].
  intros Hb. apply Z.ltb_lt in Hb.
  rewrite (u32_small (cell.2 + 1)) in * by (unfold is_u32; lia).
  unfold adjacent. simpl. lia.
Qed.

Section WithHeap.
Variable addr : CellRef -> Z.

Lemma prims_step_post W H fuel st :
  Z.of_nat W < 2 ^ 32 -> Z.of_nat H < 2 ^ 32 ->
  PrimsInv W H (S fuel) st -> st.2 <> [] ->
  post (PrimsInv W H fuel) no_fault (step addr st).
Proof.
  intros HW HH (Hinv & Hset & Hcnt) Hne. destruct st as [[maze mt] pathSet].
  simpl in Hinv, Hset, Hcnt, Hne. unfold step.
  destruct (MT19937.next mt) as [r mt1].
  destruct (vec_at_mod pathSet r Hne) as (cell & -> & Hcell). rewrite bind_Ok.
  destruct (Hset cell Hcell) as [Hc Hv].
  set (maze1 := upd maze cell set_visited).
  assert (Hinv1 : MazeInv W H maze1).
  { apply (MazeInv_upd_info W H maze cell
             (fun c => mkCellInfo (mkCellInfoBase true) (rootDistance (info c)))), Hinv. }
  assert (Hcnt1 : (unvisited_count maze1 + 1 = unvisited_count maze)%nat)
    by (apply unvisited_count_visit; assumption).
  assert (Hcells : forall (m : Maze) q, MazeInv W H m -> (is_cell m q <-> is_cell maze q)).
  { intros m q Hm. rewrite (shape_is_cell _ _ _ _ (proj1 Hm)).
    rewrite (shape_is_cell _ _ _ _ (proj1 Hinv)). reflexivity. }
  apply post_bind. eapply post_mono; [| intros e He; exact He |].
  2:{ apply (prims_GetNeighbours_post W H maze1 cell true); try assumption.
      apply Hcells; assumption. }
  intros ns Hns. simpl.
  apply post_bind.
  eapply (post_mono
            (fun r : Maze * MT19937.state =>
               MazeInv W H r.1 /\ (forall q, visited r.1 q = visited maze1 q) /\
               unvisited_count r.1 = unvisited_count maze1));
    [| intros e He; exact He |].
  2:{ destruct ns as [|n0 ns']; [simpl; auto |].
      destruct (MT19937.next mt1) as [r2 mt2].
      destruct (vec_at_mod (n0 :: ns') r2) as (n & -> & Hn); [discriminate |].
      rewrite bind_Ok. simpl.
      destruct (Hns n Hn) as (Hnc & Hadj & _).
      set (maze2 := upd maze1 cell _).
      assert (Hinv2 : MazeInv W H maze2).
      { apply (MazeInv_upd_info W H maze1 cell
                 (fun c => mkCellInfo (base (info c)) (rootDistance (info_of maze1 n) + 1))),
          Hinv1. }
      split; [| split].
      - apply MazeInv_Connect; try assumption; apply Hcells; try assumption;
          apply (Hcells maze1); assumption.
      - intros q. rewrite visited_Connect. apply visited_upd_same. reflexivity.
      - rewrite unvisited_count_Connect. apply unvisited_count_same. reflexivity. }
  intros [maze3 mt3] (Hinv3 & Hvis3 & Hcnt3). simpl in Hinv3, Hvis3, Hcnt3. simpl.
  apply post_bind. eapply post_mono; [| intros e He; exact He |].
  2:{ apply (prims_GetNeighbours_post W H maze3 cell false); try assumption.
      apply Hcells; assumption. }
  intros nu Hnu. simpl. split; [exact Hinv3 | split]; simpl.
  - intros q [Hq Hqc]%elem_of_ptrset_erase.
    apply elem_of_ptrset_insert_range in Hq as [Hq | Hq].
    + destruct (Hnu q Hq) as (H1 & _ & H2). auto.
    + destruct (Hset q Hq) as [H1 H2]. split; [apply Hcells; assumption |].
      rewrite Hvis3. unfold maze1. rewrite visited_set_visited by exact Hc.
      rewrite decide_False by congruence. exact H2.
  - lia.
Qed.

Lemma unvisited_pos (maze : Maze) c :
  is_cell maze c -> visited maze c = false -> (1 <= unvisited_count maze)%nat.
Proof. intros Hc Hv. pose proof (unvisited_count_visit maze c Hc Hv). lia. Qed.

Lemma prims_loop_post W H :
  Z.of_nat W < 2 ^ 32 -> Z.of_nat H < 2 ^ 32 ->
  forall fuel st, PrimsInv W H fuel st ->
    post (MazeInv W H) no_fault (loop addr fuel st).
Proof.
  intros HW HH. induction fuel as [|fuel IH]; intros st Hst.
  - destruct st as [[maze mt] [|c pathSet]]; simpl; [apply Hst |].
    destruct Hst as (_ & Hset & Hcnt). simpl in *.
    destruct (Hset c (list_elem_of_here _ _)) as [Hc Hv].
    pose proof (unvisited_pos maze c Hc Hv). lia.
  - destruct st as [[maze mt] [|c pathSet]]; [simpl; apply Hst |].
    change (loop addr (S fuel) (maze, mt, c :: pathSet))
      with (st' ← step addr (maze, mt, c :: pathSet); loop addr fuel st').
    apply post_bind. eapply post_mono; [| intros e He; exact He |].
    2:{ apply (prims_step_post W H fuel); [assumption | assumption | exact Hst | discriminate]. }
    intros st' Hst'. simpl. apply IH, Hst'.
Qed.

Lemma prims_generate_absent width height startPoint seed :
  width < 1 \/ height < 1 \/ width <= startPoint.1 \/ height <= startPoint.2 ->
  generate addr width height startPoint seed = Ok None.
Proof.
  intros Hbad. unfold generate.
  destruct (width <? 1) eqn:E1; [reflexivity |].
  destruct (height <? 1) eqn:E2; [reflexivity |].
  destruct (width <=? startPoint.1) eqn:E3; [reflexivity |].
  destruct (height <=? startPoint.2) eqn:E4; [reflexivity |]. lia.
Qed.

Lemma prims_generate_spec width height startPoint seed :
  is_u32 width -> is_u32 height -> is_u32 startPoint.1 -> is_u32 startPoint.2 ->
  1 <= width -> 1 <= height -> startPoint.1 < width -> startPoint.2 < height ->
  exists maze, generate addr width height startPoint seed = Ok (Some maze) /\
    MazeInv (Z.to_nat width) (Z.to_nat height) maze.
Proof.
  intros Hw Hh Hs1 Hs2 Hw1 Hh1 Hsx Hsy. unfold generate.
  destruct (width <? 1) eqn:E1; [lia |].
  destruct (height <? 1) eqn:E2; [lia |].
  destruct (width <=? startPoint.1) eqn:E3; [lia |].
  destruct (height <=? startPoint.2) eqn:E4; [lia |]. simpl.
  destruct (Init_MazeInv (I := CellInfo) false width height) as (g & -> & Hinv & _ & Hinfo).
  rewrite bind_Ok.
  set (W := Z.to_nat width) in *. set (H := Z.to_nat height) in *.
  unfold is_u32 in *.
  destruct (MazeInv_at W H g startPoint.1 startPoint.2 Hinv) as [-> Hc];
    [unfold W; lia | unfold H; lia |].
  rewrite bind_Ok.
  set (g1 := upd g _ _).
  assert (Hinv1 : MazeInv W H g1).
  { apply (MazeInv_upd_info W H g _ (fun c => mkCellInfo (base (info c)) 0)), Hinv. }
  destruct (MazeInv_at W H g1 startPoint.1 startPoint.2 Hinv1) as [-> Hc1];
    [unfold W; lia | unfold H; lia |].
  rewrite bind_Ok.
  apply (bind_elim _ _ (MazeInv W H)
           (fun r => exists maze, r = Ok (Some maze) /\ MazeInv W H maze));
    [| intros m Hm; eauto].
  apply (prims_loop_post W H); [unfold W; lia | unfold H; lia |].
  split; [exact Hinv1 | split]; simpl.
  - intros c ->%list_elem_of_singleton.
    split; [exact Hc1 |]. unfold g1. rewrite visited_upd_same by reflexivity.
    unfold visited. rewrite Hinfo. reflexivity.
  - unfold unvisited_count.
    pose proof (grid_sum_le unvisited_weight W H g1 1%nat (proj1 Hinv1)) as Hle.
    assert (Z.to_nat (width * height) = (W * H)%nat) as -> by (unfold W, H; lia).
    etransitivity; [apply Hle |]; [| lia].
    intros c. unfold unvisited_weight. destruct (isVisited _); lia.
Qed.

End WithHeap.
End PrimsFacts.

(** ** Kruskal's generator *)

Module KruskalsFacts.
Import Kruskals.

Lemma bucket_of_upd (maze : Maze) p id q :
  bucket_of (upd maze p (set_bucketId id)) q =
  if decide (p = q /\ is_cell maze q) then id else bucket_of maze q.
Proof.
  unfold bucket_of. rewrite info_of_upd.
  destruct (decide _) as [[-> [c Hc]]|]; [| reflexivity].
  rewrite Hc. reflexivity.
Qed.

Lemma bucket_of_Connect (maze : Maze) a b q :
  bucket_of (Connect maze a b) q = bucket_of maze q.
Proof. unfold bucket_of. rewrite info_of_Connect. reflexivity. Qed.

Lemma MazeInv_set_bucketId W H (maze : Maze) p id :
  MazeInv W H maze -> MazeInv W H (upd maze p (set_bucketId id)).
Proof.
  apply (MazeInv_upd_info W H maze p (fun c => mkCellInfoBucket (base (info c)) id)).
Qed.

Lemma shape_set_bucketId W H (maze : Maze) p id :
  shape W H maze -> shape W H (upd maze p (set_bucketId id)).
Proof. apply shape_upd. intros c. apply set_info_coords. Qed.

Lemma bucket_at_post W H (buckets : Buckets) id (P : list CellRef -> Prop) :
  (Z.of_nat W * Z.of_nat H < 2 ^ 32 -> 0 <= id < Z.of_nat (length buckets)) ->
  (forall b, P b) ->
  post P (bucket_overflow W H) (bucket_at buckets id).
Proof.
  intros Hid HP. unfold bucket_at.
  destruct (if 0 <=? id then buckets !! Z.to_nat id else None) as [b|] eqn:E; simpl; [apply HP |].
  split; [reflexivity |].
  destruct (Z_lt_ge_dec (Z.of_nat W * Z.of_nat H) (2 ^ 32)) as [Hlt|Hge]; [| lia].
  specialize (Hid Hlt).
  destruct (0 <=? id) eqn:E0; [| apply Z.leb_gt in E0; lia].
  apply lookup_ge_None_1 in E. lia.
Qed.

Lemma bucket_push_post W H (buckets : Buckets) id p :
  (Z.of_nat W * Z.of_nat H < 2 ^ 32 -> 0 <= id < Z.of_nat (length buckets)) ->
  post (fun b => length b = length buckets) (bucket_overflow W H)
       (bucket_push buckets id p).
Proof.
  intros Hid. unfold bucket_push. apply post_bind.
  eapply post_mono; [| intros e He; exact He
                     | apply (bucket_at_post W H buckets id (fun _ => True) Hid); auto].
  intros b _. simpl. apply length_alter.
Qed.

Lemma BucketsInv_set W H (maze : Maze) buckets buckets' p id :
  (Z.of_nat W * Z.of_nat H < 2 ^ 32 -> 0 <= id < Z.of_nat W * Z.of_nat H) ->
  length buckets' = length buckets ->
  BucketsInv W H maze buckets ->
  BucketsInv W H (upd maze p (set_bucketId id)) buckets'.
Proof.
  intros Hid Hlen Hb Hlt. destruct (Hb Hlt) as [Hl Hids].
  split; [rewrite Hlen; exact Hl |].
  intros q. rewrite bucket_of_upd. destruct (decide _); [apply Hid, Hlt | apply Hids].
Qed.

Lemma MergeBucket_post W H sub (maze : Maze) edges buckets b1 b2 :
  KruskalInv W H sub maze edges buckets ->
  (Z.of_nat W * Z.of_nat H < 2 ^ 32 ->
   0 <= b1 < Z.of_nat W * Z.of_nat H /\ 0 <= b2 < Z.of_nat W * Z.of_nat H) ->
  post (fun r => KruskalInv W H sub r.1 edges r.2) (bucket_overflow W H)
       (MergeBucket (maze, buckets) b1 b2).
Proof.
  intros Hinv Hb. unfold MergeBucket.
  destruct (u32 b1 =? u32 b2); [exact Hinv |]. simpl.
  assert (Hu : Z.of_nat W * Z.of_nat H < 2 ^ 32 ->
               (0 <= u32 b1 < Z.of_nat W * Z.of_nat H) /\
               (0 <= u32 b2 < Z.of_nat W * Z.of_nat H)).
  { intros Hlt. destruct (Hb Hlt) as [H1 H2].
    rewrite !u32_small by (unfold is_u32; lia). auto. }
  pose proof Hinv as (_ & Hbk & _).
  apply post_bind.
  eapply post_mono; [| intros e He; exact He
                     | apply (bucket_at_post W H buckets (u32 b1) (fun _ => True)); auto].
  2:{ intros Hlt. destruct (Hbk Hlt) as [-> _]. apply Hu, Hlt. }
  intros from _. simpl.
  apply post_bind.
  eapply post_mono; [| intros e He; exact He |].
  2:{ apply (foldM_post (fun _ (r : Maze * Buckets) => KruskalInv W H sub r.1 edges r.2)
               (bucket_overflow W H) _ from (maze, buckets) Hinv).
      intros it _ [m b] (Hsh & Hbi & Hsub). simpl in *.
      apply post_bind.
      eapply post_mono; [| intros e He; exact He
                         | apply (bucket_push_post W H b (u32 b2) it)].
      2:{ intros Hlt. destruct (Hbi Hlt) as [-> _]. apply Hu, Hlt. }
      intros b' Hb'. simpl. split; [apply shape_set_bucketId, Hsh | split].
      - apply (BucketsInv_set W H m b); [intros Hlt; apply Hu, Hlt | exact Hb' | exact Hbi].
      - intros Hs. destruct (Hsub Hs) as [Hm He]. split; [| exact He].
        apply MazeInv_set_bucketId, Hm. }
  intros [m b] (Hsh & Hbi & Hsub). simpl in *.
  apply post_bind.
  eapply post_mono; [| intros e He; exact He
                     | apply (bucket_at_post W H b (u32 b1) (fun _ => True)); auto].
  2:{ intros Hlt. destruct (Hbi Hlt) as [-> _]. apply Hu, Hlt. }
  intros _ _. simpl. split; [exact Hsh | split; [| exact Hsub]].
  intros Hlt. destruct (Hbi Hlt) as [Hl Hids]. split; [| exact Hids].
  rewrite length_insert. exact Hl.
Qed.

Lemma KruskalInv_Connect W H sub (maze : Maze) edges buckets e :
  e ∈ edges ->
  KruskalInv W H sub maze edges buckets ->
  KruskalInv W H sub (Connect maze (first e) (second e)) edges buckets.
Proof.
  intros He (Hsh & Hbi & Hsub). split; [apply gshape_Connect, Hsh | split].
  - intros Hlt. destruct (Hbi Hlt) as [Hl Hids]. split; [exact Hl |].
    intros q. rewrite bucket_of_Connect. apply Hids.
  - intros Hs. destruct (Hsub Hs) as [Hm Hes]. split; [| exact Hes].
    destruct (Hes e He) as (H1 & H2 & Hadj).
    apply MazeInv_Connect; [| | exact Hadj | exact Hm];
      apply (shape_is_cell _ _ _ _ Hsh); assumption.
Qed.

Lemma kruskals_step_post W H sub (st : state) :
  KruskalInv W H sub (st_maze st) (st_edges st) (st_buckets st) ->
  st_edges st <> [] ->
  post (fun st' => KruskalInv W H sub (st_maze st') (st_edges st') (st_buckets st') /\
                   S (length (st_edges st')) = length (st_edges st))
       (bucket_overflow W H) (step st).
Proof.
  intros Hinv Hne. unfold step.
  destruct (MT19937.next (st_mt st)) as [r mt].
  destruct (vec_at_mod (st_edges st) r Hne) as (e & Hat & He). rewrite Hat, bind_Ok.
  set (idx := r mod Z.of_nat (length (st_edges st))) in *.
  assert (Hidx : (Z.to_nat idx < length (st_edges st))%nat).
  { unfold vec_at in Hat. destruct (0 <=? idx); [| discriminate].
    destruct (st_edges st !! Z.to_nat idx) eqn:E; [| discriminate].
    eapply lookup_lt_Some, E. }
  assert (Hdel : forall m b, KruskalInv W H sub m (st_edges st) b ->
            KruskalInv W H sub m (delete (Z.to_nat idx) (st_edges st)) b).
  { intros m b (Hsh & Hbi & Hsub). split; [exact Hsh | split; [exact Hbi |]].
    intros Hs. destruct (Hsub Hs) as [Hm Hes]. split; [exact Hm |].
    intros e' He'. apply Hes. eapply list_elem_of_delete_inv, He'. }
  assert (Hlen : S (length (delete (Z.to_nat idx) (st_edges st))) = length (st_edges st)).
  { rewrite length_delete; [lia |]. apply lookup_lt_is_Some_2, Hidx. }
  apply post_bind.
  destruct (bucket_of (st_maze st) (first e) =? bucket_of (st_maze st) (second e)).
  - simpl. split; [apply Hdel, Hinv | exact Hlen].
  - eapply post_mono; [| intros e' He'; exact He' |].
    2:{ apply (MergeBucket_post W H sub _ (st_edges st));
          [apply KruskalInv_Connect; assumption |].
        intros Hlt. destruct Hinv as (_ & Hbi & _). destruct (Hbi Hlt) as [_ Hids].
        split; apply Hids. }
    intros [m b] Hmb. simpl in *. split; [apply Hdel, Hmb | exact Hlen].
Qed.

Lemma kruskals_loop_post W H sub :
  forall fuel (st : state),
    KruskalInv W H sub (st_maze st) (st_edges st) (st_buckets st) ->
    (length (st_edges st) <= fuel)%nat ->
    post (fun m => shape W H m /\ (sub -> MazeInv W H m)) (bucket_overflow W H)
         (loop fuel st).
Proof.
  induction fuel as [|fuel IH]; intros st Hinv Hfuel.
  - destruct (st_edges st) as [|e es] eqn:E; [| simpl in Hfuel; lia].
    simpl. rewrite E. destruct Hinv as (Hsh & _ & Hsub).
    split; [exact Hsh | intros Hs; apply Hsub, Hs].
  - simpl. destruct (st_edges st) as [|e es] eqn:E.
    + destruct Hinv as (Hsh & _ & Hsub).
      split; [exact Hsh | intros Hs; apply Hsub, Hs].
    + apply post_bind. eapply post_mono; [| intros e' He'; exact He' |].
      2:{ apply (kruskals_step_post W H sub st); [rewrite E; exact Hinv | rewrite E; discriminate]. }
      intros st' [Hinv' Hlen]. simpl. apply IH; [exact Hinv' |].
      rewrite E in Hlen. simpl in *. lia.
Qed.

Section WithEdgeSet.
Variable set_insert : Edge -> list Edge -> list Edge.

Lemma kruskals_fill_cell_post W H x y st :
  Z.of_nat W < 2 ^ 32 -> Z.of_nat H < 2 ^ 32 ->
  0 <= x < Z.of_nat W -> 0 <= y < Z.of_nat H ->
  FillInv W H (insert_keeps set_insert) x y st ->
  post (FillInv W H (insert_keeps set_insert) x (y + 1)) (bucket_overflow W H)
       (fill_cell set_insert x y st).
Proof.
  intros HW HH Hx Hy [Hinv Hid]. destruct st as [[[maze edges] buckets] nodeId].
  simpl in Hinv, Hid. subst nodeId. unfold fill_cell.
  destruct Hinv as (Hsh & Hbi & Hsub).
  assert (Hat : forall (m : Maze) i j, shape W H m -> 0 <= i < Z.of_nat W ->
                  0 <= j < Z.of_nat H -> at_ m i j = Ok (i, j))
    by (intros; eapply shape_at; eassumption).
  rewrite (Hat maze x y Hsh Hx Hy), bind_Ok.
  set (maze1 := upd maze (x, y) (set_bucketId (x * Z.of_nat H + y))).
  assert (Hsh1 : shape W H maze1) by apply shape_set_bucketId, Hsh.
  rewrite (Hat maze1 x y Hsh1 Hx Hy), bind_Ok.
  assert (Hnode : 0 <= x * Z.of_nat H + y < Z.of_nat W * Z.of_nat H) by nia.
  apply post_bind.
  eapply post_mono; [| intros e He; exact He
                     | apply (bucket_push_post W H buckets (x * Z.of_nat H + y) (x, y))].
  2:{ intros Hlt. destruct (Hbi Hlt) as [-> _]. exact Hnode. }
  intros buckets1 Hlen1. simpl.
  assert (Hwd : Width maze1 = Z.of_nat W) by (eapply shape_Width; eassumption).
  assert (Hht : Height maze1 = Z.of_nat H) by (eapply shape_Height; [eassumption | lia | lia]).
  rewrite Hwd, Hht.
  assert (Hins : forall e es, EdgeOk W H e ->
            (insert_keeps set_insert -> forall e', e' ∈ es -> EdgeOk W H e') ->
            insert_keeps set_insert -> forall e', e' ∈ set_insert e es -> EdgeOk W H e').
  { intros e es He Hes Hk e' He'. destruct (Hk _ _ _ He') as [-> | Hin]; auto. }
  set (EP := fun es : list Edge =>
               insert_keeps set_insert -> forall e', e' ∈ es -> EdgeOk W H e').
  assert (HE0 : EP edges) by (intros Hk; apply Hsub, Hk).
  apply post_bind.
  apply (post_mono EP _ no_fault); [| intros e []|].
  2:{ destruct (u32 (x + 1) <? Z.of_nat W) eqn:E; [| exact HE0].
      apply Z.ltb_lt in E. rewrite (u32_small (x + 1)) in * by (unfold is_u32; lia).
      rewrite (Hat maze1 (x + 1) y Hsh1) by lia. rewrite bind_Ok. simpl.
      refine (Hins _ edges _ HE0).
      split; [| split]; simpl; unfold in_grid, adjacent; simpl; lia. }
  intros edges1 HE1. simpl.
  apply post_bind.
  apply (post_mono EP _ no_fault); [| intros e []|].
  2:{ destruct (u32 (y + 1) <? Z.of_nat H) eqn:E; [| exact HE1].
      apply Z.ltb_lt in E. rewrite (u32_small (y + 1)) in * by (unfold is_u32; lia).
      rewrite (Hat maze1 x (y + 1) Hsh1) by lia. rewrite bind_Ok. simpl.
      refine (Hins _ edges1 _ HE1).
      split; [| split]; simpl; unfold in_grid, adjacent; simpl; lia. }
  intros edges2 HE2. simpl. split; simpl.
  - split; [exact Hsh1 | split].
    + apply (BucketsInv_set W H maze buckets); [intros _; exact Hnode | exact Hlen1 | exact Hbi].
    + intros Hk. split; [| apply HE2, Hk].
      apply MazeInv_set_bucketId, Hsub, Hk.
  - unfold u64. rewrite Z.mod_small; [lia |].
    assert (Z.of_nat W * Z.of_nat H < 2 ^ 64) by nia. lia.
Qed.

Lemma kruskals_fill_post W H (maze : Maze) :
  Z.of_nat W < 2 ^ 32 -> Z.of_nat H < 2 ^ 32 -> (0 < W)%nat -> (0 < H)%nat ->
  MazeInv W H maze -> (forall p, info_of maze p = default_ctor) ->
  post (fun st => KruskalInv W H (insert_keeps set_insert) st.1.1.1 st.1.1.2 st.1.2)
       (bucket_overflow W H) (fill set_insert maze (Z.of_nat W) (Z.of_nat H)).
Proof.
  intros HW HH HW0 HH0 Hinv Hinfo. unfold fill.
  rewrite (MazeInv_Width W H maze Hinv HW), Nat2Z.id.
  eapply post_mono; [| intros e He; exact He |].
  2:{ apply (for_post (fun x st => FillInv W H (insert_keeps set_insert) x 0 st)
               (bucket_overflow W H) W 0).
      - split; simpl; [| lia].
        split; [apply Hinv | split].
        + intros Hlt. rewrite length_replicate.
          rewrite (Z.mul_comm (Z.of_nat H)), u32_small by (unfold is_u32; lia).
          split; [lia |]. intros p. unfold bucket_of. rewrite Hinfo. simpl. lia.
        + intros _. split; [exact Hinv |]. intros e He. inversion He.
      - intros x st Hx Hst. destruct st as [[[m es] bs] nid]. simpl.
        assert (Hh : Height m = Z.of_nat H).
        { destruct Hst as [(Hsh & _) _]. eapply shape_Height; [eassumption | lia | lia]. }
        rewrite Hh, Nat2Z.id.
        eapply post_mono; [| intros e He; exact He |].
        2:{ apply (for_post (fun y st => FillInv W H (insert_keeps set_insert) x y st)
                     (bucket_overflow W H) H 0 (fill_cell set_insert x) _ Hst).
            intros y st' Hy Hst'. apply kruskals_fill_cell_post; try assumption; lia. }
        simpl. intros st' [Hk Hid]. split; [exact Hk | lia]. }
  simpl. intros st [Hk _]. exact Hk.
Qed.

Lemma kruskals_generate_absent width height seed :
  width < 1 \/ height < 1 -> generate set_insert width height seed = Ok None.
Proof.
  intros Hbad. unfold generate.
  destruct (width <? 1) eqn:E1; [reflexivity |].
  destruct (height <? 1) eqn:E2; [reflexivity |]. lia.
Qed.

Lemma kruskals_start_post width height seed :
  is_u32 width -> is_u32 height -> 1 <= width -> 1 <= height ->
  post (fun st => KruskalInv (Z.to_nat width) (Z.to_nat height) (insert_keeps set_insert)
                    (st_maze st) (st_edges st) (st_buckets st))
       (bucket_overflow (Z.to_nat width) (Z.to_nat height))
       (start set_insert width height seed).
Proof.
  intros Hw Hh Hw1 Hh1. unfold start.
  destruct (Init_MazeInv (I := CellInfoBucket) false width height) as (g & -> & Hinv & _ & Hinfo).
  rewrite bind_Ok.
  set (W := Z.to_nat width) in *. set (H := Z.to_nat height) in *.
  unfold is_u32 in *.
  replace width with (Z.of_nat W) by (unfold W; lia).
  replace height with (Z.of_nat H) by (unfold H; lia).
  apply post_bind. eapply post_mono; [| intros e He; exact He |].
  2:{ apply (kruskals_fill_post W H g); try assumption; unfold W, H; lia. }
  intros [[[maze edges] buckets] nodeId] Hk. simpl in Hk. simpl. exact Hk.
Qed.

Lemma kruskals_generate_post width height seed :
  is_u32 width -> is_u32 height -> 1 <= width -> 1 <= height ->
  post (fun r => exists maze, r = Some maze /\
          shape (Z.to_nat width) (Z.to_nat height) maze /\
          (insert_keeps set_insert -> MazeInv (Z.to_nat width) (Z.to_nat height) maze))
       (bucket_overflow (Z.to_nat width) (Z.to_nat height))
       (generate set_insert width height seed).
Proof.
  intros Hw Hh Hw1 Hh1. unfold generate.
  destruct (width <? 1) eqn:E1; [lia |].
  destruct (height <? 1) eqn:E2; [lia |]. simpl.
  apply post_bind. eapply post_mono; [| intros e He; exact He |].
  2:{ apply (kruskals_start_post width height seed); assumption. }
  intros st Hk. simpl.
  apply post_bind. eapply post_mono; [| intros e He; exact He |].
  2:{ apply (kruskals_loop_post _ _ (insert_keeps set_insert) (length (st_edges st)) st);
        [exact Hk | lia]. }
  intros m Hm. simpl. eauto.
Qed.

End WithEdgeSet.
End KruskalsFacts.

(** ** Algebra of cell updates *)

Section UpdAlgebra.
Context {I : Type}.
Implicit Types (g : Grid I) (p q : Point) (f : Cell I -> Cell I) (c : Cell I).

Lemma upd_upd_eq g p f f' : upd (upd g p f) p f' = upd g p (f' ∘ f).
Proof.
  unfold upd. destruct (in_nat_range p); [| reflexivity]. simpl. f_equal.
  rewrite list_alter_alter_eq. apply list_alter_ext; [| reflexivity].
  intros col _. simpl. apply list_alter_alter_eq.
Qed.

Lemma upd_comm g p q f f' : p <> q -> upd (upd g p f) q f' = upd (upd g q f') p f.
Proof.
  intros Hne. unfold upd.
  destruct (in_nat_range p) eqn:Ep; destruct (in_nat_range q) eqn:Eq; simpl;
    rewrite ?Ep, ?Eq; try reflexivity.
  f_equal. unfold in_nat_range in Ep, Eq.
  apply andb_true_iff in Ep as [Ep1 Ep2]. apply andb_true_iff in Eq as [Eq1 Eq2].
  apply Z.leb_le in Ep1, Ep2, Eq1, Eq2.
  destruct (decide (Z.to_nat q.1 = Z.to_nat p.1)) as [Hx|Hx].
  - rewrite Hx, !list_alter_alter_eq. apply list_alter_ext; [| reflexivity].
    intros col _. simpl. apply list_alter_alter_ne.
    intros Hy. apply Hne. destruct p, q; simpl in *. f_equal; lia.
  - apply list_alter_alter_ne, Hx.
Qed.

Lemma upd_ext g p f f' : (forall c, f c = f' c) -> upd g p f = upd g p f'.
Proof.
  intros Hf. unfold upd. destruct (in_nat_range p); [| reflexivity]. f_equal.
  apply list_alter_ext; [| reflexivity]. intros col _.
  apply list_alter_ext; [| reflexivity]. intros c _. apply Hf.
Qed.

Lemma upd_id g p f : (forall c, cell_at g p = Some c -> f c = c) -> upd g p f = g.
Proof.
  intros Hf. unfold upd. destruct (in_nat_range p) eqn:Ep; [| reflexivity].
  destruct g as [d]. simpl. f_equal.
  transitivity (alter (fun col => col) (Z.to_nat p.1) d); [| apply list_alter_id; reflexivity].
  apply list_alter_ext; [| reflexivity]. intros col Hcol.
  transitivity (alter (fun c => c) (Z.to_nat p.2) col); [| apply list_alter_id; reflexivity].
  apply list_alter_ext; [| reflexivity]. intros c Hc. apply Hf.
  unfold cell_at. rewrite Ep. simpl. rewrite Hcol. exact Hc.
Qed.

Lemma conn_insert_idemp q c : conn_insert q (conn_insert q c) = conn_insert q c.
Proof. unfold conn_insert. simpl. f_equal. set_solver. Qed.

Lemma conn_erase_idemp q c : conn_erase q (conn_erase q c) = conn_erase q c.
Proof. unfold conn_erase. simpl. f_equal. set_solver. Qed.

Lemma conn_erase_absent q c : q ∉ connectedCells c -> conn_erase q c = c.
Proof. intros Hq. destruct c. unfold conn_erase. simpl in *. f_equal. set_solver. Qed.

Lemma upd_twice_idemp g p q f f' :
  (forall c, f (f c) = f c) -> (forall c, f' (f' c) = f' c) -> (p = q -> forall c, f c = f' c) ->
  upd (upd (upd (upd g p f) q f') p f) q f' = upd (upd g p f) q f'.
Proof.
  intros Hf Hf' Hsame. destruct (decide (p = q)) as [<-|Hne].
  - rewrite !upd_upd_eq. apply upd_ext. intros c. simpl.
    rewrite <- !(Hsame eq_refl), !Hf. reflexivity.
  - rewrite (upd_comm (upd g p f) q p f' f) by congruence.
    rewrite (upd_upd_eq g p f f), (upd_ext g p (f ∘ f) f) by (intros c; apply Hf).
    rewrite upd_upd_eq. apply upd_ext. intros c. apply Hf'.
Qed.

Lemma Connect_idempotent g a b : Connect (Connect g a b) a b = Connect g a b.
Proof.
  unfold Connect. apply upd_twice_idemp.
  - intros c. apply conn_insert_idemp.
  - intros c. apply conn_insert_idemp.
  - intros -> c. reflexivity.
Qed.

Lemma Disconnect_idempotent g a b : Disconnect (Disconnect g a b) a b = Disconnect g a b.
Proof.
  unfold Disconnect. apply upd_twice_idemp.
  - intros c. apply conn_erase_idemp.
  - intros c. apply conn_erase_idemp.
  - intros -> c. reflexivity.
Qed.

Lemma Disconnect_absent g a b :
  b ∉ connected_of g a -> a ∉ connected_of g b -> Disconnect g a b = g.
Proof.
  intros Hb Ha. unfold Disconnect.
  assert (H1 : upd g a (conn_erase b) = g).
  { apply upd_id. intros c Hc. apply conn_erase_absent.
    unfold connected_of in Hb. rewrite Hc in Hb. exact Hb. }
  rewrite H1. apply upd_id. intros c Hc. apply conn_erase_absent.
  unfold connected_of in Ha. rewrite Hc in Ha. exact Ha.
Qed.

(** *** Symmetry under every operation *)

Lemma Symmetric_Connect_list g a ns : Symmetric g -> Symmetric (Connect_list g a ns).
Proof.
  unfold Connect_list. destruct (length ns <? 1)%nat; [auto |].
  revert g. induction ns as [|n ns IH]; intros g Hg; simpl; [exact Hg |].
  apply IH. apply (Symmetric_Connect g a n Hg).
Qed.

Lemma Symmetric_DisconnectRow g origin idx width pathIdx :
  Symmetric g ->
  post Symmetric (fun _ => True) (DisconnectRow g origin idx width pathIdx).
Proof.
  intros Hg. unfold DisconnectRow.
  apply (for_post (fun _ g => Symmetric g) (fun _ => True)); [exact Hg |].
  intros x g' _ Hg'. destruct (x =? u8 pathIdx); [exact Hg' |].
  destruct (at_ g' (u32 (origin.1 + x)) (u32 (origin.2 + u8 idx))) as [a|];
    simpl; [| exact Logic.I].
  destruct (at_ g' _ _) as [b|]; simpl; [| exact Logic.I].
  apply Symmetric_Disconnect, Hg'.
Qed.

Lemma Symmetric_DisconnectCol g origin idx height pathIdx :
  Symmetric g ->
  post Symmetric (fun _ => True) (DisconnectCol g origin idx height pathIdx).
Proof.
  intros Hg. unfold DisconnectCol.
  apply (for_post (fun _ g => Symmetric g) (fun _ => True)); [exact Hg |].
  intros y g' _ Hg'. destruct (y =? u8 pathIdx); [exact Hg' |].
  destruct (at_ g' (u32 (origin.1 + u8 idx)) (u32 (origin.2 + y))) as [a|];
    simpl; [| exact Logic.I].
  destruct (at_ g' _ _) as [b|]; simpl; [| exact Logic.I].
  apply Symmetric_Disconnect, Hg'.
Qed.

Lemma Symmetric_apply_op g op g' :
  Symmetric g -> apply_op g op = Ok g' -> Symmetric g'.
Proof.
  intros Hg. destruct op; simpl.
  - intros [= <-]. apply Symmetric_Connect, Hg.
  - intros [= <-]. apply Symmetric_Connect_list, Hg.
  - intros [= <-]. apply Symmetric_Disconnect, Hg.
  - intros Hop. pose proof (Symmetric_DisconnectRow g origin idx width pathIdx Hg) as Hp.
    rewrite Hop in Hp. exact Hp.
  - intros Hop. pose proof (Symmetric_DisconnectCol g origin idx height pathIdx Hg) as Hp.
    rewrite Hop in Hp. exact Hp.
Qed.

End UpdAlgebra.

(** * The claims of the specification *)

Lemma Init_dimensions {I : Type} `{!DefaultCtor I} width height isConnected :
  is_u32 width -> is_u32 height ->
  exists g : Grid I, Init width height isConnected = Ok g /\
    Width g = width /\ Height g = (if width =? 0 then 0 else height).
Proof.
  intros Hw Hh. unfold is_u32 in *.
  destruct (Init_spec (I := I) isConnected width height) as (g & Hg & Hsh & _).
  exists g. split; [exact Hg |]. split.
  - rewrite (shape_Width _ _ _ Hsh); lia.
  - destruct (width =? 0) eqn:E.
    + apply Z.eqb_eq in E. subst width. destruct Hsh as (HW & _).
      unfold Height. destruct (data g); [reflexivity | discriminate].
    + apply Z.eqb_neq in E. rewrite (shape_Height _ _ _ Hsh); lia.
Qed.

Lemma MazeInv_dimensions {I : Type} width height (m : Grid I) :
  is_u32 width -> is_u32 height -> 1 <= width ->
  MazeInv (Z.to_nat width) (Z.to_nat height) m ->
  Width m = width /\ Height m = height.
Proof.
  intros Hw Hh Hw1 (Hsh & _). unfold is_u32 in *. split.
  - rewrite (shape_Width _ _ _ Hsh); lia.
  - rewrite (shape_Height _ _ _ Hsh); lia.
Qed.

Lemma shape_dimensions {I : Type} width height (m : Grid I) :
  is_u32 width -> is_u32 height -> 1 <= width ->
  shape (Z.to_nat width) (Z.to_nat height) m ->
  Width m = width /\ Height m = height.
Proof.
  intros Hw Hh Hw1 Hsh. unfold is_u32 in *. split.
  - rewrite (shape_Width _ _ _ Hsh); lia.
  - rewrite (shape_Height _ _ _ Hsh); lia.
Qed.

(** C6, as stated, fails: [Grid(5, 0)] is an empty grid whose [Width()] is
    5, not 0, and [Grid(0, 5)] was configured with height 5 and its
    [Height()] is 0. *)
Lemma C6_counterexample :
  (exists g : Grid CellInfoBase, Init 5 0 false = Ok g /\ Width g = 5 /\ Width g <> 0) /\
  (exists g : Grid CellInfoBase, Init 0 5 false = Ok g /\ Height g = 0 /\ Height g <> 5).
Proof.
  split.
  - eexists. split; [vm_compute; reflexivity |]. split; [reflexivity | discriminate].
  - eexists. split; [vm_compute; reflexivity |]. split; [reflexivity | discriminate].
Qed.

(** C6, amended: [Width()] is the configured width; [Height()] is the
    configured height when the width is not 0, and 0 when it is; every maze
    a generator returns on a valid input has [Width() == width] and
    [Height() == height]. *)
Theorem C6_Width_Height
    (I : Type) (ctor : DefaultCtor I) (addr : CellRef -> Z)
    (set_insert : Edge -> list Edge -> list Edge)
    (width height : Z) (isConnected : bool) (startPoint : Point) (seed : Z) :
  is_u32 width -> is_u32 height ->
  (exists g : Grid I, Init width height isConnected = Ok g /\
     Width g = width /\ Height g = (if width =? 0 then 0 else height)) /\
  (1 <= width -> 1 <= height ->
   (exists m, BinaryTree.generate width height seed = Ok (Some m) /\
      Width m = width /\ Height m = height) /\
   (exists m, Sidewinder.generate addr width height seed = Ok (Some m) /\
      Width m = width /\ Height m = height) /\
   (exists m, RecursiveDivision.generate width height seed = Ok (Some m) /\
      Width m = width /\ Height m = height) /\
   (is_u32 startPoint.1 -> is_u32 startPoint.2 ->
    startPoint.1 < width -> startPoint.2 < height ->
    exists m, Prims.generate addr width height startPoint seed = Ok (Some m) /\
      Width m = width /\ Height m = height) /\
   (forall m, Kruskals.generate set_insert width height seed = Ok (Some m) ->
      Width m = width /\ Height m = height)).
Proof.
  intros Hw Hh. split; [apply Init_dimensions; assumption |].
  intros Hw1 Hh1. split; [| split; [| split; [| split]]].
  - destruct (BinaryTreeFacts.bt_generate_spec width height seed) as (m & Hm & Hinv); try assumption.
    exists m. split; [exact Hm | eapply MazeInv_dimensions; eassumption].
  - destruct (SidewinderFacts.sw_generate_spec addr width height seed) as (m & Hm & Hinv);
      try assumption.
    exists m. split; [exact Hm | eapply MazeInv_dimensions; eassumption].
  - destruct (RecursiveDivisionFacts.rd_generate_spec width height seed) as (m & Hm & Hinv);
      try assumption.
    exists m. split; [exact Hm | eapply MazeInv_dimensions; eassumption].
  - intros Hs1 Hs2 Hsx Hsy.
    destruct (PrimsFacts.prims_generate_spec addr width height startPoint seed) as (m & Hm & Hinv);
      try assumption.
    exists m. split; [exact Hm | eapply MazeInv_dimensions; eassumption].
  - intros m Hm.
    pose proof (KruskalsFacts.kruskals_generate_post set_insert width height seed Hw Hh Hw1 Hh1) as Hp.
    rewrite Hm in Hp. destruct Hp as (m' & [= <-] & Hsh & _).
    eapply shape_dimensions; eassumption.
Qed.

Lemma C6_Width_Height_witness :
  (exists g : Grid CellInfoBase, Init 3 2 true = Ok g /\
     Width g = 3 /\ Height g = (if 3 =? 0 then 0 else 2)) /\
  (exists m, Prims.generate addr_allocation_order 3 2 (1, 1) 5 = Ok (Some m) /\
     Width m = 3 /\ Height m = 2) /\
  (forall m, Kruskals.generate Kruskals.ordered_insert 3 2 5 = Ok (Some m) ->
     Width m = 3 /\ Height m = 2).
Proof.
  destruct (C6_Width_Height CellInfoBase _ addr_allocation_order Kruskals.ordered_insert
              3 2 true (1, 1) 5) as [HInit Hgen]; [unfold is_u32; lia | unfold is_u32; lia |].
  destruct Hgen as (_ & _ & _ & HPrims & HKruskals); [lia | lia |].
  split; [exact HInit |]. split; [| exact HKruskals].
  apply HPrims; unfold is_u32; simpl; lia.
Defined.

Lemma ok_get_grid {I : Type} (r : result (Grid I)) :
  is_ok r = true -> r = Ok (get_grid r).
Proof. destruct r; [reflexivity | discriminate]. Qed.

Lemma reachable_run_ops {I : Type} `{!DefaultCtor I} (ops : list GridOp) :
  forall g g' : Grid I, reachable g -> run_ops g ops = Ok g' -> reachable g'.
Proof.
  induction ops as [|op ops IH]; intros g g' Hg; simpl.
  - intros [= <-]. exact Hg.
  - destruct (apply_op g op) as [g1|] eqn:E; simpl; [| discriminate].
    apply IH. eapply reachable_op; eassumption.
Qed.

Lemma reachable_run {I : Type} `{!DefaultCtor I} width height isConnected ops (g : Grid I) :
  (Init width height isConnected ≫= fun g0 => run_ops g0 ops) = Ok g -> reachable g.
Proof.
  destruct (Init width height isConnected) as [g0|] eqn:E; simpl; [| discriminate].
  apply reachable_run_ops. eapply reachable_Init, E.
Qed.

(** C7: every grid that the constructor and any sequence of [Connect],
    [Connect] to a list, [Disconnect], [DisconnectRow] and [DisconnectCol]
    produce has symmetric connection sets. *)
Theorem C7_symmetry_invariant (I : Type) (ctor : DefaultCtor I) (g : Grid I) :
  reachable g -> Symmetric g.
Proof.
  induction 1 as [width height isConnected g Hinit | g op g' Hreach IH Hop].
  - destruct (Init_spec (I := I) isConnected width height) as (g0 & Hg0 & _ & Hsym & _).
    rewrite Hinit in Hg0. injection Hg0 as ->. exact Hsym.
  - eapply Symmetric_apply_op; eassumption.
Qed.

Lemma C7_symmetry_invariant_witness : Symmetric (get_grid example_walls).
Proof.
  apply (C7_symmetry_invariant CellInfoBase _ (get_grid example_walls)).
  apply (reachable_run 3 3 true example_ops). apply ok_get_grid.
  vm_compute. reflexivity.
Defined.

(** C8: [Connect] and [Disconnect] are idempotent, and disconnecting a
    pair that is not connected changes nothing. *)
Theorem C8_idempotence (I : Type) (g : Grid I) (a b : CellRef) :
  Connect (Connect g a b) a b = Connect g a b /\
  Disconnect (Disconnect g a b) a b = Disconnect g a b /\
  ((b ∉ connected_of g a) /\ (a ∉ connected_of g b) -> Disconnect g a b = g).
Proof.
  split; [apply Connect_idempotent |].
  split; [apply Disconnect_idempotent |].
  intros [Hb Ha]. apply Disconnect_absent; assumption.
Qed.

Lemma ordered_insert_after_keeps prev e l x :
  x ∈ Kruskals.ordered_insert_after prev e l -> x = e \/ x ∈ l.
Proof.
  revert prev. induction l as [|q l IH]; intros prev; simpl.
  - destruct (Edge_lt prev e); [| intros Hx; inversion Hx].
    intros ->%list_elem_of_singleton. auto.
  - destruct (Edge_lt e q).
    + destruct (Edge_lt prev e); [| auto].
      intros [-> | Hx]%elem_of_cons; auto.
    + intros [-> | Hx]%elem_of_cons; [right; left |].
      destruct (IH _ Hx) as [-> | Hl]; [auto | right; right; exact Hl].
Qed.

Lemma ordered_insert_keeps : insert_keeps Kruskals.ordered_insert.
Proof.
  intros e l x. destruct l as [|q l]; simpl.
  - intros ->%list_elem_of_singleton. auto.
  - destruct (Edge_lt e q).
    + intros [-> | Hx]%elem_of_cons; auto.
    + intros [-> | Hx]%elem_of_cons; [right; left |].
      destruct (ordered_insert_after_keeps _ _ _ _ Hx) as [-> | Hl];
        [auto | right; right; exact Hl].
Qed.

(** What the generators return, for every input of their parameter types:
    the absent result exactly on the inputs their guard rejects, and a
    maze otherwise; Kruskal's may instead run out of its bucket table when
    [width * height] does not fit 32 bits. *)
Lemma generators_result (addr : CellRef -> Z)
    (set_insert : Edge -> list Edge -> list Edge)
    (width height : Z) (startPoint : Point) (seed : Z) :
  is_u32 width -> is_u32 height -> is_u32 startPoint.1 -> is_u32 startPoint.2 ->
  (width < 1 \/ height < 1 ->
   BinaryTree.generate width height seed = Ok None /\
   Sidewinder.generate addr width height seed = Ok None /\
   RecursiveDivision.generate width height seed = Ok None /\
   Kruskals.generate set_insert width height seed = Ok None) /\
  (width < 1 \/ height < 1 \/ width <= startPoint.1 \/ height <= startPoint.2 ->
   Prims.generate addr width height startPoint seed = Ok None) /\
  (1 <= width /\ 1 <= height ->
   (exists m, BinaryTree.generate width height seed = Ok (Some m)) /\
   (exists m, Sidewinder.generate addr width height seed = Ok (Some m)) /\
   (exists m, RecursiveDivision.generate width height seed = Ok (Some m)) /\
   ((exists m, Kruskals.generate set_insert width height seed = Ok (Some m)) \/
    (Kruskals.generate set_insert width height seed = Fault BucketOutOfRange /\
     2 ^ 32 <= width * height))) /\
  (1 <= width /\ 1 <= height /\ startPoint.1 < width /\ startPoint.2 < height ->
   exists m, Prims.generate addr width height startPoint seed = Ok (Some m)).
Proof.
  intros Hw Hh Hs1 Hs2. split; [| split; [| split]].
  - intros Hbad. split; [apply BinaryTreeFacts.bt_generate_absent, Hbad |].
    split; [apply SidewinderFacts.sw_generate_absent, Hbad |].
    split; [apply RecursiveDivisionFacts.rd_generate_absent, Hbad |].
    apply KruskalsFacts.kruskals_generate_absent, Hbad.
  - apply PrimsFacts.prims_generate_absent.
  - intros [Hw1 Hh1]. split; [| split; [| split]].
    + destruct (BinaryTreeFacts.bt_generate_spec width height seed) as (m & Hm & _); eauto.
    + destruct (SidewinderFacts.sw_generate_spec addr width height seed) as (m & Hm & _); eauto.
    + destruct (RecursiveDivisionFacts.rd_generate_spec width height seed) as (m & Hm & _); eauto.
    + pose proof (KruskalsFacts.kruskals_generate_post set_insert width height seed Hw Hh Hw1 Hh1) as Hp.
      destruct (Kruskals.generate set_insert width height seed) as [r|e]; simpl in Hp.
      * destruct Hp as (m & -> & _). eauto.
      * destruct Hp as [-> Hov]. right. split; [reflexivity |].
        unfold is_u32 in *. rewrite !Z2Nat.id in Hov by lia. exact Hov.
  - intros (Hw1 & Hh1 & Hsx & Hsy).
    destruct (PrimsFacts.prims_generate_spec addr width height startPoint seed) as (m & Hm & _); eauto.
Qed.

Lemma MazeInv_AdjacentCells {I : Type} W H (g : Grid I) :
  MazeInv W H g -> AdjacentCells g.
Proof.
  intros (_ & _ & Hcl & Hadj) a b Hb.
  split; [eapply elem_connected_is_cell, Hb |].
  split; [eapply Hcl, Hb |].
  pose proof (Hadj a b Hb) as Hab. unfold adjacent in Hab.
  split; [intros -> | exact Hab]. lia.
Qed.

(** C9: every connection of a maze returned by a generator links two
    orthogonally adjacent cells, [|a.x - b.x| + |a.y - b.y| = 1]; for
    Kruskal's this is for any edge container that only holds the edges
    inserted into it. *)
Theorem C9_connections_adjacent (addr : CellRef -> Z)
    (set_insert : Edge -> list Edge -> list Edge)
    (width height : Z) (startPoint : Point) (seed : Z) :
  is_u32 width -> is_u32 height -> 1 <= width -> 1 <= height ->
  (exists m, BinaryTree.generate width height seed = Ok (Some m) /\ AdjacentCells m) /\
  (exists m, Sidewinder.generate addr width height seed = Ok (Some m) /\ AdjacentCells m) /\
  (exists m, RecursiveDivision.generate width height seed = Ok (Some m) /\ AdjacentCells m) /\
  (is_u32 startPoint.1 -> is_u32 startPoint.2 ->
   startPoint.1 < width -> startPoint.2 < height ->
   exists m, Prims.generate addr width height startPoint seed = Ok (Some m) /\
     AdjacentCells m) /\
  (insert_keeps set_insert ->
   forall m, Kruskals.generate set_insert width height seed = Ok (Some m) ->
     AdjacentCells m).
Proof.
  intros Hw Hh Hw1 Hh1. split; [| split; [| split; [| split]]].
  - destruct (BinaryTreeFacts.bt_generate_spec width height seed) as (m & Hm & Hinv); try assumption.
    exists m. split; [exact Hm | eapply MazeInv_AdjacentCells, Hinv].
  - destruct (SidewinderFacts.sw_generate_spec addr width height seed) as (m & Hm & Hinv);
      try assumption.
    exists m. split; [exact Hm | eapply MazeInv_AdjacentCells, Hinv].
  - destruct (RecursiveDivisionFacts.rd_generate_spec width height seed) as (m & Hm & Hinv);
      try assumption.
    exists m. split; [exact Hm | eapply MazeInv_AdjacentCells, Hinv].
  - intros Hs1 Hs2 Hsx Hsy.
    destruct (PrimsFacts.prims_generate_spec addr width height startPoint seed) as (m & Hm & Hinv);
      try assumption.
    exists m. split; [exact Hm | eapply MazeInv_AdjacentCells, Hinv].
  - intros Hk m Hm.
    pose proof (KruskalsFacts.kruskals_generate_post set_insert width height seed Hw Hh Hw1 Hh1) as Hp.
    rewrite Hm in Hp. destruct Hp as (m' & [= <-] & _ & Hinv).
    eapply MazeInv_AdjacentCells, (Hinv Hk).
Qed.

Lemma C9_connections_adjacent_witness :
  (exists m, BinaryTree.generate 3 2 7 = Ok (Some m) /\ AdjacentCells m) /\
  (exists m, Prims.generate addr_allocation_order 3 2 (2, 1) 7 = Ok (Some m) /\
     AdjacentCells m) /\
  (forall m, Kruskals.generate Kruskals.ordered_insert 3 2 7 = Ok (Some m) ->
     AdjacentCells m).
Proof.
  destruct (C9_connections_adjacent addr_allocation_order Kruskals.ordered_insert
              3 2 (2, 1) 7) as (HBT & _ & _ & HPrims & HKruskals);
    [unfold is_u32; lia | unfold is_u32; lia | lia | lia |].
  split; [exact HBT |]. split; [| exact (HKruskals ordered_insert_keeps)].
  apply HPrims; unfold is_u32; simpl; lia.
Defined.

(** C10: no generator ever indexes the grid outside its bounds: on every
    input, valid or rejected, the embedding never takes the error branch
    of [maze[x][y]]. *)
Theorem C10_indexing_in_bounds (addr : CellRef -> Z)
    (set_insert : Edge -> list Edge -> list Edge)
    (width height : Z) (startPoint : Point) (seed : Z) :
  is_u32 width -> is_u32 height -> is_u32 startPoint.1 -> is_u32 startPoint.2 ->
  BinaryTree.generate width height seed <> Fault IndexOutOfRange /\
  Sidewinder.generate addr width height seed <> Fault IndexOutOfRange /\
  RecursiveDivision.generate width height seed <> Fault IndexOutOfRange /\
  Prims.generate addr width height startPoint seed <> Fault IndexOutOfRange /\
  Kruskals.generate set_insert width height seed <> Fault IndexOutOfRange.
Proof.
  intros Hw Hh Hs1 Hs2.
  destruct (generators_result addr set_insert width height startPoint seed Hw Hh Hs1 Hs2)
    as (Habs & Hpabs & Hval & Hpval).
  destruct (Z_lt_ge_dec width 1) as [Hlt|Hge1].
  { destruct (Habs (or_introl Hlt)) as (-> & -> & -> & ->).
    rewrite Hpabs by auto. repeat split; discriminate. }
  destruct (Z_lt_ge_dec height 1) as [Hlt|Hge2].
  { destruct (Habs (or_intror Hlt)) as (-> & -> & -> & ->).
    rewrite Hpabs by auto. repeat split; discriminate. }
  destruct Hval as ([m1 ->] & [m2 ->] & [m3 ->] & Hk); [lia |].
  split; [discriminate |]. split; [discriminate |]. split; [discriminate |]. split.
  - destruct (Z_le_gt_dec width startPoint.1) as [Hle|Hgt1];
      [rewrite Hpabs by auto; discriminate |].
    destruct (Z_le_gt_dec height startPoint.2) as [Hle|Hgt2];
      [rewrite Hpabs by auto; discriminate |].
    destruct Hpval as [m ->]; [lia | discriminate].
  - destruct Hk as [[m ->] | [-> _]]; discriminate.
Qed.

Lemma C10_indexing_in_bounds_witness :
  BinaryTree.generate 4 4 1 <> Fault IndexOutOfRange /\
  Sidewinder.generate addr_allocation_order 4 4 1 <> Fault IndexOutOfRange /\
  RecursiveDivision.generate 4 4 1 <> Fault IndexOutOfRange /\
  Prims.generate addr_allocation_order 4 4 (3, 0) 1 <> Fault IndexOutOfRange /\
  Kruskals.generate Kruskals.ordered_insert 4 4 1 <> Fault IndexOutOfRange.
Proof.
  apply (C10_indexing_in_bounds addr_allocation_order Kruskals.ordered_insert
           4 4 (3, 0) 1); unfold is_u32; simpl; lia.
Defined.

(** ** One iteration of Kruskal's loop *)

Module KruskalsStep.
Import Kruskals.

Lemma bucket_push_ok (buckets : Buckets) id p :
  0 <= id < Z.of_nat (length buckets) ->
  bucket_push buckets id p = Ok (alter (fun b => b ++ [p]) (Z.to_nat id) buckets).
Proof.
  intros Hid. unfold bucket_push, bucket_at.
  destruct (0 <=? id) eqn:E; [| apply Z.leb_gt in E; lia].
  destruct (lookup_lt_is_Some_2 buckets (Z.to_nat id)) as [b ->]; [lia |]. reflexivity.
Qed.

Lemma foldM_merge ToId from :
  forall (maze : Maze) (buckets : Buckets),
    0 <= ToId < Z.of_nat (length buckets) ->
    foldM (fun it '(maze, buckets) =>
             let maze := upd maze it (set_bucketId ToId) in
             buckets ← bucket_push buckets ToId it;
             Ok (maze, buckets)) from (maze, buckets) =
    Ok (relabel ToId from maze, alter (fun b => b ++ from) (Z.to_nat ToId) buckets).
Proof.
  induction from as [|it from IH]; intros maze buckets Hid; simpl.
  - unfold relabel. simpl. f_equal. f_equal. symmetry.
    apply list_alter_id. intros b. apply app_nil_r.
  - rewrite bucket_push_ok by exact Hid. rewrite bind_Ok, bind_Ok.
    rewrite IH by (rewrite length_alter; exact Hid).
    unfold relabel. simpl. f_equal. f_equal.
    rewrite list_alter_alter_eq. apply list_alter_ext; [| reflexivity].
    intros b _. simpl. rewrite <- app_assoc. reflexivity.
Qed.

Lemma MergeBucket_eq (maze : Maze) (buckets : Buckets) b1 b2 from :
  is_u32 b1 -> is_u32 b2 -> b1 <> b2 ->
  0 <= b2 < Z.of_nat (length buckets) ->
  buckets !! Z.to_nat b1 = Some from ->
  MergeBucket (maze, buckets) b1 b2 =
  Ok (relabel b2 from maze,
      <[Z.to_nat b1 := []]> (alter (fun b => b ++ from) (Z.to_nat b2) buckets)).
Proof.
  intros H1 H2 Hne Hb2 Hfrom. unfold MergeBucket.
  rewrite (u32_small b1 H1), (u32_small b2 H2).
  destruct (b1 =? b2) eqn:E; [apply Z.eqb_eq in E; contradiction |]. simpl.
  unfold is_u32 in H1.
  assert (Hat : forall bs : Buckets, length bs = length buckets ->
            exists b, bucket_at bs b1 = Ok b /\ (bs = buckets -> b = from)).
  { intros bs Hlen. unfold bucket_at.
    destruct (0 <=? b1) eqn:E0; [| apply Z.leb_gt in E0; lia].
    pose proof (lookup_lt_Some _ _ _ Hfrom) as Hlt.
    destruct (lookup_lt_is_Some_2 bs (Z.to_nat b1)) as [b Hb]; [lia |].
    rewrite Hb. exists b. split; [reflexivity |]. intros ->. congruence. }
  destruct (Hat buckets eq_refl) as (b & -> & Hb). rewrite (Hb eq_refl), bind_Ok.
  rewrite foldM_merge by exact Hb2. rewrite bind_Ok.
  destruct (Hat (alter (fun b => b ++ from) (Z.to_nat b2) buckets)) as (b' & -> & _);
    [apply length_alter |].
  reflexivity.
Qed.

Lemma connected_of_relabel ToId from (maze : Maze) q :
  connected_of (relabel ToId from maze) q = connected_of maze q.
Proof.
  unfold relabel. revert maze. induction from as [|it from IH]; intros maze; simpl;
    [reflexivity |].
  rewrite IH. apply connected_of_upd. reflexivity.
Qed.

Lemma is_cell_relabel ToId from (maze : Maze) q :
  is_cell (relabel ToId from maze) q <-> is_cell maze q.
Proof.
  unfold relabel. revert maze. induction from as [|it from IH]; intros maze; simpl;
    [reflexivity |].
  rewrite IH. apply is_cell_upd.
Qed.

Lemma bucket_of_relabel ToId from (maze : Maze) q :
  bucket_of (relabel ToId from maze) q =
  if decide (q ∈ from /\ is_cell maze q) then ToId else bucket_of maze q.
Proof.
  unfold relabel. revert maze. induction from as [|it from IH]; intros maze; simpl.
  - reflexivity.
  - rewrite IH, KruskalsFacts.bucket_of_upd.
    destruct (decide (q ∈ from /\ is_cell (upd maze it (set_bucketId ToId)) q))
      as [[Hq Hc]|Hn].
    + apply is_cell_upd in Hc.
      rewrite decide_True; [reflexivity |]. split; [right; exact Hq | exact Hc].
    + destruct (decide (it = q /\ is_cell maze q)) as [[-> Hc]|Hn'].
      * rewrite decide_True; [reflexivity |]. split; [left | exact Hc].
      * rewrite decide_False; [reflexivity |].
        intros [[-> | Hq]%elem_of_cons Hc]; [tauto |].
        apply Hn. split; [exact Hq | apply is_cell_upd, Hc].
Qed.

End KruskalsStep.

(** C4, as stated, fails.  On the 3 x 1 grid with seed 0 the second
    iteration draws the edge from (1,0) to (2,0): the bucket of its first
    end holds two cells (bucket 1), the bucket of its second end one cell
    (bucket 2).  The claim has the smaller bucket take the larger one's id,
    all three cells ending in bucket 1; the code gives all three the id 2
    of the smaller bucket. *)
Lemma C4_counterexample :
  kruskal_summary [(0, 0); (1, 0); (2, 0)]
    <$> value (Kruskals.start Kruskals.ordered_insert 3 1 0 ≫= Kruskals.steps 1)
  = Some ([0; 2; 1]%nat, [1; 1; 2], [mkEdge (1, 0) (2, 0)]) /\
  kruskal_summary [(0, 0); (1, 0); (2, 0)]
    <$> value (Kruskals.start Kruskals.ordered_insert 3 1 0 ≫= Kruskals.steps 2)
  = Some ([0; 0; 3]%nat, [2; 2; 2], []) /\
  [2; 2; 2] <> [1; 1; 1].
Proof.
  split; [vm_compute; reflexivity |]. split; [vm_compute; reflexivity | discriminate].
Qed.

(** C4, amended: an iteration removes the drawn edge from the pool in both
    cases; when its two ends carry the same bucket id nothing else changes;
    when they differ the two cells are connected and the bucket of the
    first end is merged into the bucket of the second end, whatever their
    sizes: its cells take the second end's bucket id and are appended to
    that bucket, and it is left empty. *)
Theorem C4_step_merges_first_into_second
    (st : Kruskals.state) (e : Edge) (from : list CellRef) (idx b1 b2 : Z) :
  idx = Kruskals.drawn_index st ->
  b1 = Kruskals.bucket_of (Kruskals.st_maze st) (first e) ->
  b2 = Kruskals.bucket_of (Kruskals.st_maze st) (second e) ->
  Kruskals.st_edges st !! Z.to_nat idx = Some e ->
  Kruskals.st_buckets st !! Z.to_nat b1 = Some from ->
  is_u32 b1 -> is_u32 b2 ->
  (Z.to_nat b2 < length (Kruskals.st_buckets st))%nat ->
  exists st', Kruskals.step st = Ok st' /\
    Kruskals.st_edges st' = delete (Z.to_nat idx) (Kruskals.st_edges st) /\
    (b1 = b2 ->
     Kruskals.st_maze st' = Kruskals.st_maze st /\
     Kruskals.st_buckets st' = Kruskals.st_buckets st) /\
    (b1 <> b2 ->
     (forall q, connected_of (Kruskals.st_maze st') q =
                connected_of (Connect (Kruskals.st_maze st) (first e) (second e)) q) /\
     (is_cell (Kruskals.st_maze st) (first e) ->
      second e ∈ connected_of (Kruskals.st_maze st') (first e)) /\
     (is_cell (Kruskals.st_maze st) (second e) ->
      first e ∈ connected_of (Kruskals.st_maze st') (second e)) /\
     (forall q, Kruskals.bucket_of (Kruskals.st_maze st') q =
                if decide (q ∈ from /\ is_cell (Kruskals.st_maze st) q) then b2
                else Kruskals.bucket_of (Kruskals.st_maze st) q) /\
     Kruskals.st_buckets st' =
       <[Z.to_nat b1 := []]>
         (alter (fun b => b ++ from) (Z.to_nat b2) (Kruskals.st_buckets st))).
Proof.
  intros Hidx Hb1 Hb2 He Hfrom Hu1 Hu2 Hlen.
  unfold Kruskals.step. unfold Kruskals.drawn_index in Hidx.
  destruct (MT19937.next (Kruskals.st_mt st)) as [r mt]. simpl in Hidx. subst idx.
  set (idx := r mod Z.of_nat (length (Kruskals.st_edges st))) in *.
  assert (Hpos : 0 <= idx).
  { pose proof (lookup_lt_Some _ _ _ He).
    apply Z.mod_pos_bound. lia. }
  assert (Hat : vec_at (Kruskals.st_edges st) idx = Ok e).
  { unfold vec_at. destruct (0 <=? idx) eqn:E; [| apply Z.leb_gt in E; lia].
    rewrite He. reflexivity. }
  rewrite Hat, bind_Ok. rewrite <- Hb1, <- Hb2.
  destruct (b1 =? b2) eqn:E.
  - apply Z.eqb_eq in E. rewrite bind_Ok. eexists. split; [reflexivity |]. simpl.
    split; [reflexivity |]. split; [auto | contradiction].
  - apply Z.eqb_neq in E.
    rewrite (KruskalsStep.MergeBucket_eq _ _ b1 b2 from); try assumption;
      [| unfold is_u32 in Hu2; lia].
    rewrite bind_Ok. eexists. split; [reflexivity |]. simpl.
    split; [reflexivity |]. split; [contradiction |]. intros _.
    assert (Hconn : forall q,
              connected_of (Kruskals.relabel b2 from
                 (Connect (Kruskals.st_maze st) (first e) (second e))) q =
              connected_of (Connect (Kruskals.st_maze st) (first e) (second e)) q)
      by (intros q; apply KruskalsStep.connected_of_relabel).
    split; [exact Hconn |].
    split; [intros Hc; rewrite Hconn, elem_of_connected_Connect; right; auto |].
    split; [intros Hc; rewrite Hconn, elem_of_connected_Connect; right; auto |].
    split; [| reflexivity].
    intros q. rewrite KruskalsStep.bucket_of_relabel, KruskalsFacts.bucket_of_Connect.
    destruct (decide (q ∈ from /\ is_cell (Connect (Kruskals.st_maze st) (first e) (second e)) q))
      as [[Hq Hc]|Hn].
    + apply is_cell_Connect in Hc. rewrite decide_True; [reflexivity | auto].
    + rewrite decide_False; [reflexivity |]. intros [Hq Hc]. apply Hn.
      split; [exact Hq | apply is_cell_Connect, Hc].
Qed.

Lemma C4_step_merges_first_into_second_witness :
  exists st', Kruskals.step example_state = Ok st' /\ Kruskals.st_edges st' = [].
Proof.
  destruct (C4_step_merges_first_into_second example_state (mkEdge (1, 0) (2, 0))
              [(1, 0); (0, 0)] 0 1 2) as (st' & Hstep & Hedges & _).
  - vm_compute. reflexivity.
  - vm_compute. reflexivity.
  - vm_compute. reflexivity.
  - vm_compute. reflexivity.
  - vm_compute. reflexivity.
  - unfold is_u32. lia.
  - unfold is_u32. lia.
  - replace (length (Kruskals.st_buckets example_state)) with 3%nat
      by (vm_compute; reflexivity). lia.
  - exists st'. split; [exact Hstep |]. rewrite Hedges. vm_compute. reflexivity.
Defined.

Lemma for_first_fault {St : Type} n lo (body : Z -> St -> result St) s e :
  (0 < n)%nat -> body lo s = Fault e -> for_ n lo body s = Fault e.
Proof. intros Hn Hb. destruct n; [lia |]. simpl. rewrite Hb. reflexivity. Qed.

(** C1 at a failing input: the Recursive-Division maze of 256 x 2 cells
    with seed 0 holds 766 connection edges, every edge of the grid, where
    a perfect maze has 256 * 2 - 1 = 511; the cells (0,0), (1,0), (1,1),
    (0,1) form a cycle.  The first cut is horizontal and [DisconnectRow]
    receives the width 256 in an 8-bit parameter. *)
Theorem C1_recursive_division_cycles :
  (fun m => (Width m, Height m, edge_count m,
             [bool_decide ((1, 0) ∈ connected_of m (0, 0));
              bool_decide ((1, 1) ∈ connected_of m (1, 0));
              bool_decide ((0, 1) ∈ connected_of m (1, 1));
              bool_decide ((0, 0) ∈ connected_of m (0, 1))]))
    <$> returned (RecursiveDivision.generate 256 2 0)
  = Some (256, 2, 766, [true; true; true; true]) /\
  766 <> 256 * 2 - 1.
Proof. split; [vm_compute; reflexivity | lia]. Qed.

(** C2 at a failing input: Kruskal's generator on 65536 x 65536 passes the
    guard and never returns a maze; [bucketCells] is sized by the 32-bit
    product [height * width], which is 0, and the first cell is pushed
    into a bucket that does not exist. *)
Theorem C2_kruskals_bucket_table_overflow
    (set_insert : Edge -> list Edge -> list Edge) (seed : Z) :
  Kruskals.generate set_insert 65536 65536 seed = Fault BucketOutOfRange.
Proof.
  unfold Kruskals.generate.
  change ((65536 <? 1) || (65536 <? 1)) with false. cbv iota.
  unfold Kruskals.start.
  destruct (Init_MazeInv (I := Kruskals.CellInfoBucket) false 65536 65536)
    as (g & -> & Hinv & _).
  rewrite bind_Ok.
  assert (HW : Z.of_nat (Z.to_nat 65536) = 65536) by lia.
  assert (Hfill : Kruskals.fill set_insert g 65536 65536 = Fault BucketOutOfRange).
  { unfold Kruskals.fill.
    apply for_first_fault.
    - rewrite (MazeInv_Width _ _ _ Hinv) by lia. lia.
    - cbv beta. apply for_first_fault.
      + cbn [fst]. rewrite (MazeInv_Height _ _ _ Hinv) by lia. lia.
      + unfold Kruskals.fill_cell.
        destruct (MazeInv_at _ _ g 0 0 Hinv) as [-> _]; [lia | lia |].
        rewrite bind_Ok.
        set (g1 := upd g (0, 0) (Kruskals.set_bucketId 0)).
        assert (Hinv1 : MazeInv (Z.to_nat 65536) (Z.to_nat 65536) g1)
          by apply KruskalsFacts.MazeInv_set_bucketId, Hinv.
        destruct (MazeInv_at _ _ g1 0 0 Hinv1) as [-> _]; [lia | lia |].
        rewrite bind_Ok.
        change (u32 (65536 * 65536)) with 0. reflexivity. }
  rewrite Hfill. reflexivity.
Qed.

(** C3 at a failing input: the same arguments give two different mazes
    under two layouts of the heap.  Prim's frontier and Sidewinder's run
    set are sets of cell pointers ordered by address, and the random index
    picks an element by its rank in that order. *)
Theorem C3_topology_depends_on_addresses :
  topology <$> returned (Prims.generate addr_allocation_order 2 2 (0, 0) 0)
    = Some [[[(0, 1); (1, 0)]; [(0, 0)]]; [[(0, 0); (1, 1)]; [(1, 0)]]] /\
  topology <$> returned (Prims.generate addr_reverse_order 2 2 (0, 0) 0)
    = Some [[[(0, 1)]; [(0, 0); (1, 1)]]; [[(1, 1)]; [(0, 1); (1, 0)]]] /\
  topology <$> returned (Sidewinder.generate addr_allocation_order 2 2 3)
    <> topology <$> returned (Sidewinder.generate addr_reverse_order 2 2 3).
Proof.
  split; [vm_compute; reflexivity |]. split; [vm_compute; reflexivity |].
  vm_compute. discriminate.
Qed.

(** C5 at a failing input: on the fully connected grid of 256 x 2 cells,
    [DisconnectRow] for the whole row 0 with the gap at 0 leaves every
    connection set as it was, and the cells (1,0) and (1,1) it had to sever
    stay connected; likewise [DisconnectCol] on 2 x 256.  On 300 x 2 with
    the gap at 299 only the first 44 pairs are visited and the gap is left
    at 43. *)
Theorem C5_wall_arguments_truncated :
  (let g := get_grid (Init (I := CellInfoBase) 256 2 true) in
   bool_decide (topology <$> value (DisconnectRow g (0, 0) 0 256 0) = Some (topology g))
     = true /\
   bool_decide ((1, 1) ∈ connected_of g (1, 0)) = true) /\
  (let g := get_grid (Init (I := CellInfoBase) 2 256 true) in
   bool_decide (topology <$> value (DisconnectCol g (0, 0) 0 256 0) = Some (topology g))
     = true /\
   bool_decide ((1, 1) ∈ connected_of g (0, 1)) = true) /\
  (fun g => [bool_decide ((42, 1) ∈ connected_of g (42, 0));
             bool_decide ((43, 1) ∈ connected_of g (43, 0));
             bool_decide ((44, 1) ∈ connected_of g (44, 0));
             bool_decide ((299, 1) ∈ connected_of g (299, 0))])
    <$> value (g ← Init (I := CellInfoBase) 300 2 true; DisconnectRow g (0, 0) 0 300 299)
  = Some [false; true; true; true].
Proof.
  split; [| split].
  - split; vm_compute; reflexivity.
  - split; vm_compute; reflexivity.
  - vm_compute. reflexivity.
Qed.

Lemma C8_idempotence_witness :
  Disconnect (get_grid example_walls) (0, 0) (2, 2) = get_grid example_walls.
Proof.
  refine (proj2 (proj2 (C8_idempotence CellInfoBase (get_grid example_walls)
                          (0, 0) (2, 2))) _).
  split.
  - apply (bool_decide_eq_false_1 ((2, 2) ∈ connected_of (get_grid example_walls) (0, 0))).
    vm_compute. reflexivity.
  - apply (bool_decide_eq_false_1 ((0, 0) ∈ connected_of (get_grid example_walls) (2, 2))).
    vm_compute. reflexivity.
Defined.

(** * Further properties of the grid *)

Section GridAlgebra.
Context {I : Type}.
Implicit Types (g : Grid I) (p q : Point) (c : Cell I).

Lemma Height_upd g p (f : Cell I -> Cell I) : Height (upd g p f) = Height g.
Proof.
  unfold Height, upd. destruct (in_nat_range p); [| reflexivity]. simpl.
  destruct (data g) as [|col l]; [reflexivity |].
  destruct (Z.to_nat p.1); simpl; [| reflexivity].
  rewrite length_alter. reflexivity.
Qed.

Lemma Width_upd g p (f : Cell I -> Cell I) : Width (upd g p f) = Width g.
Proof. unfold Width. rewrite data_upd_length. reflexivity. Qed.

Lemma cell_at_upd_ne g p (f : Cell I -> Cell I) q :
  p <> q -> cell_at (upd g p f) q = cell_at g q.
Proof. intros Hne. rewrite cell_at_upd. rewrite decide_False by exact Hne. reflexivity. Qed.

Lemma conn_erase_insert q c : q ∉ connectedCells c -> conn_erase q (conn_insert q c) = c.
Proof. intros Hq. destruct c. unfold conn_erase, conn_insert. simpl in *. f_equal. set_solver. Qed.

Lemma conn_insert_erase q c : q ∈ connectedCells c -> conn_insert q (conn_erase q c) = c.
Proof.
  intros Hq. destruct c as [x y s i]. unfold conn_erase, conn_insert. simpl in *. f_equal.
  apply set_eq. intros z. rewrite elem_of_union, elem_of_difference, elem_of_singleton.
  destruct (decide (z = q)) as [->|]; tauto.
Qed.

(** Two updates of one pair of cells, the second undoing the first. *)
Lemma upd_pair_undo g a b (fa fb ua ub : Cell I -> Cell I) :
  (a = b -> forall c, cell_at g a = Some c -> ub (ua (fb (fa c))) = c) ->
  (a <> b -> forall c, cell_at g a = Some c -> ua (fa c) = c) ->
  (a <> b -> forall c, cell_at g b = Some c -> ub (fb c) = c) ->
  upd (upd (upd (upd g a fa) b fb) a ua) b ub = g.
Proof.
  intros Hsame Ha Hb. destruct (decide (a = b)) as [<-|Hne].
  - rewrite !upd_upd_eq. apply upd_id. intros c Hc. simpl. apply (Hsame eq_refl c Hc).
  - rewrite (upd_comm (upd g a fa) b a fb ua) by congruence.
    rewrite (upd_upd_eq g a fa ua).
    rewrite (upd_id g a (ua ∘ fa)) by (intros c Hc; apply (Ha Hne c Hc)).
    rewrite upd_upd_eq. apply upd_id. intros c Hc. apply (Hb Hne c Hc).
Qed.

End GridAlgebra.

(** X1: [Connect] and [Disconnect] do not depend on the order of their two
    arguments. *)
Theorem Connect_Disconnect_arguments_commute (I : Type) (g : Grid I) (a b : CellRef) :
  Connect g a b = Connect g b a /\ Disconnect g a b = Disconnect g b a.
Proof.
  unfold Connect, Disconnect. destruct (decide (a = b)) as [->|Hne]; [split; reflexivity |].
  split; apply upd_comm; exact Hne.
Qed.

(** X2: round trips.  Disconnecting a pair just connected restores the grid
    when the pair was not connected before; connecting a pair just
    disconnected restores it when the pair was connected, each in the
    other's set. *)
Theorem Connect_Disconnect_round_trip (I : Type) (g : Grid I) (a b : CellRef) :
  ((b ∉ connected_of g a) /\ (a ∉ connected_of g b) ->
   Disconnect (Connect g a b) a b = g) /\
  (b ∈ connected_of g a /\ a ∈ connected_of g b ->
   Connect (Disconnect g a b) a b = g).
Proof.
  split.
  - intros [Hb Ha]. unfold Connect, Disconnect. apply upd_pair_undo.
    + intros <- c Hc. unfold connected_of in Hb. rewrite Hc in Hb.
      rewrite conn_insert_idemp, conn_erase_idemp. apply conn_erase_insert, Hb.
    + intros _ c Hc. unfold connected_of in Hb. rewrite Hc in Hb.
      apply conn_erase_insert, Hb.
    + intros _ c Hc. unfold connected_of in Ha. rewrite Hc in Ha.
      apply conn_erase_insert, Ha.
  - intros [Hb Ha]. unfold Connect, Disconnect. apply upd_pair_undo.
    + intros <- c Hc. unfold connected_of in Hb. rewrite Hc in Hb.
      rewrite conn_erase_idemp, conn_insert_idemp. apply conn_insert_erase, Hb.
    + intros _ c Hc. unfold connected_of in Hb. rewrite Hc in Hb.
      apply conn_insert_erase, Hb.
    + intros _ c Hc. unfold connected_of in Ha. rewrite Hc in Ha.
      apply conn_insert_erase, Ha.
Qed.

Lemma Connect_Disconnect_round_trip_witness :
  Disconnect (Connect (get_grid example_walls) (0, 0) (1, 0)) (0, 0) (1, 0)
    = get_grid example_walls /\
  Connect (Disconnect (get_grid example_walls) (2, 2) (2, 1)) (2, 2) (2, 1)
    = get_grid example_walls.
Proof.
  destruct (Connect_Disconnect_round_trip CellInfoBase (get_grid example_walls)
              (0, 0) (1, 0)) as [H1 _].
  destruct (Connect_Disconnect_round_trip CellInfoBase (get_grid example_walls)
              (2, 2) (2, 1)) as [_ H2].
  split.
  - apply H1. split.
    + apply (bool_decide_eq_false_1 ((1, 0) ∈ connected_of (get_grid example_walls) (0, 0))).
      vm_compute. reflexivity.
    + apply (bool_decide_eq_false_1 ((0, 0) ∈ connected_of (get_grid example_walls) (1, 0))).
      vm_compute. reflexivity.
  - apply H2. split.
    + apply (bool_decide_eq_true_1 ((2, 1) ∈ connected_of (get_grid example_walls) (2, 2))).
      vm_compute. reflexivity.
    + apply (bool_decide_eq_true_1 ((2, 2) ∈ connected_of (get_grid example_walls) (2, 1))).
      vm_compute. reflexivity.
Defined.

Lemma is_cell_Connect_list {I : Type} (g : Grid I) cell ns q :
  is_cell (Connect_list g cell ns) q <-> is_cell g q.
Proof.
  unfold Connect_list. destruct (length ns <? 1)%nat; [reflexivity |].
  revert g. induction ns as [|n ns IH]; intros g; simpl; [reflexivity |].
  rewrite IH, !is_cell_upd. reflexivity.
Qed.

(** X3: [Connect] of a cell to a list of neighbours adds, for every
    neighbour of the list, the neighbour to the cell's connection set and
    the cell to the neighbour's, and nothing else; with an empty list the
    grid is unchanged. *)
Theorem Connect_list_connections (I : Type) (g : Grid I) (cell : CellRef)
    (neighbours : list CellRef) (q r : CellRef) :
  Connect_list g cell [] = g /\
  (r ∈ connected_of (Connect_list g cell neighbours) q <->
   r ∈ connected_of g q \/
   (is_cell g q /\ ((q = cell /\ r ∈ neighbours) \/ (q ∈ neighbours /\ r = cell)))).
Proof.
  split; [reflexivity |].
  assert (Hfold : forall ns (g0 : Grid I),
    r ∈ connected_of
          (foldl (fun g it => upd (upd g cell (conn_insert it)) it (conn_insert cell))
                 g0 ns) q <->
    r ∈ connected_of g0 q \/
    (is_cell g0 q /\ ((q = cell /\ r ∈ ns) \/ (q ∈ ns /\ r = cell)))).
  { induction ns as [|n ns IH]; intros g0; simpl.
    - split; [auto |]. intros [H | (_ & [[_ H] | [H _]])]; [exact H | |]; inversion H.
    - rewrite IH. change (upd (upd g0 cell (conn_insert n)) n (conn_insert cell))
        with (Connect g0 cell n).
      rewrite elem_of_connected_Connect, is_cell_Connect, !elem_of_cons. naive_solver. }
  unfold Connect_list. destruct neighbours as [|n0 ns0]; [| apply Hfold].
  simpl. split; [auto |]. intros [H | (_ & [[_ H] | [H _]])]; [exact H | |]; inversion H.
Qed.

(** X4: [Connect] and [Disconnect] only touch the connection sets of their
    two cells: the dimensions, the payload of every cell, and every cell
    other than the two stay as they were. *)
Theorem Connect_Disconnect_frame (I : Type) (ctor : DefaultCtor I) (g : Grid I)
    (a b q : CellRef) :
  (Width (Connect g a b) = Width g /\ Height (Connect g a b) = Height g /\
   info_of (Connect g a b) q = info_of g q /\
   (q <> a -> q <> b -> cell_at (Connect g a b) q = cell_at g q)) /\
  (Width (Disconnect g a b) = Width g /\ Height (Disconnect g a b) = Height g /\
   info_of (Disconnect g a b) q = info_of g q /\
   (q <> a -> q <> b -> cell_at (Disconnect g a b) q = cell_at g q)).
Proof.
  split.
  - split; [unfold Connect; rewrite !Width_upd; reflexivity |].
    split; [unfold Connect; rewrite !Height_upd; reflexivity |].
    split; [apply info_of_Connect |].
    intros Ha Hb. unfold Connect. rewrite !cell_at_upd_ne by congruence. reflexivity.
  - split; [unfold Disconnect; rewrite !Width_upd; reflexivity |].
    split; [unfold Disconnect; rewrite !Height_upd; reflexivity |].
    split; [apply info_of_Disconnect |].
    intros Ha Hb. unfold Disconnect. rewrite !cell_at_upd_ne by congruence. reflexivity.
Qed.

Lemma Connect_Disconnect_frame_witness :
  cell_at (Connect (get_grid example_walls) (0, 0) (1, 0)) (2, 2)
    = cell_at (get_grid example_walls) (2, 2).
Proof.
  destruct (Connect_Disconnect_frame CellInfoBase _ (get_grid example_walls)
              (0, 0) (1, 0) (2, 2)) as [(_ & _ & _ & H) _].
  apply H; discriminate.
Defined.

(** X8: [Edge::operator<] only reads the first cell of each edge: two edges
    are equivalent for it (neither is less than the other) exactly when
    their first cells have the same coordinates, whatever their second
    cells; it is irreflexive, and it is not asymmetric. *)
Theorem Edge_lt_equivalence (e a : Edge) :
  (Edge_lt e a = false /\ Edge_lt a e = false <-> first e = first a) /\
  Edge_lt e e = false /\
  (exists e1 e2, Edge_lt e1 e2 = true /\ Edge_lt e2 e1 = true).
Proof.
  split; [| split].
  - unfold Edge_lt. destruct (first e) as [x1 y1], (first a) as [x2 y2]. simpl.
    rewrite !orb_false_iff, !Z.ltb_ge. split.
    + intros [[H1 H2] [H3 H4]]. f_equal; lia.
    + intros [= -> ->]. lia.
  - unfold Edge_lt. rewrite !Z.ltb_irrefl. reflexivity.
  - exists (mkEdge (0, 1) (1, 1)), (mkEdge (1, 0) (1, 1)). split; reflexivity.
Qed.

(** ** Counting passages *)

Lemma sum_list_with_zero {A : Type} (F : A -> nat) l :
  (forall x, x ∈ l -> F x = O) -> sum_list_with F l = O.
Proof.
  induction l as [|a l IH]; intros HF; simpl; [reflexivity |].
  rewrite (HF a) by left. rewrite IH; [reflexivity |].
  intros x Hx. apply HF. right. exact Hx.
Qed.

Section DegreeSum.
Context {I : Type}.
Implicit Types (g : Grid I).

Lemma grid_sum_zero (w : Cell I -> nat) g :
  (forall p c, cell_at g p = Some c -> w c = O) -> grid_sum w g = O.
Proof.
  intros Hw. unfold grid_sum. apply sum_list_with_zero. intros col Hcol.
  apply list_elem_of_lookup in Hcol as [i Hi].
  apply sum_list_with_zero. intros c Hc.
  apply list_elem_of_lookup in Hc as [j Hj].
  apply (Hw (Z.of_nat i, Z.of_nat j)). apply cell_at_Some. simpl.
  split; [lia |]. split; [lia |]. exists col. rewrite !Nat2Z.id. auto.
Qed.

Lemma degree_sum_empty g : (forall p, connected_of g p = ∅) -> degree_sum g = O.
Proof.
  intros He. apply grid_sum_zero. intros p c Hc.
  specialize (He p). unfold connected_of in He. rewrite Hc in He. rewrite He.
  apply size_empty.
Qed.

Lemma degree_sum_insert g a b :
  is_cell g a -> b ∉ connected_of g a ->
  degree_sum (upd g a (conn_insert b)) = S (degree_sum g).
Proof.
  intros [c Hc] Hb. unfold connected_of in Hb. rewrite Hc in Hb.
  pose proof (grid_sum_upd (fun c => size (connectedCells c)) g a (conn_insert b) c Hc)
    as Hs.
  unfold conn_insert in Hs. simpl in Hs.
  rewrite size_union in Hs by set_solver. rewrite size_singleton in Hs.
  unfold degree_sum, conn_insert. lia.
Qed.

(** A new passage is held by its two ends. *)
Lemma degree_sum_Connect g a b :
  is_cell g a -> is_cell g b -> a <> b ->
  b ∉ connected_of g a -> a ∉ connected_of g b ->
  degree_sum (Connect g a b) = S (S (degree_sum g)).
Proof.
  intros Ha Hb Hne Hba Hab. unfold Connect.
  rewrite degree_sum_insert.
  - rewrite degree_sum_insert by assumption. reflexivity.
  - apply is_cell_upd. exact Hb.
  - unfold connected_of. rewrite cell_at_upd_ne by exact Hne. exact Hab.
Qed.

Lemma degree_sum_erase g a b :
  is_cell g a -> b ∈ connected_of g a ->
  S (degree_sum (upd g a (conn_erase b))) = degree_sum g.
Proof.
  intros [c Hc] Hb. unfold connected_of in Hb. rewrite Hc in Hb.
  pose proof (grid_sum_upd (fun c => size (connectedCells c)) g a (conn_erase b) c Hc)
    as Hs.
  unfold conn_erase in Hs. simpl in Hs.
  assert (Hsz : size (connectedCells c) = S (size (connectedCells c ∖ {[b]}))).
  { rewrite (union_difference_L {[b]} (connectedCells c)) at 1 by set_solver.
    rewrite size_union by set_solver. rewrite size_singleton. reflexivity. }
  unfold degree_sum, conn_erase. lia.
Qed.

(** A removed passage was held by its two ends. *)
Lemma degree_sum_Disconnect g a b :
  is_cell g a -> is_cell g b -> a <> b ->
  b ∈ connected_of g a -> a ∈ connected_of g b ->
  S (S (degree_sum (Disconnect g a b))) = degree_sum g.
Proof.
  intros Ha Hb Hne Hba Hab. unfold Disconnect.
  rewrite degree_sum_erase.
  - apply degree_sum_erase; assumption.
  - apply is_cell_upd. exact Hb.
  - unfold connected_of. rewrite cell_at_upd_ne by exact Hne. exact Hab.
Qed.

Lemma degree_sum_push_back `{!DefaultCtor I} g x y col :
  0 <= x -> data g !! Z.to_nat x = Some col ->
  degree_sum (push_back_cell g x (new_cell x y)) = degree_sum g.
Proof.
  intros Hx Hcol. unfold degree_sum, grid_sum, push_back_cell. simpl.
  pose proof (sum_list_with_alter
                (sum_list_with (fun c : Cell I => size (connectedCells c)))
                (fun col => col ++ [new_cell x y]) _ _ _ Hcol) as Hs.
  cbv beta in Hs. rewrite sum_list_with_app in Hs.
  cbn [sum_list_with new_cell connectedCells] in Hs.
  rewrite size_empty in Hs. lia.
Qed.

End DegreeSum.

(** ** [Init] with [isConnected] set *)

Section InitConnected.
Context {I : Type} `{!DefaultCtor I}.
Implicit Types (g : Grid I) (p q : Point) (c : Cell I).

Lemma cell_at_push_back_new isc W H x y g :
  0 <= x < Z.of_nat W -> 0 <= y < Z.of_nat H ->
  InitInv isc W H x y g ->
  forall q, cell_at (push_back_cell g x (new_cell x y)) q =
            if decide (q = (x, y)) then Some (new_cell x y) else cell_at g q.
Proof.
  intros Hx Hy (Hsh & _). pose proof Hsh as (HW & HH & Hco).
  destruct (lookup_lt_is_Some_2 (data g) (Z.to_nat x)) as [col Hcol]; [lia |].
  assert (Hlen : Z.of_nat (length col) = y).
  { rewrite (HH _ _ Hcol). unfold init_lens.
    rewrite Z2Nat.id by lia. rewrite Z.ltb_irrefl, Z.eqb_refl. lia. }
  intros q. rewrite (cell_at_push_back g x _ q col) by (lia || exact Hcol).
  rewrite Hlen. reflexivity.
Qed.

(** One of the two guarded [Connect] calls of the loop body. *)
Lemma Init_connect_step W H x y g (guard : bool) bx by_ :
  InitInv true W H x (y + 1) g ->
  at_ g x y = Ok (x, y) -> is_cell g (x, y) ->
  (guard = true ->
   at_ g bx by_ = Ok (bx, by_) /\ is_cell g (bx, by_) /\ adjacent (x, y) (bx, by_)) ->
  exists g',
    (if guard then a ← at_ g x y; b ← at_ g bx by_; Ok (Connect g a b) else Ok g)
      = Ok g' /\
    InitInv true W H x (y + 1) g' /\
    (forall q, is_cell g' q <-> is_cell g q) /\
    (forall q r, r ∈ connected_of g' q <->
       r ∈ connected_of g q \/
       (guard = true /\ ((q = (x, y) /\ r = (bx, by_)) \/ (q = (bx, by_) /\ r = (x, y))))) /\
    g' = (if guard then Connect g (x, y) (bx, by_) else g).
Proof.
  intros Hinv Hat Hc Hg. destruct guard.
  - destruct (Hg eq_refl) as (Hatb & Hcb & Hadj). rewrite Hat. simpl. rewrite Hatb. simpl.
    eexists. split; [reflexivity |]. split; [| split; [| split]].
    + apply InitInv_Connect; assumption.
    + intros q. apply is_cell_Connect.
    + intros q r. rewrite elem_of_connected_Connect. naive_solver.
    + reflexivity.
  - exists g. split; [reflexivity |]. split; [exact Hinv |]. split; [reflexivity |].
    split; [| reflexivity]. intros q r. naive_solver.
Qed.

Lemma Init_cell_connected W H x y g :
  0 <= x < Z.of_nat W -> 0 <= y < Z.of_nat H ->
  InitInv true W H x y g -> FullyConnected g ->
  Z.of_nat (degree_sum g) = 2 * init_edges H x y ->
  post (fun g' => InitInv true W H x (y + 1) g' /\ FullyConnected g' /\
                  Z.of_nat (degree_sum g') = 2 * init_edges H x (y + 1))
       no_fault (Init_cell true x y g).
Proof.
  intros Hx Hy Hinv Hfull Hdeg. unfold Init_cell.
  pose proof (InitInv_push_back true W H x y g Hx Hy Hinv) as Hinv1.
  pose proof (cell_at_push_back_new true W H x y g Hx Hy Hinv) as Hat.
  assert (Hdeg1 : degree_sum (push_back_cell g x (new_cell x y)) = degree_sum g).
  { destruct Hinv as ((HW & _) & _).
    destruct (lookup_lt_is_Some_2 (data g) (Z.to_nat x)) as [col Hcol]; [lia |].
    apply (degree_sum_push_back g x y col); [lia | exact Hcol]. }
  set (g1 := push_back_cell g x (new_cell x y)) in *.
  assert (Hold : forall q, is_cell g q <->
            0 <= q.1 /\ 0 <= q.2 /\ (q.1 < x /\ q.2 < Z.of_nat H \/ q.1 = x /\ q.2 < y)).
  { intros q. destruct Hinv as (Hsh & _). rewrite (gshape_is_cell _ _ _ _ Hsh).
    unfold init_lens.
    destruct (Z.ltb_spec (Z.of_nat (Z.to_nat q.1)) x);
      [| destruct (Z.eqb_spec (Z.of_nat (Z.to_nat q.1)) x)]; lia. }
  assert (Hnew : ~ is_cell g (x, y)) by (rewrite Hold; simpl; lia).
  assert (Hconn : forall q, connected_of g1 q = connected_of g q).
  { intros q. unfold connected_of at 1. rewrite Hat.
    destruct (decide _) as [->|]; [| reflexivity].
    simpl. symmetry. apply not_cell_connected, Hnew. }
  assert (Hcell : forall q, is_cell g1 q <-> is_cell g q \/ q = (x, y)).
  { intros q. unfold is_cell. rewrite Hat.
    destruct (decide _); [split; eauto | split; [auto | intros [|]; tauto]]. }
  assert (Hcellat : forall g' i j, InitInv true W H x (y + 1) g' ->
            0 <= i <= x -> 0 <= j <= y -> (i = x \/ j = y) ->
            at_ g' i j = Ok (i, j) /\ is_cell g' (i, j)).
  { intros g' i j (Hsh & _) Hi Hj Hor.
    assert (0 <= j < Z.of_nat (init_lens H x (y + 1) (Z.to_nat i))).
    { unfold init_lens. rewrite Z2Nat.id by lia.
      destruct (i <? x) eqn:E; [lia |].
      assert (i = x) as -> by lia. rewrite Z.eqb_refl. lia. }
    split.
    - eapply gshape_at; [exact Hsh | lia | assumption].
    - rewrite (gshape_is_cell _ _ _ _ Hsh). simpl. lia. }
  assert (Hempty : connected_of g1 (x, y) = ∅).
  { rewrite Hconn. apply not_cell_connected, Hnew. }
  change (true && (0 <? x)) with (0 <? x). change (true && (0 <? y)) with (0 <? y).
  destruct (Init_connect_step W H x y g1 (0 <? x) (x - 1) y Hinv1)
    as (g2 & -> & Hinv2 & Hcell2 & Hconn2 & Hg2).
  { apply Hcellat; [exact Hinv1 | lia | lia | auto]. }
  { apply Hcellat; [exact Hinv1 | lia | lia | auto]. }
  { intros E. apply Z.ltb_lt in E.
    destruct (Hcellat g1 (x - 1) y Hinv1) as [? ?]; [lia | lia | auto |].
    split; [assumption |]. split; [assumption |]. unfold adjacent. simpl. lia. }
  simpl.
  destruct (Init_connect_step W H x y g2 (0 <? y) x (y - 1) Hinv2)
    as (g3 & -> & Hinv3 & Hcell3 & Hconn3 & Hg3).
  { apply Hcellat; [exact Hinv2 | lia | lia | auto]. }
  { apply Hcellat; [exact Hinv2 | lia | lia | auto]. }
  { intros E. apply Z.ltb_lt in E.
    destruct (Hcellat g2 x (y - 1) Hinv2) as [? ?]; [lia | lia | auto |].
    split; [assumption |]. split; [assumption |]. unfold adjacent. simpl. lia. }
  simpl. split; [exact Hinv3 |]. split.
  - intros a b. rewrite !Hcell3, !Hcell2, !Hcell, Hconn3, Hconn2, Hconn.
    rewrite !Z.ltb_lt. intros Ha Hb Hadj.
    destruct Ha as [Ha | ->]; destruct Hb as [Hb | ->].
    + left. left. apply Hfull; assumption.
    + apply Hold in Ha. destruct a as [a1 a2]. unfold adjacent in Hadj. simpl in *.
      assert (a1 = x - 1 /\ a2 = y /\ 0 < x \/ a1 = x /\ a2 = y - 1 /\ 0 < y) as Hc by lia.
      destruct Hc as [(-> & -> & ?) | (-> & -> & ?)]; [left; right | right]; auto.
    + apply Hold in Hb. destruct b as [b1 b2]. unfold adjacent in Hadj. simpl in *.
      assert (b1 = x - 1 /\ b2 = y /\ 0 < x \/ b1 = x /\ b2 = y - 1 /\ 0 < y) as Hc by lia.
      destruct Hc as [(-> & -> & ?) | (-> & -> & ?)]; [left; right | right]; auto.
    + unfold adjacent in Hadj. simpl in Hadj. lia.
  - assert (Hd2 : Z.of_nat (degree_sum g2) =
                  Z.of_nat (degree_sum g) + (if 0 <? x then 2 else 0)).
    { rewrite Hg2. destruct (Z.ltb_spec 0 x) as [Hx0|Hx0]; [| lia].
      destruct (Hcellat g1 x y Hinv1) as [_ Hc1]; [lia | lia | auto |].
      destruct (Hcellat g1 (x - 1) y Hinv1) as [_ Hc2]; [lia | lia | auto |].
      rewrite degree_sum_Connect; [lia | exact Hc1 | exact Hc2 | intros [=]; lia | |].
      - rewrite Hempty. set_solver.
      - intros Hin. destruct Hinv1 as (_ & Hsym & _).
        apply (Hsym (x, y) (x - 1, y) Hc1 Hc2) in Hin. rewrite Hempty in Hin. set_solver. }
    assert (Hd3 : Z.of_nat (degree_sum g3) =
                  Z.of_nat (degree_sum g2) + (if 0 <? y then 2 else 0)).
    { rewrite Hg3. destruct (Z.ltb_spec 0 y) as [Hy0|Hy0]; [| lia].
      destruct (Hcellat g2 x y Hinv2) as [_ Hc1]; [lia | lia | auto |].
      destruct (Hcellat g2 x (y - 1) Hinv2) as [_ Hc2]; [lia | lia | auto |].
      assert (Hfresh : (x, y - 1) ∉ connected_of g2 (x, y)).
      { rewrite Hconn2, Hempty. intros [Hin | (_ & [[_ [=]] | [[=] _]])]; [set_solver | lia | lia]. }
      rewrite degree_sum_Connect; [lia | exact Hc1 | exact Hc2 | intros [=]; lia | exact Hfresh |].
      intros Hin. destruct Hinv2 as (_ & Hsym & _).
      apply (Hsym (x, y) (x, y - 1) Hc1 Hc2) in Hin. exact (Hfresh Hin). }
    rewrite Hd3, Hd2, Hdeg. unfold init_edges.
    destruct (Z.ltb_spec 0 x); destruct (Z.ltb_spec 0 y); lia.
Qed.

Lemma Init_connected_post width height :
  post (fun g => InitInv true (Z.to_nat width) (Z.to_nat height)
                   (Z.of_nat (Z.to_nat width)) 0 g /\ FullyConnected g /\
                 Z.of_nat (degree_sum g) =
                   2 * init_edges (Z.to_nat height) (Z.of_nat (Z.to_nat width)) 0)
       no_fault (Init (I := I) width height true).
Proof.
  unfold Init.
  set (W := Z.to_nat width). set (H := Z.to_nat height).
  apply (for_post (fun x g => InitInv true W H x 0 g /\ FullyConnected g /\
                              Z.of_nat (degree_sum g) = 2 * init_edges H x 0)
           no_fault W 0).
  - split; [apply InitInv_start |]. split.
    + intros a b [c Hc]. apply cell_at_Some in Hc as (_ & _ & col & Hcol & Hc).
      simpl in Hcol. apply lookup_replicate in Hcol as [-> _]. discriminate.
    + rewrite degree_sum_empty; [reflexivity |].
      intros p. apply not_cell_connected.
      intros [c Hc]. apply cell_at_Some in Hc as (_ & _ & col & Hcol & Hc).
      simpl in Hcol. apply lookup_replicate in Hcol as [-> _]. discriminate.
  - intros x g Hx Hinv.
    pose proof (for_post (fun y g => InitInv true W H x y g /\ FullyConnected g /\
                                     Z.of_nat (degree_sum g) = 2 * init_edges H x y)
                  no_fault H 0 (Init_cell true x) g Hinv) as Hin.
    eapply post_mono; [| intros e He; exact He | apply Hin].
    + simpl. intros g' ((Hsh & Hrest) & Hfull & Hdeg). split; [| split; [exact Hfull |]].
      * split; [| exact Hrest].
        eapply gshape_ext; [| exact Hsh]. intros i _. apply init_lens_done.
      * rewrite Hdeg. unfold init_edges.
        destruct (Z.ltb_spec 0 x); destruct (Z.ltb_spec 0 (x + 1)); lia.
    + intros y g' Hy (Hinv' & Hfull' & Hdeg').
      apply Init_cell_connected; [lia | lia | assumption ..].
Qed.

End InitConnected.

(** X5: what the constructor builds.  [Init] never faults; the grid has
    [width] columns of [height] cells, each holding its own coordinates and
    a default payload; with [isConnected] set, two cells are connected
    exactly when they are orthogonal neighbours inside the grid, and
    without it no cell is connected to any other. *)
Theorem Init_connections (I : Type) (ctor : DefaultCtor I) (width height : Z)
    (isConnected : bool) :
  exists g : Grid I,
    Init width height isConnected = Ok g /\
    (forall p, is_cell g p <-> 0 <= p.1 < Z.of_nat (Z.to_nat width) /\
                               0 <= p.2 < Z.of_nat (Z.to_nat height)) /\
    (forall p c, cell_at g p = Some c -> (cell_x c, cell_y c) = p) /\
    (forall p, info_of g p = default_ctor) /\
    (forall a b, b ∈ connected_of g a <->
       isConnected = true /\ is_cell g a /\ is_cell g b /\ adjacent a b).
Proof.
  destruct (Init_spec (I := I) isConnected width height)
    as (g & Hg & Hsh & Hsym & Hcl & Hadj & Hemp & Hinf).
  exists g. split; [exact Hg |].
  split; [intros p; apply (shape_is_cell _ _ _ _ Hsh) |].
  split; [apply Hsh |]. split; [exact Hinf |].
  intros a b. destruct isConnected.
  - pose proof (Init_connected_post (I := I) width height) as Hpost.
    rewrite Hg in Hpost. destruct Hpost as (_ & Hfull & _). split.
    + intros Hin. split; [reflexivity |]. split; [| split].
      * destruct (cell_at g a) as [c|] eqn:E; [eexists; exact E |].
        unfold connected_of in Hin. rewrite E in Hin. set_solver.
      * eapply Hcl, Hin.
      * apply Hadj, Hin.
    + intros (_ & Ha & Hb & Hab). apply Hfull; assumption.
  - rewrite (Hemp eq_refl a). split; [set_solver | intros [[=] _]].
Qed.

(** ** Walls on a concrete grid *)

Lemma shape_Init_3_3 : shape 3 3 (get_grid (Init (I := CellInfoBase) 3 3 true)).
Proof.
  destruct (Init_spec (I := CellInfoBase) true 3 3) as (g & Hg & Hsh & _).
  rewrite Hg. exact Hsh.
Qed.

Lemma DisconnectRow_severs_witness :
  exists g', DisconnectRow (get_grid (Init (I := CellInfoBase) 3 3 true)) (0, 0) 0 3 1
               = Ok g' /\
    shape 3 3 g' /\
    forall a b, b ∈ connected_of g' a <->
      b ∈ connected_of (get_grid (Init (I := CellInfoBase) 3 3 true)) a /\
      ~ row_wall (0, 0) 0 3 1 a b.
Proof.
  apply (DisconnectRow_severs 3 3 _ (0, 0) 0 3 1 shape_Init_3_3); simpl; lia.
Defined.

Lemma DisconnectCol_severs_witness :
  exists g', DisconnectCol (get_grid (Init (I := CellInfoBase) 3 3 true)) (0, 1) 1 2 0
               = Ok g' /\
    shape 3 3 g' /\
    forall a b, b ∈ connected_of g' a <->
      b ∈ connected_of (get_grid (Init (I := CellInfoBase) 3 3 true)) a /\
      ~ col_wall (0, 1) 1 2 0 a b.
Proof.
  apply (DisconnectCol_severs 3 3 _ (0, 1) 1 2 0 shape_Init_3_3); simpl; lia.
Defined.

(** * Perfect mazes *)

(** ** Binary Tree *)

Module BinaryTreePerfect.
Import BinaryTree.

Lemma bt_GetNeighbours_eq W H (maze : Maze) x y :
  MazeInv W H maze -> Z.of_nat W < 2 ^ 32 -> Z.of_nat H < 2 ^ 32 ->
  0 <= x < Z.of_nat W -> 0 <= y < Z.of_nat H ->
  GetNeighbours maze (x, y) =
  Ok ((if 0 <? x then [(x - 1, y)] else []) ++ (if 0 <? y then [(x, y - 1)] else [])).
Proof.
  intros Hinv HW HH Hx Hy. unfold GetNeighbours. simpl.
  destruct (Z.ltb_spec 0 x) as [Hx0|Hx0].
  - rewrite (u32_small (x - 1)) by (unfold is_u32; lia).
    destruct (MazeInv_at W H maze (x - 1) y Hinv) as [-> _]; [lia | lia |]. simpl.
    destruct (Z.ltb_spec 0 y) as [Hy0|Hy0]; [| reflexivity].
    rewrite (u32_small (y - 1)) by (unfold is_u32; lia).
    destruct (MazeInv_at W H maze x (y - 1) Hinv) as [-> _]; [lia | lia |]. reflexivity.
  - simpl. destruct (Z.ltb_spec 0 y) as [Hy0|Hy0]; [| reflexivity].
    rewrite (u32_small (y - 1)) by (unfold is_u32; lia).
    destruct (MazeInv_at W H maze x (y - 1) Hinv) as [-> _]; [lia | lia |]. reflexivity.
Qed.

(** One visit: nothing at the first cell, and one passage to the west or
    the north neighbour at every other cell. *)
Lemma bt_visit_carves W H y x (maze : Maze) mt :
  MazeInv W H maze -> Z.of_nat W < 2 ^ 32 -> Z.of_nat H < 2 ^ 32 ->
  0 <= x < Z.of_nat W -> 0 <= y < Z.of_nat H ->
  exists maze' mt', visit y x (maze, mt) = Ok (maze', mt') /\
    ((x = 0 /\ y = 0 /\ maze' = maze) \/
     (exists n, west_or_north (x, y) n /\ is_cell maze n /\
        maze' = Connect maze (x, y) n)).
Proof.
  intros Hinv HW HH Hx Hy. unfold visit.
  destruct (MazeInv_at W H maze x y Hinv Hx Hy) as [-> Hc]. rewrite bind_Ok.
  rewrite (bt_GetNeighbours_eq W H maze x y Hinv HW HH Hx Hy). rewrite bind_Ok.
  assert (Hns : forall n,
            n ∈ (if 0 <? x then [(x - 1, y)] else []) ++
                (if 0 <? y then [(x, y - 1)] else []) ->
            west_or_north (x, y) n /\ is_cell maze n).
  { intros n [Hn | Hn]%elem_of_app.
    - destruct (Z.ltb_spec 0 x); [| inversion Hn].
      apply list_elem_of_singleton in Hn as ->. split; [left; reflexivity |].
      apply (MazeInv_at W H maze (x - 1) y Hinv); lia.
    - destruct (Z.ltb_spec 0 y); [| inversion Hn].
      apply list_elem_of_singleton in Hn as ->. split; [right; reflexivity |].
      apply (MazeInv_at W H maze x (y - 1) Hinv); lia. }
  destruct ((if 0 <? x then [(x - 1, y)] else []) ++
            (if 0 <? y then [(x, y - 1)] else [])) as [|n0 ns] eqn:E.
  - exists maze, mt. split; [reflexivity |]. left.
    destruct (Z.ltb_spec 0 x); [discriminate |].
    destruct (Z.ltb_spec 0 y); [discriminate |]. split; [lia |]. split; [lia | reflexivity].
  - destruct (MT19937.next mt) as [r mt'].
    destruct (vec_at_mod (A := CellRef) (n0 :: ns) r) as (n & Hvec & Hn); [discriminate |].
    exists (Connect maze (x, y) n), mt'. split.
    + exact (f_equal (fun v => v ≫= (fun n : CellRef => Ok (Connect maze (x, y) n, mt')))
                     Hvec).
    + right. exists n. destruct (Hns n Hn). auto.
Qed.

Lemma CarvedInv_visit W H y x (st : Maze * MT19937.state) :
  Z.of_nat W < 2 ^ 32 -> Z.of_nat H < 2 ^ 32 ->
  0 <= x < Z.of_nat W -> 0 <= y < Z.of_nat H ->
  CarvedInv W H x y st.1 ->
  post (fun st' => CarvedInv W H (x + 1) y st'.1) no_fault (visit y x st).
Proof.
  intros HW HH Hx Hy (Hinv & Hlinks & Hparent & Hdeg). destruct st as [maze mt].
  cbn [fst] in *.
  destruct (bt_visit_carves W H y x maze mt Hinv HW HH Hx Hy)
    as (maze' & mt' & Hv & Hcase).
  rewrite Hv. cbn [post fst]. clear Hv. destruct Hcase as [(-> & -> & ->) | (n & Hwn & Hcn & ->)].
  - split; [exact Hinv |]. split; [| split].
    + intros a b Hab. destruct (Hlinks a b Hab) as [[Hv Hp] | [Hv Hp]];
        unfold visited_before in *; [left | right]; (split; [lia | exact Hp]).
    + intros a Ha Hv Hne. apply Hparent; [exact Ha | | exact Hne].
      destruct Hinv as (Hsh & _). apply (shape_is_cell _ _ _ _ Hsh) in Ha.
      destruct a as [a1 a2]. unfold visited_before in *. simpl in *.
      assert (a1 <> 0 \/ a2 <> 0) by (destruct (decide (a1 = 0)); [right; congruence | auto]).
      lia.
    + rewrite Hdeg. lia.
  - pose proof (MazeInv_at W H maze x y Hinv Hx Hy) as [_ Hc].
    assert (Hxy : (x, y) <> n).
    { intros <-. destruct Hwn as [[=] | [=]]; lia. }
    assert (Hfresh : forall b, linked maze (x, y) b -> ~ west_or_north (x, y) b).
    { intros b Hb Hp. destruct (Hlinks _ _ Hb) as [[Hv _] | [_ Hq]].
      - unfold visited_before in Hv. simpl in Hv. lia.
      - destruct b as [b1 b2]. unfold west_or_north in *. simpl in *.
        destruct Hp as [[= -> ->] | [= -> ->]]; destruct Hq as [[=] | [=]]; lia. }
    assert (Hn1 : n ∉ connected_of maze (x, y)).
    { intros Hin. apply (Hfresh n Hin Hwn). }
    assert (Hn2 : (x, y) ∉ connected_of maze n).
    { intros Hin. apply Hn1. destruct Hinv as (_ & Hsym & _).
      apply (Hsym (x, y) n Hc Hcn). exact Hin. }
    assert (Hadj : adjacent (x, y) n).
    { unfold adjacent. destruct Hwn as [-> | ->]; simpl; lia. }
    split; [apply MazeInv_Connect; assumption |]. split; [| split].
    + intros a b. unfold linked. rewrite elem_of_connected_Connect.
      intros [Hab | (_ & [[-> ->] | [-> ->]])].
      * destruct (Hlinks a b Hab) as [[Hv Hp] | [Hv Hp]];
          unfold visited_before in *; [left | right]; (split; [lia | exact Hp]).
      * left. split; [unfold visited_before; simpl; lia | exact Hwn].
      * right. split; [unfold visited_before; simpl; lia | exact Hwn].
    + intros a. rewrite is_cell_Connect. intros Ha Hv Hne.
      destruct (decide (a = (x, y))) as [->|Ha'].
      * exists n. split; [| split; [exact Hwn |]].
        -- unfold linked. rewrite elem_of_connected_Connect. right. auto.
        -- intros b'. unfold linked. rewrite elem_of_connected_Connect.
           intros [Hb' | (_ & [[_ ->] | [E _]])] Hp; [| reflexivity | congruence].
           destruct (Hfresh b' Hb' Hp).
      * destruct (Hparent a Ha) as (b & Hb & Hp & Huniq); [| exact Hne |].
        { destruct a as [a1 a2]. unfold visited_before in *. simpl in *.
          assert (a1 <> x \/ a2 <> y)
            by (destruct (decide (a1 = x)); [right; congruence | auto]).
          lia. }
        exists b. split; [| split; [exact Hp |]].
        -- unfold linked. rewrite elem_of_connected_Connect. left. exact Hb.
        -- intros b'. unfold linked. rewrite elem_of_connected_Connect.
           intros [Hb' | (_ & [[E _] | [-> ->]])] Hp'; [auto | congruence |].
           exfalso. unfold west_or_north in *. simpl in *.
           destruct Hwn as [-> | ->]; simpl in *;
             destruct Hp' as [[=] | [=]]; lia.
    + rewrite (degree_sum_Connect maze (x, y) n) by assumption.
      assert (0 < y * Z.of_nat W + x); [| lia].
      destruct Hwn as [-> | ->]; apply (shape_is_cell _ _ _ _ (proj1 Hinv)) in Hcn;
        simpl in Hcn; nia.
Qed.

Lemma CarvedInv_next_row W H y (g : Maze) :
  CarvedInv W H (Z.of_nat W) y g -> CarvedInv W H 0 (y + 1) g.
Proof.
  intros (Hinv & Hlinks & Hparent & Hdeg).
  assert (Hv : forall a, is_cell g a ->
            (visited_before (Z.of_nat W) y a <-> visited_before 0 (y + 1) a)).
  { intros a Ha. apply (shape_is_cell _ _ _ _ (proj1 Hinv)) in Ha.
    unfold visited_before. lia. }
  split; [exact Hinv |]. split; [| split].
  - intros a b Hab.
    assert (is_cell g a) by (eapply elem_connected_is_cell, Hab).
    assert (is_cell g b) by (destruct Hinv as (_ & _ & Hcl & _); eapply Hcl, Hab).
    rewrite <- !Hv by assumption. apply Hlinks, Hab.
  - intros a Ha Hva Hne. apply Hparent; [exact Ha | apply Hv; assumption | exact Hne].
  - rewrite Hdeg. f_equal. f_equal. lia.
Qed.

Lemma bt_generate_carved width height seed :
  is_u32 width -> is_u32 height -> 1 <= width -> 1 <= height ->
  exists maze, generate width height seed = Ok (Some maze) /\
    CarvedInv (Z.to_nat width) (Z.to_nat height) 0 height maze.
Proof.
  intros Hw Hh Hw1 Hh1. unfold generate.
  destruct (width <? 1) eqn:E1; [lia |].
  destruct (height <? 1) eqn:E2; [lia |]. simpl.
  destruct (Init_MazeInv (I := CellInfoBase) false width height)
    as (g & -> & Hinv & Hemp & _).
  rewrite bind_Ok.
  set (W := Z.to_nat width) in *. set (H := Z.to_nat height) in *.
  unfold is_u32 in *.
  assert (HH : height = 0 + Z.of_nat H) by lia.
  apply (bind_elim _ _ (fun st => CarvedInv W H 0 (0 + Z.of_nat H) st.1)
           (fun r => exists maze, r = Ok (Some maze) /\ CarvedInv W H 0 height maze));
    [| intros st Hst; exists st.1; split; [reflexivity | rewrite HH; exact Hst]].
  apply (for_post (fun y st => CarvedInv W H 0 y st.1) no_fault H 0).
  - split; [exact Hinv |]. split; [| split].
    + intros a b. unfold linked. rewrite (Hemp eq_refl). set_solver.
    + intros a Ha Hv Hne. exfalso.
      apply (shape_is_cell _ _ _ _ (proj1 Hinv)) in Ha.
      unfold visited_before in Hv. lia.
    + simpl. rewrite (degree_sum_empty g (Hemp eq_refl)). lia.
  - intros y st Hy Hst.
    eapply post_mono; [| intros e He; exact He
      | apply (for_post (fun x st => CarvedInv W H x y st.1) no_fault W 0)].
    + intros st'. simpl. apply CarvedInv_next_row.
    + exact Hst.
    + intros x st' Hx Hst'. apply (CarvedInv_visit W H); try assumption; lia.
Qed.

End BinaryTreePerfect.

(** Parents lead to the first cell: a cell whose parent chain goes west or
    north ends at [(0, 0)]. *)
Lemma parents_reach_origin {I : Type} W H (g : Grid I) :
  MazeInv W H g ->
  (forall a, is_cell g a -> a <> (0, 0) ->
     exists b, linked g a b /\ (b.1 + b.2 < a.1 + a.2)) ->
  forall a, is_cell g a -> rtc (linked g) a (0, 0).
Proof.
  intros Hinv Hparent.
  assert (Hind : forall n a, is_cell g a -> a.1 + a.2 < Z.of_nat n ->
            rtc (linked g) a (0, 0)).
  { induction n as [|n IH]; intros a Ha Hn.
    - apply (shape_is_cell _ _ _ _ (proj1 Hinv)) in Ha. lia.
    - destruct (decide (a = (0, 0))) as [->|Hne]; [apply rtc_refl |].
      destruct (Hparent a Ha Hne) as (b & Hb & Hlt).
      apply (rtc_l _ _ b); [exact Hb |]. apply IH; [| lia].
      destruct Hinv as (_ & _ & Hcl & _). eapply Hcl, Hb. }
  intros a Ha. apply (Hind (S (Z.to_nat (a.1 + a.2))) a Ha). lia.
Qed.

(** X9: the Binary Tree generator returns a perfect maze.  On every valid
    input it returns a maze in which every passage leads from a cell to
    its west or its north neighbour, every cell but [(0, 0)] has exactly
    one such passage, there are [width * height - 1] passages, and every
    cell is joined to [(0, 0)] by a path: a spanning tree of the grid,
    rooted at the first cell. *)
Theorem BinaryTree_perfect_maze (width height seed : Z) :
  is_u32 width -> is_u32 height -> 1 <= width -> 1 <= height ->
  exists m, BinaryTree.generate width height seed = Ok (Some m) /\
    (forall a b, linked m a b -> west_or_north a b \/ west_or_north b a) /\
    (forall a, is_cell m a -> a <> (0, 0) -> exists b, only_parent m a b) /\
    edge_count m = width * height - 1 /\
    (forall a, is_cell m a -> rtc (linked m) a (0, 0)).
Proof.
  intros Hw Hh Hw1 Hh1.
  destruct (BinaryTreePerfect.bt_generate_carved width height seed Hw Hh Hw1 Hh1)
    as (m & Hm & Hinv & Hlinks & Hparent & Hdeg).
  assert (Hall : forall a, is_cell m a -> visited_before 0 height a).
  { intros a Ha. apply (shape_is_cell _ _ _ _ (proj1 Hinv)) in Ha.
    unfold visited_before. lia. }
  exists m. split; [exact Hm |]. split; [| split; [| split]].
  - intros a b Hab. destruct (Hlinks a b Hab) as [[_ Hp] | [_ Hp]]; auto.
  - intros a Ha Hne. apply Hparent; auto.
  - unfold edge_count. rewrite Hdeg. rewrite Z2Nat.id by lia.
    assert (1 <= height * width) by nia.
    rewrite Z.max_r by lia. rewrite Z.mul_comm, Z.div_mul by lia. lia.
  - apply (parents_reach_origin _ _ m Hinv). intros a Ha Hne.
    destruct (Hparent a Ha (Hall a Ha) Hne) as (b & Hb & Hp & _).
    exists b. split; [exact Hb |]. destruct Hp as [-> | ->]; simpl; lia.
Qed.

Lemma BinaryTree_perfect_maze_witness :
  exists m, BinaryTree.generate 4 3 1 = Ok (Some m) /\
    (forall a b, linked m a b -> west_or_north a b \/ west_or_north b a) /\
    (forall a, is_cell m a -> a <> (0, 0) -> exists b, only_parent m a b) /\
    edge_count m = 4 * 3 - 1 /\
    (forall a, is_cell m a -> rtc (linked m) a (0, 0)).
Proof. apply (BinaryTree_perfect_maze 4 3 1); unfold is_u32; lia. Defined.

(** ** Paths *)

Section Paths.
Context {I : Type}.
Implicit Types (g : Grid I).

Lemma connected_of_Connect_ne g a b p :
  p <> a -> p <> b -> connected_of (Connect g a b) p = connected_of g p.
Proof.
  intros Ha Hb. unfold connected_of, Connect.
  rewrite !cell_at_upd_ne by congruence. reflexivity.
Qed.

Lemma linked_Connect_mono g a b p q : linked g p q -> linked (Connect g a b) p q.
Proof. unfold linked. rewrite elem_of_connected_Connect. auto. Qed.

Lemma linked_Connect_new g a b :
  is_cell g a -> linked (Connect g a b) a b.
Proof. intros Ha. unfold linked. rewrite elem_of_connected_Connect. right. auto. Qed.

Lemma rtc_linked_Connect g a b p q :
  rtc (linked g) p q -> rtc (linked (Connect g a b)) p q.
Proof. apply rtc_subrel. intros u v. apply linked_Connect_mono. Qed.

Lemma linked_sym W H g a b : MazeInv W H g -> linked g a b -> linked g b a.
Proof.
  intros (_ & Hsym & Hcl & _) Hab. unfold linked in *.
  apply (Hsym a b); [eapply elem_connected_is_cell, Hab | eapply Hcl, Hab | exact Hab].
Qed.

Lemma chain_east g y n i :
  (forall j, i <= j < i + Z.of_nat n -> linked g (j, y) (j + 1, y)) ->
  rtc (linked g) (i, y) (i + Z.of_nat n, y).
Proof.
  revert i. induction n as [|n IH]; intros i Hl.
  - replace (i + Z.of_nat 0) with i by lia. apply rtc_refl.
  - apply (rtc_l _ _ (i + 1, y)); [apply Hl; lia |].
    replace (i + Z.of_nat (S n)) with (i + 1 + Z.of_nat n) by lia.
    apply IH. intros j Hj. apply Hl. lia.
Qed.

Lemma chain_west g y n i :
  (forall j, i <= j < i + Z.of_nat n -> linked g (j + 1, y) (j, y)) ->
  rtc (linked g) (i + Z.of_nat n, y) (i, y).
Proof.
  revert i. induction n as [|n IH]; intros i Hl.
  - replace (i + Z.of_nat 0) with i by lia. apply rtc_refl.
  - apply (rtc_r _ (i + 1, y)); [| apply Hl; lia].
    replace (i + Z.of_nat (S n)) with (i + 1 + Z.of_nat n) by lia.
    apply IH. intros j Hj. apply Hl. lia.
Qed.

(** The cells of a run are joined to each other. *)
Lemma run_connected W H g y s x i k :
  MazeInv W H g ->
  (forall j, s <= j < x -> linked g (j, y) (j + 1, y)) ->
  s <= i <= x -> s <= k <= x ->
  rtc (linked g) (i, y) (k, y).
Proof.
  intros Hinv Hl Hi Hk. destruct (Z_le_gt_dec i k) as [Hle|Hgt].
  - replace k with (i + Z.of_nat (Z.to_nat (k - i))) by lia.
    apply chain_east. intros j Hj. apply Hl. lia.
  - replace i with (k + Z.of_nat (Z.to_nat (i - k))) by lia.
    apply chain_west. intros j Hj. apply (linked_sym W H), Hl; [exact Hinv | lia].
Qed.

End Paths.

(** ** Sidewinder *)

Module SidewinderPerfect.
Import Sidewinder.

Section WithHeap.
Variable addr : CellRef -> Z.

(** One visit carves east, or closes the run with a passage north from one
    of its cells, or, at the end of the first row, does nothing. *)
Lemma sw_visit_carves W H y x (maze : Maze) mt runSet :
  MazeInv W H maze -> Z.of_nat W < 2 ^ 32 -> Z.of_nat H < 2 ^ 32 ->
  0 <= x < Z.of_nat W -> 0 <= y < Z.of_nat H ->
  (forall c, c ∈ runSet -> is_cell maze c /\ 0 < c.2) ->
  exists maze' mt' runSet',
    visit addr (Z.of_nat W) y x (maze, mt, runSet) = Ok (maze', mt', runSet') /\
    ((x + 1 < Z.of_nat W /\ maze' = Connect maze (x, y) (x + 1, y) /\
      forall c, c ∈ runSet' -> (c = (x, y) /\ 0 < y) \/ c ∈ runSet) \/
     (0 < y /\ runSet' = [] /\
      exists c, (c = (x, y) \/ c ∈ runSet) /\ maze' = Connect maze c (c.1, c.2 - 1)) \/
     (y = 0 /\ x + 1 = Z.of_nat W /\ maze' = maze /\ runSet' = runSet)).
Proof.
  intros Hinv HW HH Hx Hy Hrun. unfold visit.
  destruct (MazeInv_at W H maze x y Hinv Hx Hy) as [Hat Hc].
  set (rs := if 0 <? y then ptrset_insert addr (x, y) runSet else runSet).
  assert (Hrs0 : (if 0 <? y then c ← at_ maze x y; Ok (ptrset_insert addr c runSet)
                  else Ok runSet) = Ok rs).
  { unfold rs. destruct (0 <? y); [rewrite Hat |]; reflexivity. }
  rewrite Hrs0, bind_Ok. clear Hrs0.
  assert (Hrs : forall c, c ∈ rs -> (c = (x, y) /\ 0 < y) \/ c ∈ runSet).
  { intros c. unfold rs. destruct (Z.ltb_spec 0 y); [| auto].
    intros [-> | Hin]%elem_of_ptrset_insert; auto. }
  assert (Hne : 0 < y -> rs <> []).
  { intros Hy0. unfold rs. destruct (Z.ltb_spec 0 y); [| lia].
    apply ptrset_insert_nonempty. }
  assert (Hnorth : forall mt0, 0 < y ->
            exists (maze' : Maze) mt' (runSet' : list CellRef),
              (let '(r, mt1) := MT19937.next mt0 in
               cell ← vec_at rs (r mod Z.of_nat (length rs));
               north ← at_ maze cell.1 (u32 (cell.2 - 1));
               Ok (Connect maze cell north, mt1, ([] : list CellRef)))
                = Ok (maze', mt', runSet') /\
              0 < y /\ runSet' = [] /\
              exists c, (c = (x, y) \/ c ∈ runSet) /\
                        maze' = Connect maze c (c.1, c.2 - 1)).
  { intros mt0 Hy0. destruct (MT19937.next mt0) as [r mt1].
    destruct (vec_at_mod rs r (Hne Hy0)) as (c & -> & Hcin). rewrite bind_Ok.
    assert (Hcc : is_cell maze c /\ 0 < c.2).
    { destruct (Hrs c Hcin) as [[-> _] | Hin]; [split; [exact Hc | exact Hy0] | auto]. }
    destruct Hcc as [Hcc Hc2].
    pose proof (proj1 (shape_is_cell _ _ _ _ (proj1 Hinv)) Hcc) as [Hc1r Hc2r].
    rewrite u32_small by (unfold is_u32; lia).
    destruct (MazeInv_at W H maze c.1 (c.2 - 1) Hinv) as [-> Hn]; [lia | lia |].
    rewrite bind_Ok. eexists _, _, _. split; [reflexivity |].
    split; [exact Hy0 |]. split; [reflexivity |]. exists c. split; [| reflexivity].
    destruct (Hrs c Hcin) as [[-> _] | Hin]; auto. }
  destruct (u32 (x + 1) <? Z.of_nat W) eqn:Ee.
  - apply Z.ltb_lt in Ee.
    assert (Hx1 : u32 (x + 1) = x + 1) by (apply u32_small; unfold is_u32; lia).
    rewrite Hx1 in Ee.
    destruct (MT19937.next mt) as [r mt'].
    destruct ((r mod 2 =? 0) || (y =? 0)) eqn:Eeast.
    + rewrite Hat, bind_Ok, Hx1.
      destruct (MazeInv_at W H maze (x + 1) y Hinv) as [-> Hc']; [lia | lia |].
      rewrite bind_Ok. eexists _, _, _. split; [reflexivity |]. left. auto.
    + apply orb_false_iff in Eeast as [_ Ey0]. apply Z.eqb_neq in Ey0.
      destruct (Z.ltb_spec 0 y); [| lia].
      destruct (Hnorth mt') as (m' & mt1 & rs' & -> & Hrest); [lia |].
      eexists _, _, _. split; [reflexivity |]. right. left. exact Hrest.
  - apply Z.ltb_ge in Ee.
    assert (Hx1 : u32 (x + 1) = x + 1) by (apply u32_small; unfold is_u32; lia).
    rewrite Hx1 in Ee.
    destruct (Z.ltb_spec 0 y).
    + destruct (Hnorth mt) as (m' & mt1 & rs' & -> & Hrest); [lia |].
      eexists _, _, _. split; [reflexivity |]. right. left. exact Hrest.
    + eexists _, _, _. split; [reflexivity |]. right. right.
      unfold rs. destruct (Z.ltb_spec 0 y); [lia |].
      split; [lia |]. split; [lia |]. split; reflexivity.
Qed.

Lemma SidewinderInv_visit W H y x st :
  Z.of_nat W < 2 ^ 32 -> Z.of_nat H < 2 ^ 32 ->
  0 <= x < Z.of_nat W -> 0 <= y < Z.of_nat H ->
  SidewinderInv W H x y st ->
  post (SidewinderInv W H (x + 1) y) no_fault (visit addr (Z.of_nat W) y x st).
Proof.
  intros HW HH Hx Hy (Hinv & s & HS & HR & H1 & H3 & H7 & H8 & HC & HE).
  destruct st as [[maze mt] runSet]. cbn [fst snd] in *.
  pose proof (MazeInv_at W H maze x y Hinv Hx Hy) as [_ Hc].
  assert (Hcell : forall i j, 0 <= i < Z.of_nat W -> 0 <= j < Z.of_nat H ->
            is_cell maze (i, j)).
  { intros i j Hi Hj. apply (MazeInv_at W H maze i j Hinv Hi Hj). }
  destruct (sw_visit_carves W H y x maze mt runSet Hinv HW HH Hx Hy)
    as (maze' & mt' & rs' & Hv & Hcase).
  { intros c Hcin. destruct (HR c Hcin) as (Hc2 & Hc1 & Hy0).
    split; [| lia]. destruct c as [c1 c2]. simpl in *. apply Hcell; lia. }
  rewrite Hv. clear Hv. cbn [post].
  destruct Hcase as [(Hx1 & -> & Hrs) | [(Hy0 & -> & c & Hcin & ->) | (-> & Hx1 & -> & ->)]].
  - (* east *)
    assert (Hc' : is_cell maze (x + 1, y)) by (apply Hcell; lia).
    assert (He : connected_of maze (x + 1, y) = ∅).
    { apply H7; [unfold visited_before; simpl; lia | intros [=]; lia]. }
    split; cbn [fst snd].
    { apply MazeInv_Connect; [exact Hc | exact Hc' | | exact Hinv].
      unfold adjacent. simpl. lia. }
    exists s. split; [lia |]. split; [| split; [| split; [| split; [| split; [| split]]]]].
    + intros c Hcin. destruct (Hrs c Hcin) as [[-> ?] | Hin]; [simpl; lia |].
      destruct (HR c Hin) as (? & ? & ?). lia.
    + intros p Hp Hcond. apply rtc_linked_Connect. apply H1; [| exact Hcond].
      apply is_cell_Connect in Hp. exact Hp.
    + intros i Hi Hi1. destruct (decide (i = x)) as [->|Hne].
      * apply linked_Connect_new, Hc.
      * apply linked_Connect_mono, H3; lia.
    + intros p Hnv Hne. rewrite connected_of_Connect_ne.
      * apply H7; [unfold visited_before in *; lia |].
        intros ->. apply Hnv. unfold visited_before. simpl. lia.
      * intros ->. apply Hnv. unfold visited_before. simpl. lia.
      * exact Hne.
    + intros i Hi. rewrite elem_of_connected_Connect.
      intros [Hold | (_ & [[_ [=]] | [_ [=]]])]; [apply (H8 i Hi Hold) | lia | lia].
    + intros i Hi Hi1 Hvb. destruct (decide ((i, 0) = (x, y))) as [[= -> <-]|Hne].
      * apply linked_Connect_new, Hc.
      * apply linked_Connect_mono, HC; [lia | lia |].
        unfold visited_before in *. simpl in *.
        assert (i <> x \/ y <> 0) by (destruct (decide (i = x)); [right; congruence | auto]).
        lia.
    + rewrite degree_sum_Connect; [| exact Hc | exact Hc' | intros [=]; lia | |].
      * destruct (Z.eqb_spec y 0); lia.
      * intros Hin. destruct Hinv as (_ & Hsym & _).
        apply (Hsym (x, y) (x + 1, y) Hc Hc') in Hin. rewrite He in Hin. set_solver.
      * rewrite He. set_solver.
  - (* north *)
    assert (Hcr : c.2 = y /\ s <= c.1 <= x).
    { destruct Hcin as [-> | Hin]; [simpl; lia |]. destruct (HR c Hin) as (? & ? & ?). lia. }
    destruct c as [ci cy]. simpl in Hcr. destruct Hcr as [-> Hci]. cbn [fst snd].
    assert (Hcc : is_cell maze (ci, y)) by (apply Hcell; lia).
    assert (Hcn : is_cell maze (ci, y - 1)) by (apply Hcell; lia).
    split; cbn [fst snd].
    { apply MazeInv_Connect; [exact Hcc | exact Hcn | | exact Hinv].
      unfold adjacent. simpl. lia. }
    exists (x + 1). split; [lia |].
    split; [| split; [| split; [| split; [| split; [| split]]]]].
    + intros c Hc0. inversion Hc0.
    + intros p Hp Hcond. apply is_cell_Connect in Hp.
      destruct (decide (p.2 < y \/ (p.2 = y /\ p.1 < s))) as [Hold|Hnew].
      * apply rtc_linked_Connect. apply H1; assumption.
      * destruct p as [pi py]. simpl in *.
        assert (py = y /\ s <= pi <= x) as [-> Hpi] by lia.
        transitivity (ci, y).
        { apply rtc_linked_Connect. apply (run_connected W H maze y s x); try assumption.
          intros j Hj. apply H3; lia. }
        apply (rtc_l _ _ (ci, y - 1)); [apply linked_Connect_new, Hcc |].
        apply rtc_linked_Connect. apply H1; [exact Hcn | simpl; lia].
    + intros i Hi. lia.
    + intros p Hnv Hne. rewrite connected_of_Connect_ne.
      * apply H7; [unfold visited_before in *; lia |].
        intros ->. apply Hnv. unfold visited_before. simpl. lia.
      * intros ->. apply Hnv. unfold visited_before. simpl. lia.
      * intros ->. apply Hnv. unfold visited_before. simpl. lia.
    + intros i Hi. rewrite elem_of_connected_Connect.
      intros [Hold | (_ & [[[=] _] | [[=] _]])]; [| lia | lia].
      apply (H8 i); [lia | exact Hold].
    + intros i Hi Hi1 Hvb. apply linked_Connect_mono, HC; [lia | lia |].
      unfold visited_before in *. simpl in *. lia.
    + rewrite degree_sum_Connect; [| exact Hcc | exact Hcn | intros [=]; lia | |].
      * destruct (Z.eqb_spec y 0); lia.
      * apply H8. lia.
      * intros Hin. destruct Hinv as (_ & Hsym & _).
        apply (Hsym (ci, y) (ci, y - 1) Hcc Hcn) in Hin. exact (H8 ci (proj1 Hci) Hin).
  - (* the last cell of the first row *)
    split; [exact Hinv |]. cbn [fst snd].
    exists s. split; [lia |]. split; [| split; [| split; [| split; [| split; [| split]]]]].
    + intros c Hcin. destruct (HR c Hcin) as (? & ? & ?). lia.
    + exact H1.
    + intros i Hi Hi1. apply H3; lia.
    + intros p Hnv Hne. apply H7; [unfold visited_before in *; lia |].
      intros ->. apply Hnv. unfold visited_before. simpl. lia.
    + exact H8.
    + intros i Hi Hi1 Hvb. apply HC; [lia | lia |].
      unfold visited_before in *. simpl in *. lia.
    + rewrite HE. simpl. lia.
Qed.

(** From the end of a row to the start of the next. *)
Lemma SidewinderInv_next_row W H y st :
  (1 <= W)%nat -> 0 <= y ->
  SidewinderInv W H (Z.of_nat W) y st ->
  SidewinderInv W H 0 (y + 1) (st.1, []).
Proof.
  intros HW1 Hy (Hinv & s & HS & HR & H1 & H3 & H7 & H8 & HC & HE).
  destruct st as [[maze mt] runSet]. cbn [fst snd] in *.
  split; [exact Hinv |]. cbn [fst snd].
  exists 0. split; [lia |]. split; [| split; [| split; [| split; [| split; [| split]]]]].
  - intros c Hc0. inversion Hc0.
  - intros p Hp Hcond.
    pose proof (proj1 (shape_is_cell _ _ _ _ (proj1 Hinv)) Hp) as [Hp1 Hp2].
    destruct (decide (p.2 < y \/ (p.2 = y /\ p.1 < s))) as [Hold|Hnew].
    { apply H1; assumption. }
    destruct p as [pi py]. simpl in *.
    assert (py = 0 /\ y = 0 /\ s = 0) as (-> & -> & ->) by lia.
    replace pi with (0 + Z.of_nat (Z.to_nat pi)) by lia.
    apply chain_west. intros j Hj. apply (linked_sym W H); [exact Hinv |].
    apply H3; lia.
  - intros i Hi. lia.
  - intros p Hnv Hne. apply H7.
    + unfold visited_before in *. lia.
    + intros ->. apply Hnv. unfold visited_before. simpl. lia.
  - intros i Hi. rewrite H7; [set_solver | unfold visited_before; simpl; lia |].
    intros [=]. lia.
  - intros i Hi Hi1 _. apply HC; [lia | lia |]. unfold visited_before. simpl. lia.
  - rewrite HE. destruct (Z.eqb_spec y 0); destruct (Z.eqb_spec (y + 1) 0); lia.
Qed.

Lemma SidewinderInv_row W H y st :
  Z.of_nat W < 2 ^ 32 -> Z.of_nat H < 2 ^ 32 -> (1 <= W)%nat -> 0 <= y < Z.of_nat H ->
  SidewinderInv W H 0 y st ->
  post (SidewinderInv W H 0 (y + 1)) no_fault (row addr (Z.of_nat W) y st).
Proof.
  intros HW HH HW1 Hy Hinv. unfold row. rewrite Nat2Z.id. apply post_bind.
  eapply post_mono;
    [| intros e He; exact He
     | apply (for_post (fun x st => SidewinderInv W H x y st) no_fault W 0
                (visit addr (Z.of_nat W) y) st Hinv)].
  - intros st' Hst'. cbn [post]. apply SidewinderInv_next_row; [exact HW1 | lia | exact Hst'].
  - intros x st' Hx Hst'. apply SidewinderInv_visit; try assumption; lia.
Qed.

Lemma sw_generate_carved width height seed :
  is_u32 width -> is_u32 height -> 1 <= width -> 1 <= height ->
  exists st,
    generate addr width height seed = Ok (Some st.1.1) /\
    SidewinderInv (Z.to_nat width) (Z.to_nat height) 0 height st.
Proof.
  intros Hw Hh Hw1 Hh1. unfold generate.
  destruct (width <? 1) eqn:E1; [lia |].
  destruct (height <? 1) eqn:E2; [lia |]. simpl.
  destruct (Init_MazeInv (I := CellInfoBase) false width height)
    as (g & -> & Hinv & Hemp & _).
  rewrite bind_Ok.
  set (W := Z.to_nat width) in *. set (H := Z.to_nat height) in *.
  unfold is_u32 in *.
  replace width with (Z.of_nat W) by (unfold W; lia).
  assert (HH : height = 0 + Z.of_nat H) by (unfold H; lia).
  apply (bind_elim _ _ (fun st => SidewinderInv W H 0 (0 + Z.of_nat H) st)
           (fun r => exists st, r = Ok (Some st.1.1) /\ SidewinderInv W H 0 height st)).
  2:{ intros st Hst. exists st. split; [reflexivity |]. rewrite HH. exact Hst. }
  apply (for_post (fun y st => SidewinderInv W H 0 y st) no_fault H 0).
  - split; [exact Hinv |]. cbn [fst snd].
    exists 0. split; [lia |]. split; [| split; [| split; [| split; [| split; [| split]]]]].
    + intros c Hc0. inversion Hc0.
    + intros p Hp Hcond. apply (shape_is_cell _ _ _ _ (proj1 Hinv)) in Hp. lia.
    + intros i Hi. lia.
    + intros p _ _. apply (Hemp eq_refl).
    + intros i _. rewrite (Hemp eq_refl). set_solver.
    + intros i Hi _ Hvb. unfold visited_before in Hvb. simpl in Hvb. lia.
    + rewrite (degree_sum_empty g (Hemp eq_refl)). simpl. lia.
  - intros y st Hy Hst. apply (SidewinderInv_row W H y st); try assumption; lia.
Qed.

End WithHeap.
End SidewinderPerfect.

(** X10: the Sidewinder generator returns a perfect maze, whatever the
    addresses of the cells.  On every valid input it returns a maze whose
    first row is one corridor, that has [width * height - 1] passages, and
    in which every cell is joined to [(0, 0)] by a path: a spanning tree of
    the grid. *)
Theorem Sidewinder_perfect_maze (addr : CellRef -> Z) (width height seed : Z) :
  is_u32 width -> is_u32 height -> 1 <= width -> 1 <= height ->
  exists m, Sidewinder.generate addr width height seed = Ok (Some m) /\
    (forall i, 0 <= i -> i + 1 < width -> linked m (i, 0) (i + 1, 0)) /\
    edge_count m = width * height - 1 /\
    (forall a, is_cell m a -> rtc (linked m) a (0, 0)).
Proof.
  intros Hw Hh Hw1 Hh1.
  destruct (SidewinderPerfect.sw_generate_carved addr width height seed Hw Hh Hw1 Hh1)
    as ([[m mt] rs] & Hm & Hinv & s & HS & HR & H1 & H3 & H7 & H8 & HC & HE).
  cbn [fst snd] in *. unfold is_u32 in *.
  exists m. split; [exact Hm |]. split; [| split].
  - intros i Hi Hi1. apply HC; [exact Hi | lia |]. unfold visited_before. simpl. lia.
  - unfold edge_count. rewrite HE. destruct (Z.eqb_spec height 0); [lia |].
    rewrite Z2Nat.id by lia.
    rewrite Z.mul_comm, Z.div_mul by lia. lia.
  - intros a Ha. apply H1; [exact Ha |].
    apply (shape_is_cell _ _ _ _ (proj1 Hinv)) in Ha. lia.
Qed.

Lemma Sidewinder_perfect_maze_witness :
  exists m, Sidewinder.generate addr_allocation_order 4 3 1 = Ok (Some m) /\
    (forall i, 0 <= i -> i + 1 < 4 -> linked m (i, 0) (i + 1, 0)) /\
    edge_count m = 4 * 3 - 1 /\
    (forall a, is_cell m a -> rtc (linked m) a (0, 0)).
Proof.
  apply (Sidewinder_perfect_maze addr_allocation_order 4 3 1); unfold is_u32; lia.
Defined.

(** ** Recursive Division *)

(** A wall across a block in which every cell is connected to its
    neighbours removes one passage for each of its cells but the gap. *)

Section WallCount.
Context {I : Type}.
Implicit Types (g : Grid I).

Lemma DisconnectRow_count W H g origin idx width pathIdx :
  MazeInv W H g -> Z.of_nat W < 2 ^ 32 -> Z.of_nat H < 2 ^ 32 ->
  0 <= origin.1 -> 0 <= origin.2 ->
  0 <= idx < 2 ^ 8 -> 0 <= width < 2 ^ 8 -> 0 <= pathIdx < width ->
  origin.1 + width <= Z.of_nat W -> origin.2 + idx + 1 < Z.of_nat H ->
  (forall x, 0 <= x < width ->
     linked g (origin.1 + x, origin.2 + idx) (origin.1 + x, origin.2 + idx + 1)) ->
  exists g', DisconnectRow g origin idx width pathIdx = Ok g' /\
    MazeInv W H g' /\
    (forall a b, linked g' a b <->
       linked g a b /\ ~ row_wall origin idx width pathIdx a b) /\
    Z.of_nat (degree_sum g') + 2 * (width - 1) = Z.of_nat (degree_sum g).
Proof.
  intros Hinv HW HH Ho1 Ho2 Hidx Hwd Hp Hfit1 Hfit2 Hfull.
  apply post_ok. unfold DisconnectRow.
  rewrite (u8_small idx Hidx), (u8_small width Hwd), (u8_small pathIdx) by lia.
  eapply post_mono; [| intros e He; exact He |].
  2:{ apply (for_post (fun i g' => MazeInv W H g' /\
                 (forall a b, linked g' a b <->
                    linked g a b /\ ~ row_wall origin idx i pathIdx a b) /\
                 Z.of_nat (degree_sum g') + 2 * (i - (if pathIdx <? i then 1 else 0))
                   = Z.of_nat (degree_sum g))
               no_fault (Z.to_nat width) 0).
      - split; [exact Hinv |]. split.
        + intros a b. split; [| tauto].
          intros Hb. split; [exact Hb |]. intros (x & Hx & _). lia.
        + destruct (Z.ltb_spec pathIdx 0); lia.
      - intros x g' Hx (Hinv' & Hconn & Hdeg).
        destruct (x =? pathIdx) eqn:E.
        + apply Z.eqb_eq in E. simpl. split; [exact Hinv' |]. split.
          * intros a b. rewrite Hconn, row_wall_succ by lia. tauto.
          * destruct (Z.ltb_spec pathIdx x); destruct (Z.ltb_spec pathIdx (x + 1)); lia.
        + apply Z.eqb_neq in E.
          rewrite !u32_small by (unfold is_u32; lia).
          destruct (MazeInv_at W H g' (origin.1 + x) (origin.2 + idx) Hinv')
            as [-> Hca]; [lia | lia |].
          rewrite bind_Ok.
          destruct (MazeInv_at W H g' (origin.1 + x) (origin.2 + idx + 1) Hinv')
            as [-> Hcb]; [lia | lia |].
          rewrite bind_Ok. simpl.
          assert (Hab : linked g' (origin.1 + x, origin.2 + idx)
                          (origin.1 + x, origin.2 + idx + 1)).
          { apply Hconn. split; [apply Hfull; lia |].
            intros (x' & Hx' & _ & [[[=] _] | [[=] _]]); lia. }
          split; [apply MazeInv_Disconnect, Hinv' |]. split.
          * intros a b. unfold linked in *.
            rewrite elem_of_connected_Disconnect. fold (linked g' a b).
            rewrite Hconn, row_wall_succ by lia. unfold pair_is. tauto.
          * pose proof (degree_sum_Disconnect g' _ _ Hca Hcb) as Hd.
            rewrite <- Hd in Hdeg;
              [| intros [=]; lia | exact Hab | apply (linked_sym W H g' _ _ Hinv' Hab)].
            destruct (Z.ltb_spec pathIdx x); destruct (Z.ltb_spec pathIdx (x + 1)); lia. }
  simpl. rewrite Z2Nat.id by lia. intros g' (Hinv' & Hconn & Hdeg).
  change (0 + width) with width in *.
  split; [exact Hinv' |]. split; [exact Hconn |].
  destruct (Z.ltb_spec pathIdx width); lia.
Qed.

Lemma DisconnectCol_count W H g origin idx height pathIdx :
  MazeInv W H g -> Z.of_nat W < 2 ^ 32 -> Z.of_nat H < 2 ^ 32 ->
  0 <= origin.1 -> 0 <= origin.2 ->
  0 <= idx < 2 ^ 8 -> 0 <= height < 2 ^ 8 -> 0 <= pathIdx < height ->
  origin.2 + height <= Z.of_nat H -> origin.1 + idx + 1 < Z.of_nat W ->
  (forall y, 0 <= y < height ->
     linked g (origin.1 + idx, origin.2 + y) (origin.1 + idx + 1, origin.2 + y)) ->
  exists g', DisconnectCol g origin idx height pathIdx = Ok g' /\
    MazeInv W H g' /\
    (forall a b, linked g' a b <->
       linked g a b /\ ~ col_wall origin idx height pathIdx a b) /\
    Z.of_nat (degree_sum g') + 2 * (height - 1) = Z.of_nat (degree_sum g).
Proof.
  intros Hinv HW HH Ho1 Ho2 Hidx Hht Hp Hfit1 Hfit2 Hfull.
  apply post_ok. unfold DisconnectCol.
  rewrite (u8_small idx Hidx), (u8_small height Hht), (u8_small pathIdx) by lia.
  eapply post_mono; [| intros e He; exact He |].
  2:{ apply (for_post (fun i g' => MazeInv W H g' /\
                 (forall a b, linked g' a b <->
                    linked g a b /\ ~ col_wall origin idx i pathIdx a b) /\
                 Z.of_nat (degree_sum g') + 2 * (i - (if pathIdx <? i then 1 else 0))
                   = Z.of_nat (degree_sum g))
               no_fault (Z.to_nat height) 0).
      - split; [exact Hinv |]. split.
        + intros a b. split; [| tauto].
          intros Hb. split; [exact Hb |]. intros (y & Hy & _). lia.
        + destruct (Z.ltb_spec pathIdx 0); lia.
      - intros y g' Hy (Hinv' & Hconn & Hdeg).
        destruct (y =? pathIdx) eqn:E.
        + apply Z.eqb_eq in E. simpl. split; [exact Hinv' |]. split.
          * intros a b. rewrite Hconn, col_wall_succ by lia. tauto.
          * destruct (Z.ltb_spec pathIdx y); destruct (Z.ltb_spec pathIdx (y + 1)); lia.
        + apply Z.eqb_neq in E.
          rewrite !u32_small by (unfold is_u32; lia).
          destruct (MazeInv_at W H g' (origin.1 + idx) (origin.2 + y) Hinv')
            as [-> Hca]; [lia | lia |].
          rewrite bind_Ok.
          destruct (MazeInv_at W H g' (origin.1 + idx + 1) (origin.2 + y) Hinv')
            as [-> Hcb]; [lia | lia |].
          rewrite bind_Ok. simpl.
          assert (Hab : linked g' (origin.1 + idx, origin.2 + y)
                          (origin.1 + idx + 1, origin.2 + y)).
          { apply Hconn. split; [apply Hfull; lia |].
            intros (y' & Hy' & _ & [[[=] _] | [[=] _]]); lia. }
          split; [apply MazeInv_Disconnect, Hinv' |]. split.
          * intros a b. unfold linked in *.
            rewrite elem_of_connected_Disconnect. fold (linked g' a b).
            rewrite Hconn, col_wall_succ by lia. unfold pair_is. tauto.
          * pose proof (degree_sum_Disconnect g' _ _ Hca Hcb) as Hd.
            rewrite <- Hd in Hdeg;
              [| intros [=]; lia | exact Hab | apply (linked_sym W H g' _ _ Hinv' Hab)].
            destruct (Z.ltb_spec pathIdx y); destruct (Z.ltb_spec pathIdx (y + 1)); lia. }
  simpl. rewrite Z2Nat.id by lia. intros g' (Hinv' & Hconn & Hdeg).
  change (0 + height) with height in *.
  split; [exact Hinv' |]. split; [exact Hconn |].
  destruct (Z.ltb_spec pathIdx height); lia.
Qed.

End WallCount.

Lemma rtc_chain_up {A : Type} (R : relation A) (f : Z -> A) n i :
  (forall j, i <= j < i + Z.of_nat n -> R (f j) (f (j + 1))) ->
  rtc R (f i) (f (i + Z.of_nat n)).
Proof.
  revert i. induction n as [|n IH]; intros i Hl.
  - replace (i + Z.of_nat 0) with i by lia. apply rtc_refl.
  - apply (rtc_l _ _ (f (i + 1))); [apply Hl; lia |].
    replace (i + Z.of_nat (S n)) with (i + 1 + Z.of_nat n) by lia.
    apply IH. intros j Hj. apply Hl. lia.
Qed.

Lemma rtc_chain_down {A : Type} (R : relation A) (f : Z -> A) n i :
  (forall j, i <= j < i + Z.of_nat n -> R (f (j + 1)) (f j)) ->
  rtc R (f (i + Z.of_nat n)) (f i).
Proof.
  revert i. induction n as [|n IH]; intros i Hl.
  - replace (i + Z.of_nat 0) with i by lia. apply rtc_refl.
  - apply (rtc_r _ (f (i + 1))); [| apply Hl; lia].
    replace (i + Z.of_nat (S n)) with (i + 1 + Z.of_nat n) by lia.
    apply IH. intros j Hj. apply Hl. lia.
Qed.

Lemma rtc_chain {A : Type} (R : relation A) (f : Z -> A) lo hi i k :
  (forall j, lo <= j < hi -> R (f j) (f (j + 1)) /\ R (f (j + 1)) (f j)) ->
  lo <= i <= hi -> lo <= k <= hi -> rtc R (f i) (f k).
Proof.
  intros Hl Hi Hk. destruct (Z_le_gt_dec i k) as [Hle|Hgt].
  - replace k with (i + Z.of_nat (Z.to_nat (k - i))) by lia.
    apply rtc_chain_up. intros j Hj. apply Hl. lia.
  - replace i with (k + Z.of_nat (Z.to_nat (i - k))) by lia.
    apply rtc_chain_down. intros j Hj. apply Hl. lia.
Qed.

Section Rooms.
Context {I : Type}.
Implicit Types (g : Grid I).

(** A room one cell wide or one cell high is left as it is: a corridor. *)
Lemma Divided_corridor g ox oy w h :
  1 <= w -> 1 <= h -> w < 2 \/ h < 2 ->
  RoomFull g (ox, oy) w h -> Divided g g (ox, oy) w h.
Proof.
  intros Hw Hh Hsmall Hfull. split; [auto |]. split; [auto |]. split.
  - intros [a1 a2] [b1 b2] [Ha1 Ha2] [Hb1 Hb2]. simpl in *.
    destruct Hsmall as [Hw2|Hh2].
    + assert (a1 = ox) as -> by lia. assert (b1 = ox) as -> by lia.
      apply (rtc_chain _ (fun j => (ox, j)) oy (oy + h - 1)); [| lia | lia].
      intros j Hj.
      assert (in_region (ox, oy) w h (ox, j)) by (unfold in_region; simpl; lia).
      assert (in_region (ox, oy) w h (ox, j + 1)) by (unfold in_region; simpl; lia).
      split; (split; [assumption | split; [assumption |]]);
        apply Hfull; try assumption; unfold adjacent; simpl; lia.
    + assert (a2 = oy) as -> by lia. assert (b2 = oy) as -> by lia.
      apply (rtc_chain _ (fun j => (j, oy)) ox (ox + w - 1)); [| lia | lia].
      intros j Hj.
      assert (in_region (ox, oy) w h (j, oy)) by (unfold in_region; simpl; lia).
      assert (in_region (ox, oy) w h (j + 1, oy)) by (unfold in_region; simpl; lia).
      split; (split; [assumption | split; [assumption |]]);
        apply Hfull; try assumption; unfold adjacent; simpl; lia.
  - unfold full_edges. nia.
Qed.

Lemma RoomFull_top g g1 ox oy w h k p :
  0 <= k -> k + 1 <= h ->
  RoomFull g (ox, oy) w h ->
  (forall a b, linked g1 a b <-> linked g a b /\ ~ row_wall (ox, oy) k w p a b) ->
  RoomFull g1 (ox, oy) w (k + 1).
Proof.
  intros Hk Hkh Hfull Hc [a1 a2] [b1 b2] [Ha1 Ha2] [Hb1 Hb2] Hadj. simpl in *.
  apply Hc. split.
  - apply Hfull; [unfold in_region; simpl; lia .. | exact Hadj].
  - intros (x & _ & _ & [[[=] [=]] | [[=] [=]]]); lia.
Qed.

Lemma RoomFull_bottom g g1 g2 ox oy w h k p :
  0 <= k -> k + 1 <= h ->
  RoomFull g (ox, oy) w h ->
  (forall a b, linked g1 a b <-> linked g a b /\ ~ row_wall (ox, oy) k w p a b) ->
  Divided g1 g2 (ox, oy) w (k + 1) ->
  RoomFull g2 (ox, oy + k + 1) w (h - k - 1).
Proof.
  intros Hk Hkh Hfull Hc (_ & Hframe & _) [a1 a2] [b1 b2] [Ha1 Ha2] [Hb1 Hb2] Hadj.
  simpl in *. apply Hframe.
  - unfold in_region. simpl. lia.
  - apply Hc. split.
    + apply Hfull; [unfold in_region; simpl; lia .. | exact Hadj].
    + intros (x & _ & _ & [[[=] [=]] | [[=] [=]]]); lia.
Qed.

Lemma RoomFull_left g g1 ox oy w h k p :
  0 <= k -> k + 1 <= w ->
  RoomFull g (ox, oy) w h ->
  (forall a b, linked g1 a b <-> linked g a b /\ ~ col_wall (ox, oy) k h p a b) ->
  RoomFull g1 (ox, oy) (k + 1) h.
Proof.
  intros Hk Hkh Hfull Hc [a1 a2] [b1 b2] [Ha1 Ha2] [Hb1 Hb2] Hadj. simpl in *.
  apply Hc. split.
  - apply Hfull; [unfold in_region; simpl; lia .. | exact Hadj].
  - intros (y & _ & _ & [[[=] [=]] | [[=] [=]]]); lia.
Qed.

Lemma RoomFull_right g g1 g2 ox oy w h k p :
  0 <= k -> k + 1 <= w ->
  RoomFull g (ox, oy) w h ->
  (forall a b, linked g1 a b <-> linked g a b /\ ~ col_wall (ox, oy) k h p a b) ->
  Divided g1 g2 (ox, oy) (k + 1) h ->
  RoomFull g2 (ox + k + 1, oy) (w - k - 1) h.
Proof.
  intros Hk Hkh Hfull Hc (_ & Hframe & _) [a1 a2] [b1 b2] [Ha1 Ha2] [Hb1 Hb2] Hadj.
  simpl in *. apply Hframe.
  - unfold in_region. simpl. lia.
  - apply Hc. split.
    + apply Hfull; [unfold in_region; simpl; lia .. | exact Hadj].
    + intros (y & _ & _ & [[[=] [=]] | [[=] [=]]]); lia.
Qed.

(** Two divided rooms and the gap of the wall between them make one
    divided room. *)
Lemma Divided_join W H g g1 g2 g3 (R T B : Point -> Prop) gapT gapB w h wT hT wB hB oT oB o
    (removed : Z) :
  MazeInv W H g3 ->
  R = in_region o w h -> T = in_region oT wT hT -> B = in_region oB wB hB ->
  (forall a, R a <-> T a \/ B a) -> (forall a, T a -> ~ B a) ->
  T gapT -> B gapB -> linked g1 gapT gapB ->
  (forall a b, linked g1 a b -> linked g a b) ->
  (forall a b, ~ (R a /\ R b) -> linked g a b -> linked g1 a b) ->
  Z.of_nat (degree_sum g1) + 2 * removed = Z.of_nat (degree_sum g) ->
  removed + (full_edges wT hT - (wT * hT - 1)) + (full_edges wB hB - (wB * hB - 1))
    = full_edges w h - (w * h - 1) ->
  Divided g1 g2 oT wT hT -> Divided g2 g3 oB wB hB ->
  Divided g g3 o w h.
Proof.
  intros Hinv3 HR HT HB Hsplit Hdisj HgT HgB Hgap Hsub1 Hframe1 Hdeg1 Hcount
    (Hsub2 & Hframe2 & Hconn2 & Hdeg2) (Hsub3 & Hframe3 & Hconn3 & Hdeg3).
  unfold Divided. rewrite <- HR. rewrite <- HT in Hframe2, Hconn2.
  rewrite <- HB in Hframe3, Hconn3. clear HR HT HB.
  assert (HTR : forall a, T a -> R a) by (intros a Ha; apply Hsplit; auto).
  assert (HBR : forall a, B a -> R a) by (intros a Ha; apply Hsplit; auto).
  split; [| split; [| split]].
  - intros a b Hab. apply Hsub1, Hsub2, Hsub3, Hab.
  - intros a b Hn Hab. apply Hframe3; [| apply Hframe2; [| apply Hframe1]]; try assumption.
    + intros [Ha Hb]. apply Hn. auto.
    + intros [Ha Hb]. apply Hn. auto.
  - assert (Hgap3 : linked g3 gapT gapB).
    { apply Hframe3; [| apply Hframe2]; [| | exact Hgap].
      - intros [Ha _]. apply (Hdisj gapT); assumption.
      - intros [_ Hb]. apply (Hdisj gapB); [exact Hb | exact HgB]. }
    assert (Hgap3' : linked g3 gapB gapT) by (apply (linked_sym W H g3 _ _ Hinv3 Hgap3)).
    assert (HinT : forall a b, T a -> T b -> rtc (linked_in g3 R) a b).
    { intros a b Ha Hb. eapply rtc_subrel; [| apply (Hconn2 a b Ha Hb)].
      intros u v (Hu & Hv & Huv). split; [auto |]. split; [auto |].
      apply Hframe3; [| exact Huv]. intros [HBu _]. apply (Hdisj u); assumption. }
    assert (HinB : forall a b, B a -> B b -> rtc (linked_in g3 R) a b).
    { intros a b Ha Hb. eapply rtc_subrel; [| apply (Hconn3 a b Ha Hb)].
      intros u v (Hu & Hv & Huv). split; [auto |]. split; [auto |]. exact Huv. }
    assert (Hto : forall a, R a -> rtc (linked_in g3 R) a gapT).
    { intros a Ha. apply Hsplit in Ha as [Ha | Ha]; [apply HinT; assumption |].
      apply (rtc_r _ gapB); [apply HinB; assumption |].
      split; [auto |]. split; [auto |]. exact Hgap3'. }
    assert (Hfrom : forall a, R a -> rtc (linked_in g3 R) gapT a).
    { intros a Ha. apply Hsplit in Ha as [Ha | Ha]; [apply HinT; assumption |].
      apply (rtc_l _ _ gapB); [| apply HinB; assumption].
      split; [auto |]. split; [auto |]. exact Hgap3. }
    intros a b Ha Hb. transitivity gapT; [apply Hto, Ha | apply Hfrom, Hb].
  - lia.
Qed.

End Rooms.

Module RecursiveDivisionPerfect.
Import RecursiveDivision.

(** [Compute] on a room of at most 255 by 255 cells that has not been
    divided yet returns, and leaves the room a tree. *)
Lemma rd_Compute_divides W H :
  Z.of_nat W < 2 ^ 32 -> Z.of_nat H < 2 ^ 32 ->
  forall fuel mt (maze : Maze) ox oy width height,
    MazeInv W H maze ->
    0 <= ox -> 0 <= oy -> 1 <= width < 2 ^ 8 -> 1 <= height < 2 ^ 8 ->
    ox + width <= Z.of_nat W -> oy + height <= Z.of_nat H ->
    width + height <= Z.of_nat fuel ->
    RoomFull maze (ox, oy) width height ->
    exists maze' mt',
      Compute fuel mt maze (ox, oy) width height = Ok (maze', mt') /\
      MazeInv W H maze' /\ Divided maze maze' (ox, oy) width height.
Proof.
  intros HW HH. induction fuel as [|fuel IH];
    intros mt maze ox oy width height Hinv Hox Hoy Hwd Hht Hfw Hfh Hfuel Hfull.
  { simpl. destruct (Z.ltb_spec width 2); [| destruct (Z.ltb_spec height 2); [| lia]];
      (exists maze, mt; split; [reflexivity |]; split; [exact Hinv |];
       apply Divided_corridor; [lia | lia | lia | exact Hfull]). }
  simpl.
  destruct (Z.ltb_spec width 2) as [Hw2|Hw2].
  { exists maze, mt. split; [reflexivity |]. split; [exact Hinv |].
    apply Divided_corridor; [lia | lia | lia | exact Hfull]. }
  destruct (Z.ltb_spec height 2) as [Hh2|Hh2].
  { exists maze, mt. split; [reflexivity |]. split; [exact Hinv |].
    apply Divided_corridor; [lia | lia | lia | exact Hfull]. }
  simpl.
  destruct (MT19937.next mt) as [r1 mt1].
  destruct (MT19937.next mt1) as [r2 mt2].
  destruct (MT19937.next mt2) as [r3 mt3].
  rewrite !(u32_small (height - 1)), !(u32_small (width - 1)) by (unfold is_u32; lia).
  destruct (r1 mod 2 =? 0).
  - pose proof (Z.mod_pos_bound r2 (height - 1)) as Hwall.
    pose proof (Z.mod_pos_bound r3 width) as Hpath.
    set (k := r2 mod (height - 1)) in *. set (p := r3 mod width) in *.
    destruct (DisconnectRow_count W H maze (ox, oy) k width p)
      as (g1 & -> & Hinv1 & Hc1 & Hd1); simpl; try assumption; try lia.
    { intros x Hx. apply Hfull; [unfold in_region; simpl; lia .. |].
      unfold adjacent. simpl. lia. }
    rewrite !u32_small by (unfold is_u32; lia).
    assert (Hfull1 : RoomFull g1 (ox, oy) width (k + 1)).
    { apply (RoomFull_top maze g1 ox oy width height k p); try assumption; lia. }
    destruct (IH mt3 g1 ox oy width (k + 1)) as (g2 & mt4 & -> & Hinv2 & Hdiv2);
      try assumption; try lia.
    rewrite bind_Ok. cbv beta iota.
    assert (Hfull2 : RoomFull g2 (ox, oy + k + 1) width (height - k - 1)).
    { apply (RoomFull_bottom maze g1 g2 ox oy width height k p); try assumption; lia. }
    destruct (IH mt4 g2 ox (oy + k + 1) width (height - k - 1))
      as (g3 & mt5 & -> & Hinv3 & Hdiv3); try assumption; try lia.
    exists g3, mt5. split; [reflexivity |]. split; [exact Hinv3 |].
    apply (Divided_join W H maze g1 g2 g3 _ _ _ (ox + p, oy + k) (ox + p, oy + k + 1)
             width height width (k + 1) width (height - k - 1)
             (ox, oy) (ox, oy + k + 1) (ox, oy) (width - 1) Hinv3
             eq_refl eq_refl eq_refl); try assumption.
    + intros [a1 a2]. unfold in_region. simpl. lia.
    + intros [a1 a2]. unfold in_region. simpl. lia.
    + unfold in_region. simpl. lia.
    + unfold in_region. simpl. lia.
    + apply Hc1. split.
      * apply Hfull; [unfold in_region; simpl; lia .. |]. unfold adjacent. simpl. lia.
      * intros (x & _ & Hne & [[[=] _] | [[=] _]]); lia.
    + intros a b Hab. apply Hc1 in Hab. tauto.
    + intros a b Hn Hab. apply Hc1. split; [exact Hab |].
      intros (x & Hx & _ & [[-> ->] | [-> ->]]); apply Hn;
        unfold in_region; simpl; lia.
    + unfold full_edges. lia.
  - pose proof (Z.mod_pos_bound r2 (width - 1)) as Hwall.
    pose proof (Z.mod_pos_bound r3 height) as Hpath.
    set (k := r2 mod (width - 1)) in *. set (p := r3 mod height) in *.
    destruct (DisconnectCol_count W H maze (ox, oy) k height p)
      as (g1 & -> & Hinv1 & Hc1 & Hd1); simpl; try assumption; try lia.
    { intros y Hy. apply Hfull; [unfold in_region; simpl; lia .. |].
      unfold adjacent. simpl. lia. }
    rewrite !u32_small by (unfold is_u32; lia).
    assert (Hfull1 : RoomFull g1 (ox, oy) (k + 1) height).
    { apply (RoomFull_left maze g1 ox oy width height k p); try assumption; lia. }
    destruct (IH mt3 g1 ox oy (k + 1) height) as (g2 & mt4 & -> & Hinv2 & Hdiv2);
      try assumption; try lia.
    rewrite bind_Ok. cbv beta iota.
    assert (Hfull2 : RoomFull g2 (ox + k + 1, oy) (width - k - 1) height).
    { apply (RoomFull_right maze g1 g2 ox oy width height k p); try assumption; lia. }
    destruct (IH mt4 g2 (ox + k + 1) oy (width - k - 1) height)
      as (g3 & mt5 & -> & Hinv3 & Hdiv3); try assumption; try lia.
    exists g3, mt5. split; [reflexivity |]. split; [exact Hinv3 |].
    apply (Divided_join W H maze g1 g2 g3 _ _ _ (ox + k, oy + p) (ox + k + 1, oy + p)
             width height (k + 1) height (width - k - 1) height
             (ox, oy) (ox + k + 1, oy) (ox, oy) (height - 1) Hinv3
             eq_refl eq_refl eq_refl); try assumption.
    + intros [a1 a2]. unfold in_region. simpl. lia.
    + intros [a1 a2]. unfold in_region. simpl. lia.
    + unfold in_region. simpl. lia.
    + unfold in_region. simpl. lia.
    + apply Hc1. split.
      * apply Hfull; [unfold in_region; simpl; lia .. |]. unfold adjacent. simpl. lia.
      * intros (y & _ & Hne & [[[=] _] | [[=] _]]); lia.
    + intros a b Hab. apply Hc1 in Hab. tauto.
    + intros a b Hn Hab. apply Hc1. split; [exact Hab |].
      intros (y & Hy & _ & [[-> ->] | [-> ->]]); apply Hn;
        unfold in_region; simpl; lia.
    + unfold full_edges. lia.
Qed.

End RecursiveDivisionPerfect.

(** The connected grid built by the constructor, with its passages
    counted. *)
Lemma Init_connected_grid {I : Type} `{!DefaultCtor I} width height :
  1 <= width -> 1 <= height ->
  exists g : Grid I, Init width height true = Ok g /\
    MazeInv (Z.to_nat width) (Z.to_nat height) g /\ FullyConnected g /\
    Z.of_nat (degree_sum g) = 2 * full_edges width height.
Proof.
  intros Hw Hh.
  destruct (Init_MazeInv (I := I) true width height) as (g & Hg & Hinv & _).
  pose proof (Init_connected_post (I := I) width height) as Hpost.
  rewrite Hg in Hpost. destruct Hpost as (_ & Hfull & Hdeg).
  exists g. split; [exact Hg |]. split; [exact Hinv |]. split; [exact Hfull |].
  rewrite Hdeg. unfold init_edges, full_edges.
  destruct (Z.ltb_spec 0 (Z.of_nat (Z.to_nat width))); [| lia].
  rewrite !Z2Nat.id by lia. lia.
Qed.

(** X12: the connected grid the constructor builds for [width] and
    [height] of at least 1 has [(width - 1) * height + width * (height - 1)]
    connections, one for each pair of neighbouring cells. *)
Theorem Init_connected_edge_count (I : Type) (ctor : DefaultCtor I) (width height : Z) :
  1 <= width -> 1 <= height ->
  exists g : Grid I, Init width height true = Ok g /\
    edge_count g = (width - 1) * height + width * (height - 1).
Proof.
  intros Hw Hh.
  destruct (Init_connected_grid (I := I) width height Hw Hh) as (g & Hg & _ & _ & Hdeg).
  exists g. split; [exact Hg |]. unfold edge_count. rewrite Hdeg.
  rewrite Z.mul_comm, Z.div_mul by lia. reflexivity.
Qed.

Lemma Init_connected_edge_count_witness :
  exists g : Grid CellInfoBase, Init 3 3 true = Ok g /\
    edge_count g = (3 - 1) * 3 + 3 * (3 - 1).
Proof. apply (Init_connected_edge_count CellInfoBase _ 3 3); lia. Defined.

(** X11: within the range of the 8-bit wall parameters the Recursive
    Division generator returns a perfect maze.  For [width] and [height]
    from 1 to 255 it returns a maze with [width * height - 1] passages in
    which every cell is joined to [(0, 0)] by a path: a spanning tree of
    the grid. *)
Theorem RecursiveDivision_perfect_maze (width height seed : Z) :
  1 <= width < 2 ^ 8 -> 1 <= height < 2 ^ 8 ->
  exists m, RecursiveDivision.generate width height seed = Ok (Some m) /\
    edge_count m = width * height - 1 /\
    (forall a, is_cell m a -> rtc (linked m) a (0, 0)).
Proof.
  intros Hw Hh. unfold RecursiveDivision.generate.
  destruct (Z.ltb_spec width 1) as [Hw0|_]; [lia |].
  destruct (Z.ltb_spec height 1) as [Hh0|_]; [lia |]. cbn [orb].
  destruct (Init_connected_grid (I := CellInfoBase) width height)
    as (g & -> & Hinv & Hfull & Hdeg); [lia | lia |].
  rewrite bind_Ok.
  set (W := Z.to_nat width) in *. set (H := Z.to_nat height) in *.
  destruct (RecursiveDivisionPerfect.rd_Compute_divides W H)
    with (fuel := Z.to_nat (width + height)) (mt := MT19937.seed seed) (maze := g)
         (ox := 0) (oy := 0) (width := width) (height := height)
    as (m & mt' & -> & Hinv' & Hsub & Hframe & Hconn & Hdeg');
    try assumption; try (unfold W, H; lia).
  { intros a b Ha Hb Hadj. apply Hfull; [| | exact Hadj];
      apply (shape_is_cell _ _ _ _ (proj1 Hinv)); unfold in_region in *; simpl in *;
      unfold W, H; lia. }
  rewrite bind_Ok. exists m. split; [reflexivity |]. split.
  - unfold edge_count.
    assert (Z.of_nat (degree_sum m) = 2 * (width * height - 1)) as -> by lia.
    rewrite Z.mul_comm, Z.div_mul by lia. reflexivity.
  - intros a Ha. apply (shape_is_cell _ _ _ _ (proj1 Hinv')) in Ha.
    eapply rtc_subrel; [| apply (Hconn a (0, 0))].
    + intros u v (_ & _ & Huv). exact Huv.
    + unfold in_region. simpl. unfold W, H in Ha. lia.
    + unfold in_region. simpl. lia.
Qed.

Lemma RecursiveDivision_perfect_maze_witness :
  exists m, RecursiveDivision.generate 4 3 1 = Ok (Some m) /\
    edge_count m = 4 * 3 - 1 /\
    (forall a, is_cell m a -> rtc (linked m) a (0, 0)).
Proof. apply (RecursiveDivision_perfect_maze 4 3 1); lia. Defined.

(** ** Prim's *)

(** Sets of cell pointers, when distinct cells have distinct addresses. *)

Section PtrSetExact.
Variable addr : CellRef -> Z.
Variable D : CellRef -> Prop.
Hypothesis addr_inj : forall p q, D p -> D q -> addr p = addr q -> p = q.

Lemma ptrset_insert_elem p q s :
  D p -> (forall a, a ∈ s -> D a) ->
  (q ∈ ptrset_insert addr p s <-> q = p \/ q ∈ s).
Proof.
  intros Hp Hs. split; [apply elem_of_ptrset_insert |].
  induction s as [|a s IH]; simpl.
  - intros [-> | Hq]; [left | inversion Hq].
  - assert (Ha : D a) by (apply Hs; left).
    assert (Hs' : forall b, b ∈ s -> D b) by (intros b Hb; apply Hs; right; exact Hb).
    destruct (Z.ltb_spec (addr p) (addr a)) as [Hlt|Hge].
    + intros [-> | Hq]; [left | right; exact Hq].
    + destruct (Z.ltb_spec (addr a) (addr p)) as [Hlt'|Hge'].
      * intros [-> | [-> | Hq]%elem_of_cons]; [right | left | right];
          apply IH; auto.
      * assert (p = a) as -> by (apply addr_inj; [assumption | assumption | lia]).
        intros [-> | Hq]; [left | exact Hq].
Qed.

Lemma ptrset_insert_range_elem ps q s :
  (forall a, a ∈ ps -> D a) -> (forall a, a ∈ s -> D a) ->
  (q ∈ ptrset_insert_range addr ps s <-> q ∈ ps \/ q ∈ s).
Proof.
  unfold ptrset_insert_range. revert s. induction ps as [|p ps IH]; simpl; intros s Hps Hs.
  - split; [auto | intros [Hq | Hq]; [inversion Hq | exact Hq]].
  - rewrite IH.
    + rewrite ptrset_insert_elem; [| apply Hps; left | exact Hs].
      rewrite elem_of_cons. tauto.
    + intros a Ha. apply Hps. right. exact Ha.
    + intros a [-> | Ha]%elem_of_ptrset_insert; [apply Hps; left | apply Hs, Ha].
Qed.

Lemma ptrset_erase_elem p q s :
  D p -> (forall a, a ∈ s -> D a) ->
  (q ∈ ptrset_erase addr p s <-> q ∈ s /\ q <> p).
Proof.
  intros Hp Hs. split; [apply elem_of_ptrset_erase |].
  intros [Hq Hne]. unfold ptrset_erase. apply list_elem_of_filter. split; [| exact Hq].
  intros Heq. apply Hne. apply addr_inj; [apply Hs, Hq | exact Hp | exact Heq].
Qed.

End PtrSetExact.

(** A part of the grid that holds a cell and, with each cell, its
    neighbours, is the whole grid. *)
Lemma interval_closed (Q : Z -> Prop) lo hi i0 :
  lo <= i0 < hi -> Q i0 ->
  (forall i j, lo <= i < hi -> lo <= j < hi -> Q i -> Z.abs (i - j) = 1 -> Q j) ->
  forall i, lo <= i < hi -> Q i.
Proof.
  intros Hi0 HQ0 Hstep.
  assert (Hind : forall n i, lo <= i < hi -> Z.abs (i - i0) = Z.of_nat n -> Q i).
  { induction n as [|n IH]; intros i Hi Hd.
    - assert (i = i0) as -> by lia. exact HQ0.
    - destruct (Z_lt_ge_dec i i0) as [Hlt|Hge].
      + apply (Hstep (i + 1) i); [lia | lia | apply IH; lia | lia].
      + apply (Hstep (i - 1) i); [lia | lia | apply IH; lia | lia]. }
  intros i Hi. apply (Hind (Z.to_nat (Z.abs (i - i0))) i Hi). lia.
Qed.

Lemma grid_closed_all W H (P : Point -> Prop) s :
  in_grid W H s -> P s ->
  (forall v u, in_grid W H v -> in_grid W H u -> P v -> adjacent v u -> P u) ->
  forall a, in_grid W H a -> P a.
Proof.
  intros [Hs1 Hs2] HPs Hstep [a1 a2] [Ha1 Ha2]. simpl in *.
  assert (Hrow : P (a1, s.2)).
  { apply (interval_closed (fun i => P (i, s.2)) 0 (Z.of_nat W) s.1); try assumption.
    - destruct s. exact HPs.
    - intros i j Hi Hj HPi Hd. apply (Hstep (i, s.2) (j, s.2)); try assumption;
        unfold in_grid, adjacent; simpl; lia. }
  apply (interval_closed (fun j => P (a1, j)) 0 (Z.of_nat H) s.2); try assumption.
  intros i j Hi Hj HPi Hd. apply (Hstep (a1, i) (a1, j)); try assumption;
    unfold in_grid, adjacent; simpl; lia.
Qed.

Lemma sum_list_with_const {A : Type} (F : A -> nat) l k :
  (forall x, x ∈ l -> F x = k) -> sum_list_with F l = (length l * k)%nat.
Proof.
  induction l as [|a l IH]; intros HF; simpl; [reflexivity |].
  rewrite (HF a) by left. rewrite IH; [reflexivity |].
  intros x Hx. apply HF. right. exact Hx.
Qed.

Lemma grid_sum_const {I : Type} (w : Cell I -> nat) W H (g : Grid I) k :
  shape W H g -> (forall p c, cell_at g p = Some c -> w c = k) ->
  grid_sum w g = (W * (H * k))%nat.
Proof.
  intros (HW & HH & _) Hw. unfold grid_sum. rewrite <- HW.
  apply sum_list_with_const. intros col Hcol.
  apply list_elem_of_lookup in Hcol as [i Hi]. rewrite <- (HH _ _ Hi).
  apply sum_list_with_const. intros c Hc.
  apply list_elem_of_lookup in Hc as [j Hj].
  apply (Hw (Z.of_nat i, Z.of_nat j)). apply cell_at_Some. simpl.
  split; [lia |]. split; [lia |]. exists col. rewrite !Nat2Z.id. auto.
Qed.

Module PrimsPerfect.
Import Prims.

Lemma prims_push_if_eq W H (maze : Maze) wanted (inb : bool) x y acc :
  MazeInv W H maze ->
  (inb = true -> 0 <= x < Z.of_nat W /\ 0 <= y < Z.of_nat H) ->
  push_if maze wanted inb x y acc =
  Ok (acc ++ (if inb && bool_decide (visited maze (x, y) = wanted) then [(x, y)] else [])).
Proof.
  intros Hinv Hb. unfold push_if. destruct inb; simpl; [| rewrite app_nil_r; reflexivity].
  destruct (Hb eq_refl) as [Hx Hy].
  destruct (MazeInv_at W H maze x y Hinv Hx Hy) as [-> _]. rewrite bind_Ok.
  destruct wanted; destruct (visited maze (x, y)); simpl;
    rewrite ?app_nil_r; reflexivity.
Qed.

(** With at most [2 ^ 31] columns and rows, [GetNeighbours] returns
    exactly the neighbours whose visited flag is the wanted one. *)
Lemma prims_GetNeighbours_exact W H (maze : Maze) cell wanted :
  MazeInv W H maze -> Z.of_nat W <= 2 ^ 31 -> Z.of_nat H <= 2 ^ 31 ->
  is_cell maze cell ->
  exists ns, GetNeighbours maze cell wanted = Ok ns /\
    forall n, n ∈ ns <-> is_cell maze n /\ adjacent cell n /\ visited maze n = wanted.
Proof.
  intros Hinv HW HH Hc.
  pose proof (proj1 (shape_is_cell _ _ _ _ (proj1 Hinv)) Hc) as [Hx Hy].
  destruct cell as [x y]. simpl in Hx, Hy.
  assert (Hwd : Width maze = Z.of_nat W) by (eapply MazeInv_Width; [eassumption | lia]).
  assert (Hht : Height maze = Z.of_nat H) by (eapply MazeInv_Height; [eassumption | lia | lia]).
  unfold GetNeighbours. cbn [fst snd]. rewrite Hwd, Hht.
  assert (Hwest : (0 <=? to_int (x - 1)) = (0 <? x) /\ (0 < x -> u32 (x - 1) = x - 1)).
  { unfold to_int. destruct (decide (x = 0)) as [->|Hnz].
    - change (u32 (0 - 1)) with (2 ^ 32 - 1). simpl. split; [reflexivity | lia].
    - rewrite (u32_small (x - 1)) by (unfold is_u32; lia).
      destruct (Z.ltb_spec (x - 1) (2 ^ 31)); [| lia].
      split; [| reflexivity].
      destruct (Z.leb_spec 0 (x - 1)); destruct (Z.ltb_spec 0 x); lia || reflexivity. }
  assert (Hnorth : (0 <=? to_int (y - 1)) = (0 <? y) /\ (0 < y -> u32 (y - 1) = y - 1)).
  { unfold to_int. destruct (decide (y = 0)) as [->|Hnz].
    - change (u32 (0 - 1)) with (2 ^ 32 - 1). simpl. split; [reflexivity | lia].
    - rewrite (u32_small (y - 1)) by (unfold is_u32; lia).
      destruct (Z.ltb_spec (y - 1) (2 ^ 31)); [| lia].
      split; [| reflexivity].
      destruct (Z.leb_spec 0 (y - 1)); destruct (Z.ltb_spec 0 y); lia || reflexivity. }
  destruct Hwest as [-> Hwest]. destruct Hnorth as [-> Hnorth].
  rewrite (u32_small (x + 1)), (u32_small (y + 1)) by (unfold is_u32; lia).
  rewrite (prims_push_if_eq W H maze wanted (0 <? x) (u32 (x - 1)) y [] Hinv).
  2:{ intros E. apply Z.ltb_lt in E. rewrite Hwest by lia. lia. }
  rewrite bind_Ok.
  rewrite (prims_push_if_eq W H maze wanted (0 <? y) x (u32 (y - 1)) _ Hinv).
  2:{ intros E. apply Z.ltb_lt in E. rewrite Hnorth by lia. lia. }
  rewrite bind_Ok.
  rewrite (prims_push_if_eq W H maze wanted (x + 1 <? Z.of_nat W) (x + 1) y _ Hinv).
  2:{ intros E. apply Z.ltb_lt in E. lia. }
  rewrite bind_Ok.
  rewrite (prims_push_if_eq W H maze wanted (y + 1 <? Z.of_nat H) x (y + 1) _ Hinv).
  2:{ intros E. apply Z.ltb_lt in E. lia. }
  eexists. split; [reflexivity |].
  intros [n1 n2]. rewrite (shape_is_cell _ _ _ _ (proj1 Hinv)). unfold adjacent.
  cbn [fst snd]. rewrite !elem_of_app. split.
  - intros [[[[Hn | Hn] | Hn] | Hn] | Hn]; [inversion Hn | | | |].
    + destruct (Z.ltb_spec 0 x); [| inversion Hn]. cbn [andb] in Hn.
      rewrite Hwest in Hn by lia. case_bool_decide; [| inversion Hn].
      apply list_elem_of_singleton in Hn as [= -> ->]. split; [lia |]. split; [lia | assumption].
    + destruct (Z.ltb_spec 0 y); [| inversion Hn]. cbn [andb] in Hn.
      rewrite Hnorth in Hn by lia. case_bool_decide; [| inversion Hn].
      apply list_elem_of_singleton in Hn as [= -> ->]. split; [lia |]. split; [lia | assumption].
    + destruct (Z.ltb_spec (x + 1) (Z.of_nat W)); [| inversion Hn]. cbn [andb] in Hn.
      case_bool_decide; [| inversion Hn].
      apply list_elem_of_singleton in Hn as [= -> ->]. split; [lia |]. split; [lia | assumption].
    + destruct (Z.ltb_spec (y + 1) (Z.of_nat H)); [| inversion Hn]. cbn [andb] in Hn.
      case_bool_decide; [| inversion Hn].
      apply list_elem_of_singleton in Hn as [= -> ->]. split; [lia |]. split; [lia | assumption].
  - intros (Hn & Hadj & Hv).
    assert ((n1 = x - 1 /\ n2 = y) \/ (n1 = x /\ n2 = y - 1) \/
            (n1 = x + 1 /\ n2 = y) \/ (n1 = x /\ n2 = y + 1)) as Hcase by lia.
    destruct Hcase as [[-> ->] | [[-> ->] | [[-> ->] | [-> ->]]]].
    + left. left. left. right.
      destruct (Z.ltb_spec 0 x); [| lia]. cbn [andb]. rewrite Hwest by lia.
      rewrite bool_decide_true by exact Hv. left.
    + left. left. right.
      destruct (Z.ltb_spec 0 y); [| lia]. cbn [andb]. rewrite Hnorth by lia.
      rewrite bool_decide_true by exact Hv. left.
    + left. right.
      destruct (Z.ltb_spec (x + 1) (Z.of_nat W)); [| lia]. cbn [andb].
      rewrite bool_decide_true by exact Hv. left.
    + right.
      destruct (Z.ltb_spec (y + 1) (Z.of_nat H)); [| lia]. cbn [andb].
      rewrite bool_decide_true by exact Hv. left.
Qed.

Section WithHeap.
Variable addr : CellRef -> Z.

(** The end of an iteration: the cell [c] has been visited and, unless it
    is the first, connected to a visited neighbour [n]; its neighbours not
    yet visited join the frontier and [c] leaves it. *)
Lemma prims_tree_finish W H s (maze : Maze) mt pathSet c (maze3 : Maze) mt3 :
  Z.of_nat W <= 2 ^ 31 -> Z.of_nat H <= 2 ^ 31 -> addr_injective addr W H ->
  PrimsTreeInv W H s (maze, mt, pathSet) -> c ∈ pathSet ->
  MazeInv W H maze3 ->
  (forall q, visited maze3 q = if decide (c = q) then true else visited maze q) ->
  (unvisited_count maze3 + 1 = unvisited_count maze)%nat ->
  (((forall n, in_grid W H n -> adjacent c n -> visited maze n = false) /\
    (forall p, connected_of maze3 p = connected_of maze p) /\
    degree_sum maze3 = degree_sum maze /\
    (forall q, root_distance maze3 q = root_distance maze q)) \/
   (exists n, in_grid W H n /\ adjacent c n /\ visited maze n = true /\
      (forall a b, linked maze3 a b <->
         linked maze a b \/ (a = c /\ b = n) \/ (a = n /\ b = c)) /\
      degree_sum maze3 = S (S (degree_sum maze)) /\
      (forall q, root_distance maze3 q =
         if decide (q = c) then root_distance maze n + 1 else root_distance maze q))) ->
  post (PrimsTreeInv W H s) no_fault
    (neighbours ← GetNeighbours maze3 c false;
     Ok (maze3, mt3, ptrset_erase addr c (ptrset_insert_range addr neighbours pathSet))).
Proof.
  intros HW HH Hinj (Hinv & T1 & T2 & T3 & T4 & T5 & T6 & T7 & T8) Hcin Hinv3 Hv3 Hcnt3 Hlinks.
  cbn [fst snd] in *.
  assert (Hg : forall q, is_cell maze q <-> in_grid W H q).
  { intros q. apply (shape_is_cell _ _ _ _ (proj1 Hinv)). }
  assert (Hg3 : forall q, is_cell maze3 q <-> in_grid W H q).
  { intros q. apply (shape_is_cell _ _ _ _ (proj1 Hinv3)). }
  destruct (T1 c Hcin) as (Hc & Hcv & Hcalt).
  destruct (prims_GetNeighbours_exact W H maze3 c false Hinv3 HW HH) as (nu & -> & Hnu).
  { apply Hg3, Hg, Hc. }
  rewrite bind_Ok. cbn [post].
  assert (Hps : forall q, q ∈ ptrset_erase addr c (ptrset_insert_range addr nu pathSet) <->
                  (q ∈ nu \/ q ∈ pathSet) /\ q <> c).
  { intros q.
    assert (Hnu_in : forall a, a ∈ nu -> in_grid W H a).
    { intros a Ha. apply Hg3. apply Hnu in Ha. tauto. }
    assert (Hps_in : forall a, a ∈ pathSet -> in_grid W H a).
    { intros a Ha. apply Hg. apply (T1 a Ha). }
    rewrite (ptrset_erase_elem addr (in_grid W H) Hinj); [| apply Hg, Hc |].
    - rewrite (ptrset_insert_range_elem addr (in_grid W H) Hinj) by assumption. reflexivity.
    - intros a [Ha | Ha]%elem_of_ptrset_insert_range; auto. }
  assert (Hmono : forall q, visited maze q = true -> visited maze3 q = true).
  { intros q Hq. rewrite Hv3. destruct (decide (c = q)); auto. }
  assert (Hunv : forall q, visited maze3 q = false -> q <> c /\ visited maze q = false).
  { intros q. rewrite Hv3. destruct (decide (c = q)) as [->|]; [discriminate | auto]. }
  assert (Hsub : forall a b, linked maze a b -> linked maze3 a b).
  { intros a b Hab. destruct Hlinks as [(_ & Hsame & _) | (n & _ & _ & _ & Hl & _)].
    - unfold linked. rewrite Hsame. exact Hab.
    - apply Hl. auto. }
  assert (Hfirst : c = s -> forall q, visited maze q = false).
  { intros ->. destruct T3 as [Hs | [_ Hnone]]; [congruence | exact Hnone]. }
  split; [exact Hinv3 |]. cbn [fst snd].
  split; [| split; [| split; [| split; [| split; [| split; [| split]]]]]].
  - (* the frontier *)
    intros q Hq. apply Hps in Hq as [Hq Hqc].
    assert (Hqunv : visited maze3 q = false /\ is_cell maze3 q).
    { destruct Hq as [Hq | Hq].
      - apply Hnu in Hq. tauto.
      - destruct (T1 q Hq) as (Hqc' & Hqv & _). split; [| apply Hg3, Hg, Hqc'].
        rewrite Hv3. rewrite decide_False by congruence. exact Hqv. }
    destruct Hqunv as [Hqv Hqcell]. split; [exact Hqcell |]. split; [exact Hqv |].
    left. destruct Hq as [Hq | Hq].
    + apply Hnu in Hq as (_ & Hadj & _). exists c.
      split; [apply Hg3, Hg, Hc |]. split; [apply adjacent_sym, Hadj |].
      rewrite Hv3. rewrite decide_True by reflexivity. reflexivity.
    + destruct (T1 q Hq) as (_ & _ & [(v & Hvc & Hadj & Hvv) | [-> Hnone]]).
      * exists v. split; [apply Hg3, Hg, Hvc |]. split; [exact Hadj | apply Hmono, Hvv].
      * exfalso. destruct Hcalt as [(v & _ & _ & Hvv) | [-> _]]; [| congruence].
        rewrite Hnone in Hvv. discriminate.
  - (* the frontier is complete *)
    intros v u Hvc Huc Hvv Hadj Huv. apply Hps.
    destruct (Hunv u Huv) as [Hune Huv0]. split; [| exact Hune].
    destruct (decide (c = v)) as [<-|Hcv'].
    + left. apply Hnu. auto.
    + right. apply (T2 v u); [apply Hg, Hg3, Hvc | apply Hg, Hg3, Huc | | exact Hadj | exact Huv0].
      rewrite Hv3 in Hvv. rewrite decide_False in Hvv by exact Hcv'. exact Hvv.
  - (* the start cell *)
    destruct (decide (c = s)) as [<-|Hcs].
    + left. rewrite Hv3. rewrite decide_True by reflexivity. reflexivity.
    + destruct T3 as [Hs | [Hs Hnone]]; [left; apply Hmono, Hs |].
      exfalso. destruct Hcalt as [(v & _ & _ & Hvv) | [-> _]]; [| congruence].
      rewrite Hnone in Hvv. discriminate.
  - (* paths to the start cell *)
    intros v Hvc Hvv. rewrite Hv3 in Hvv.
    destruct (decide (c = v)) as [<-|Hcv'].
    + destruct Hlinks as [(Hnone & _) | (n & Hn & Hadj & Hnv & Hl & _)].
      * destruct Hcalt as [(v & Hvc' & Hadj & Hvv') | [-> _]]; [| apply rtc_refl].
        rewrite (Hnone v) in Hvv'; [discriminate | apply Hg, Hvc' | exact Hadj].
      * apply (rtc_l _ _ n); [apply Hl; auto |].
        eapply rtc_subrel; [exact Hsub |]. apply T4; [apply Hg, Hn | exact Hnv].
    + eapply rtc_subrel; [exact Hsub |]. apply T4; [apply Hg, Hg3, Hvc | exact Hvv].
  - (* cells not visited have no passage *)
    intros q Hq. destruct (Hunv q Hq) as [Hqc Hqv].
    destruct Hlinks as [(_ & Hsame & _) | (n & _ & _ & Hnv & Hl & _)].
    + rewrite Hsame. apply T5, Hqv.
    + apply elem_of_equiv_empty_L. intros b Hb.
      apply (Hl q b) in Hb as [Hb | [[-> _] | [-> _]]]; [| congruence | congruence].
      unfold linked in Hb. rewrite (T5 q Hqv) in Hb. set_solver.
  - (* the number of passages *)
    right. destruct Hlinks as [(Hnone & _ & Hdeg & _) | (n & Hn & Hadj & Hnv & _ & Hdeg & _)].
    + destruct Hcalt as [(v & Hvc' & Hadj & Hvv') | [-> Hnone']].
      { rewrite (Hnone v) in Hvv'; [discriminate | apply Hg, Hvc' | exact Hadj]. }
      destruct T6 as [(_ & Hd0 & HU) | [Hsv _]]; [| congruence].
      split; [rewrite Hv3, decide_True by reflexivity; reflexivity |].
      rewrite Hdeg, Hd0. lia.
    + destruct T6 as [(Hnone & _) | [Hsv Hd]]; [rewrite Hnone in Hnv; discriminate |].
      split; [apply Hmono, Hsv |]. rewrite Hdeg. lia.
  - (* the root distance of the start cell *)
    destruct Hlinks as [(_ & _ & _ & Hrd) | (n & _ & _ & Hnv & _ & _ & Hrd)];
      rewrite Hrd; [exact T7 |].
    destruct (decide (s = c)) as [Hsc|Hsc].
    + rewrite (Hfirst (eq_sym Hsc)) in Hnv. discriminate.
    + rewrite decide_False by exact Hsc. exact T7.
  - (* the root distances of the visited cells *)
    intros v Hvc Hvv. rewrite Hv3 in Hvv.
    destruct Hlinks as [(Hnone & _ & _ & Hrd) | (n & Hn & Hadj & Hnv & Hl & _ & Hrd)].
    + assert (Hcs : c = s).
      { destruct Hcalt as [(u & Huc & Hadj & Huv) | [-> _]]; [| reflexivity].
        rewrite (Hnone u) in Huv; [discriminate | apply Hg, Huc | exact Hadj]. }
      destruct (decide (c = v)) as [<-|Hcv'].
      * rewrite Hrd, Hcs, T7. split; [| congruence].
        destruct T6 as [(_ & _ & HU) | [Hsv _]];
          [lia | rewrite (Hfirst Hcs) in Hsv; discriminate].
      * rewrite (Hfirst Hcs) in Hvv. discriminate.
    + destruct (T8 n) as [Hnb _]; [apply Hg, Hn | exact Hnv |].
      destruct (decide (c = v)) as [<-|Hcv'].
      * rewrite Hrd, decide_True by reflexivity. split; [lia |].
        intros _. exists n. split; [apply Hl; auto |]. split; [apply Hmono, Hnv |].
        rewrite (Hrd n). rewrite decide_False; [reflexivity |].
        intros ->. congruence.
      * destruct (T8 v) as [Hvb Hvn]; [apply Hg, Hg3, Hvc | exact Hvv |].
        rewrite Hrd, decide_False by congruence. split; [lia |].
        intros Hvs. destruct (Hvn Hvs) as (u & Hvu & Huv & Hrdv).
        exists u. split; [apply Hsub, Hvu |]. split; [apply Hmono, Huv |].
        rewrite (Hrd u). rewrite decide_False; [exact Hrdv |].
        intros ->. congruence.
Qed.

Lemma prims_step_tree W H s st :
  Z.of_nat W <= 2 ^ 31 -> Z.of_nat H <= 2 ^ 31 -> addr_injective addr W H ->
  PrimsTreeInv W H s st -> st.2 <> [] ->
  post (PrimsTreeInv W H s) no_fault (step addr st).
Proof.
  intros HW HH Hinj Htree Hne. destruct st as [[maze mt] pathSet].
  pose proof Htree as (Hinv & T1 & T2 & T3 & T4 & T5 & T6 & T7 & T8). cbn [fst snd] in *.
  assert (Hg : forall (m : Maze) q, MazeInv W H m -> (is_cell m q <-> in_grid W H q)).
  { intros m q Hm. apply (shape_is_cell _ _ _ _ (proj1 Hm)). }
  unfold step.
  destruct (MT19937.next mt) as [r mt1].
  destruct (vec_at_mod pathSet r Hne) as (c & -> & Hcin). rewrite bind_Ok.
  destruct (T1 c Hcin) as (Hc & Hcv & Hcalt).
  set (maze1 := upd maze c set_visited).
  assert (Hinv1 : MazeInv W H maze1).
  { apply (MazeInv_upd_info W H maze c
             (fun c => mkCellInfo (mkCellInfoBase true) (rootDistance (info c)))), Hinv. }
  assert (Hv1 : forall q, visited maze1 q = if decide (c = q) then true else visited maze q)
    by (intros q; apply PrimsFacts.visited_set_visited, Hc).
  assert (Hconn1 : forall q, connected_of maze1 q = connected_of maze q)
    by (intros q; apply connected_of_upd; reflexivity).
  assert (Hdeg1 : degree_sum maze1 = degree_sum maze)
    by (apply grid_sum_upd_same; reflexivity).
  assert (Hcnt1 : (unvisited_count maze1 + 1 = unvisited_count maze)%nat)
    by (apply PrimsFacts.unvisited_count_visit; assumption).
  assert (Hrd1 : forall q, root_distance maze1 q = root_distance maze q).
  { intros q. unfold root_distance, maze1. rewrite info_of_upd.
    destruct (decide (c = q)) as [<-|Hn].
    - rewrite decide_True by auto. destruct Hc as [cc Hcc].
      unfold info_of. rewrite Hcc. reflexivity.
    - rewrite decide_False by tauto. reflexivity. }
  destruct (prims_GetNeighbours_exact W H maze1 c true Hinv1 HW HH) as (ns & -> & Hns).
  { apply (Hg maze1 c Hinv1), (Hg maze c Hinv), Hc. }
  rewrite bind_Ok.
  assert (Hns' : forall n, n ∈ ns <->
            in_grid W H n /\ adjacent c n /\ visited maze n = true).
  { intros n. rewrite Hns, (Hg maze1 n Hinv1), Hv1.
    destruct (decide (c = n)) as [<-|]; [| reflexivity].
    split; [| tauto]. intros (_ & Hadj & _). unfold adjacent in Hadj. lia. }
  destruct ns as [|n0 ns'].
  - rewrite bind_Ok.
    apply (prims_tree_finish W H s maze mt pathSet c maze1 mt1); try assumption.
    left. split; [| split; [| split]; assumption].
    intros n Hn Hadj. destruct (visited maze n) eqn:E; [| reflexivity].
    assert (Hin : n ∈ @nil CellRef) by (apply Hns'; auto). inversion Hin.
  - destruct (MT19937.next mt1) as [r2 mt2].
    destruct (vec_at_mod (n0 :: ns') r2) as (n & -> & Hn); [discriminate |].
    rewrite !bind_Ok.
    apply Hns' in Hn as (Hngrid & Hadj & Hnv).
    set (maze2 := upd maze1 c (set_rootDistance (rootDistance (info_of maze1 n) + 1))).
    assert (Hinv2 : MazeInv W H maze2).
    { apply (MazeInv_upd_info W H maze1 c
               (fun c => mkCellInfo (base (info c)) (rootDistance (info_of maze1 n) + 1))),
        Hinv1. }
    assert (Hconn2 : forall q, connected_of maze2 q = connected_of maze q).
    { intros q. unfold maze2. rewrite connected_of_upd by reflexivity. apply Hconn1. }
    assert (Hc2 : is_cell maze2 c) by (apply (Hg maze2 c Hinv2), (Hg maze c Hinv), Hc).
    assert (Hn2 : is_cell maze2 n) by (apply (Hg maze2 n Hinv2), Hngrid).
    assert (Hempty : connected_of maze c = ∅) by (apply T5, Hcv).
    apply (prims_tree_finish W H s maze mt pathSet c (Connect maze2 c n) mt2);
      try assumption.
    + apply MazeInv_Connect; assumption.
    + intros q. rewrite PrimsFacts.visited_Connect. unfold maze2.
      rewrite PrimsFacts.visited_upd_same by reflexivity. apply Hv1.
    + rewrite PrimsFacts.unvisited_count_Connect. unfold maze2.
      rewrite PrimsFacts.unvisited_count_same by reflexivity. exact Hcnt1.
    + right. exists n. split; [exact Hngrid |]. split; [exact Hadj |].
      split; [exact Hnv |]. split.
      * intros a b. unfold linked. rewrite elem_of_connected_Connect, !Hconn2.
        split.
        -- intros [Hab | (_ & [[-> ->] | [-> ->]])]; auto.
        -- intros [Hab | [[-> ->] | [-> ->]]]; auto.
      * split.
        -- rewrite degree_sum_Connect; try assumption.
           ++ unfold maze2. unfold degree_sum.
              rewrite grid_sum_upd_same by reflexivity. fold (degree_sum maze1).
              rewrite Hdeg1. reflexivity.
           ++ intros ->. unfold adjacent in Hadj. lia.
           ++ rewrite Hconn2, Hempty. set_solver.
           ++ intros Hin. destruct Hinv2 as (_ & Hsym & _).
              apply (Hsym c n Hc2 Hn2) in Hin. rewrite Hconn2, Hempty in Hin. set_solver.
        -- intros q. unfold root_distance at 1. rewrite info_of_Connect.
           unfold maze2. rewrite info_of_upd.
           assert (Hc1 : is_cell maze1 c) by (apply (Hg maze1 c Hinv1), (Hg maze c Hinv), Hc).
           destruct (decide (q = c)) as [->|Hqc].
           ++ rewrite decide_True by auto. destruct Hc1 as [cc ->]. simpl.
              fold (root_distance maze1 n). rewrite Hrd1. reflexivity.
           ++ rewrite decide_False by (intros [-> _]; congruence).
              fold (root_distance maze1 q). apply Hrd1.
Qed.

Lemma prims_loop_tree W H s :
  Z.of_nat W <= 2 ^ 31 -> Z.of_nat H <= 2 ^ 31 -> addr_injective addr W H ->
  forall fuel st, PrimsInv W H fuel st -> PrimsTreeInv W H s st ->
    post (fun m => exists mt, PrimsTreeInv W H s (m, mt, [])) no_fault (loop addr fuel st).
Proof.
  intros HW HH Hinj. induction fuel as [|fuel IH]; intros st Hst Htree.
  - destruct st as [[maze mt] [|c pathSet]]; simpl; [exists mt; exact Htree |].
    destruct Hst as (_ & Hset & Hcnt). simpl in *.
    destruct (Hset c (list_elem_of_here _ _)) as [Hc Hv].
    pose proof (PrimsFacts.unvisited_pos maze c Hc Hv). lia.
  - destruct st as [[maze mt] [|c pathSet]]; [simpl; exists mt; exact Htree |].
    change (loop addr (S fuel) (maze, mt, c :: pathSet))
      with (st' ← step addr (maze, mt, c :: pathSet); loop addr fuel st').
    pose proof (PrimsFacts.prims_step_post addr W H fuel (maze, mt, c :: pathSet))
      as Hp1.
    pose proof (prims_step_tree W H s (maze, mt, c :: pathSet) HW HH Hinj Htree) as Hp2.
    destruct (step addr (maze, mt, c :: pathSet)) as [st'|e].
    + rewrite bind_Ok. apply IH.
      * apply Hp1; [lia | lia | exact Hst | discriminate].
      * apply Hp2. discriminate.
    + exfalso. apply Hp2. discriminate.
Qed.

Lemma prims_generate_tree width height startPoint seed :
  is_u32 width -> is_u32 height ->
  1 <= width <= 2 ^ 31 -> 1 <= height <= 2 ^ 31 ->
  0 <= startPoint.1 < width -> 0 <= startPoint.2 < height ->
  addr_injective addr (Z.to_nat width) (Z.to_nat height) ->
  exists maze mt, generate addr width height startPoint seed = Ok (Some maze) /\
    PrimsTreeInv (Z.to_nat width) (Z.to_nat height) startPoint (maze, mt, []).
Proof.
  intros Hw Hh Hw1 Hh1 Hsx Hsy Hinj. unfold generate.
  destruct (Z.ltb_spec width 1) as [?|_]; [lia |].
  destruct (Z.ltb_spec height 1) as [?|_]; [lia |].
  destruct (Z.leb_spec width startPoint.1) as [?|_]; [lia |].
  destruct (Z.leb_spec height startPoint.2) as [?|_]; [lia |]. cbn [orb].
  destruct (Init_MazeInv (I := CellInfo) false width height)
    as (g & -> & Hinv & Hemp & Hinfo).
  rewrite bind_Ok.
  set (W := Z.to_nat width) in *. set (H := Z.to_nat height) in *.
  unfold is_u32 in *.
  destruct (MazeInv_at W H g startPoint.1 startPoint.2 Hinv) as [-> Hc];
    [unfold W; lia | unfold H; lia |].
  rewrite bind_Ok.
  set (g1 := upd g _ _).
  assert (Hinv1 : MazeInv W H g1).
  { apply (MazeInv_upd_info W H g _ (fun c => mkCellInfo (base (info c)) 0)), Hinv. }
  destruct (MazeInv_at W H g1 startPoint.1 startPoint.2 Hinv1) as [-> Hc1];
    [unfold W; lia | unfold H; lia |].
  rewrite bind_Ok.
  assert (Hs : (startPoint.1, startPoint.2) = startPoint) by (destruct startPoint; reflexivity).
  rewrite Hs in *.
  assert (Hnone : forall q, visited g1 q = false).
  { intros q. unfold g1. rewrite PrimsFacts.visited_upd_same by reflexivity.
    unfold visited. rewrite Hinfo. reflexivity. }
  assert (Hconn1 : forall q, connected_of g1 q = ∅).
  { intros q. unfold g1. rewrite connected_of_upd by reflexivity. apply (Hemp eq_refl). }
  assert (Hfuel : PrimsInv W H (Z.to_nat (width * height))
                    (g1, MT19937.seed seed, ptrset_insert addr startPoint [])).
  { split; [exact Hinv1 | split]; cbn [fst snd].
    - intros c ->%list_elem_of_singleton. split; [exact Hc1 | apply Hnone].
    - unfold unvisited_count.
      pose proof (grid_sum_le unvisited_weight W H g1 1%nat (proj1 Hinv1)) as Hle.
      assert (Z.to_nat (width * height) = (W * H)%nat) as -> by (unfold W, H; lia).
      etransitivity; [apply Hle |]; [| lia].
      intros c. unfold unvisited_weight. destruct (isVisited _); lia. }
  assert (Htree : PrimsTreeInv W H startPoint
                    (g1, MT19937.seed seed, ptrset_insert addr startPoint [])).
  { split; [exact Hinv1 |]. cbn [fst snd].
    split; [| split; [| split; [| split; [| split; [| split; [| split]]]]]].
    - intros c ->%list_elem_of_singleton. split; [exact Hc1 |].
      split; [apply Hnone |]. right. split; [reflexivity | exact Hnone].
    - intros v u _ _ Hv. rewrite Hnone in Hv. discriminate.
    - right. split; [simpl; left | exact Hnone].
    - intros v _ Hv. rewrite Hnone in Hv. discriminate.
    - intros q _. apply Hconn1.
    - left. split; [exact Hnone |]. split; [apply degree_sum_empty, Hconn1 |].
      unfold unvisited_count.
      rewrite (grid_sum_const unvisited_weight W H g1 1%nat (proj1 Hinv1)); [lia |].
      intros q c Hqc. specialize (Hnone q). unfold visited, info_of in Hnone.
      rewrite Hqc in Hnone. unfold unvisited_weight. rewrite Hnone. reflexivity.
    - unfold root_distance, g1. rewrite info_of_upd.
      rewrite decide_True by auto. destruct Hc as [cc ->]. reflexivity.
    - intros v _ Hv. rewrite Hnone in Hv. discriminate. }
  pose proof (prims_loop_tree W H startPoint) as Hloop.
  specialize (Hloop ltac:(unfold W; lia) ltac:(unfold H; lia) Hinj _ _ Hfuel Htree).
  destruct (loop addr _ _) as [m|e]; [| destruct Hloop].
  destruct Hloop as [mt Hm]. rewrite bind_Ok. exists m, mt. split; [reflexivity | exact Hm].
Qed.

End WithHeap.
End PrimsPerfect.

(** X13: Prim's generator returns a perfect maze when distinct cells lie
    at distinct addresses and the grid has at most [2 ^ 31] columns and
    rows.  On every valid input it then visits every cell, and returns a
    maze with [width * height - 1] passages in which every cell is joined
    to the start cell by a path: a spanning tree of the grid. *)
Theorem Prims_perfect_maze (addr : CellRef -> Z) (width height : Z)
    (startPoint : Point) (seed : Z) :
  1 <= width <= 2 ^ 31 -> 1 <= height <= 2 ^ 31 ->
  0 <= startPoint.1 < width -> 0 <= startPoint.2 < height ->
  addr_injective addr (Z.to_nat width) (Z.to_nat height) ->
  exists m, Prims.generate addr width height startPoint seed = Ok (Some m) /\
    (forall a, is_cell m a -> Prims.visited m a = true) /\
    edge_count m = width * height - 1 /\
    (forall a, is_cell m a -> rtc (linked m) a startPoint).
Proof.
  intros Hw Hh Hsx Hsy Hinj.
  destruct (PrimsPerfect.prims_generate_tree addr width height startPoint seed)
    as (m & mt & Hm & Hinv & T1 & T2 & T3 & T4 & T5 & T6 & _);
    try assumption; try (unfold is_u32; lia).
  cbn [fst snd] in *.
  set (W := Z.to_nat width) in *. set (H := Z.to_nat height) in *.
  assert (Hg : forall q, is_cell m q <-> in_grid W H q).
  { intros q. apply (shape_is_cell _ _ _ _ (proj1 Hinv)). }
  assert (Hstart : Prims.visited m startPoint = true).
  { destruct T3 as [Hs | [Hs _]]; [exact Hs | inversion Hs]. }
  assert (Hall : forall a, is_cell m a -> Prims.visited m a = true).
  { intros a Ha. apply Hg in Ha. revert a Ha.
    apply (grid_closed_all W H (fun a => Prims.visited m a = true) startPoint).
    - unfold in_grid, W, H. lia.
    - exact Hstart.
    - intros v u Hv Hu Hvv Hadj. destruct (Prims.visited m u) eqn:E; [reflexivity |].
      assert (Hin : u ∈ @nil CellRef) by (apply (T2 v u); try assumption; apply Hg; assumption).
      inversion Hin. }
  exists m. split; [exact Hm |]. split; [exact Hall |]. split.
  - assert (HU : unvisited_count m = O).
    { apply grid_sum_zero. intros p c Hpc.
      assert (Hv : Prims.visited m p = true) by (apply Hall; eexists; exact Hpc).
      unfold Prims.visited, info_of in Hv. rewrite Hpc in Hv.
      unfold unvisited_weight. rewrite Hv. reflexivity. }
    destruct T6 as [(Hnone & _) | [_ Hdeg]]; [rewrite Hnone in Hstart; discriminate |].
    assert (Hd : Z.of_nat (degree_sum m) = (width * height - 1) * 2).
    { rewrite Hdeg, HU. unfold W, H. rewrite !Z2Nat.id by lia. lia. }
    unfold edge_count. rewrite Hd. apply Z.div_mul. lia.
  - intros a Ha. apply T4; [exact Ha | apply Hall, Ha].
Qed.

Lemma Prims_perfect_maze_witness :
  exists m, Prims.generate addr_allocation_order 4 3 (1, 2) 1 = Ok (Some m) /\
    (forall a, is_cell m a -> Prims.visited m a = true) /\
    edge_count m = 4 * 3 - 1 /\
    (forall a, is_cell m a -> rtc (linked m) a (1, 2)).
Proof.
  apply (Prims_perfect_maze addr_allocation_order 4 3 (1, 2) 1); simpl; try lia.
  intros [p1 p2] [q1 q2] [Hp1 Hp2] [Hq1 Hq2]. unfold addr_allocation_order. simpl in *.
  intros Heq. f_equal; lia.
Defined.

(** When the frontier is empty every cell has been visited. *)
Lemma prims_tree_all_visited W H s (m : Prims.Maze) mt :
  in_grid W H s -> PrimsTreeInv W H s (m, mt, []) ->
  forall a, is_cell m a -> Prims.visited m a = true.
Proof.
  intros Hs (Hinv & _ & T2 & T3 & _). cbn [fst snd] in *.
  assert (Hg : forall q, is_cell m q <-> in_grid W H q).
  { intros q. apply (shape_is_cell _ _ _ _ (proj1 Hinv)). }
  intros a Ha. apply Hg in Ha. revert a Ha.
  apply (grid_closed_all W H (fun a => Prims.visited m a = true) s Hs).
  - destruct T3 as [Hv | [Hin _]]; [exact Hv | inversion Hin].
  - intros v u Hv Hu Hvv Hadj. destruct (Prims.visited m u) eqn:E; [reflexivity |].
    assert (Hin : u ∈ @nil CellRef) by (apply (T2 v u); try assumption; apply Hg; assumption).
    inversion Hin.
Qed.

(** X16: the root distances Prim's generator leaves in the cells.  Under
    the conditions of X13 the start cell has root distance 0 and every
    other cell has a passage to a cell whose root distance is one less:
    the root distance of a cell is the length of its path to the start
    cell in the tree, and it stays below [width * height]. *)
Theorem Prims_root_distance (addr : CellRef -> Z) (width height : Z)
    (startPoint : Point) (seed : Z) :
  1 <= width <= 2 ^ 31 -> 1 <= height <= 2 ^ 31 ->
  0 <= startPoint.1 < width -> 0 <= startPoint.2 < height ->
  addr_injective addr (Z.to_nat width) (Z.to_nat height) ->
  exists m, Prims.generate addr width height startPoint seed = Ok (Some m) /\
    root_distance m startPoint = 0 /\
    (forall a, is_cell m a ->
       0 <= root_distance m a < width * height /\
       (a <> startPoint ->
        exists n, linked m a n /\ root_distance m a = root_distance m n + 1)).
Proof.
  intros Hw Hh Hsx Hsy Hinj.
  destruct (PrimsPerfect.prims_generate_tree addr width height startPoint seed)
    as (m & mt & Hm & Htree); try assumption; try (unfold is_u32; lia).
  pose proof (prims_tree_all_visited (Z.to_nat width) (Z.to_nat height) startPoint m mt)
    as Hall.
  specialize (Hall ltac:(unfold in_grid; lia) Htree).
  destruct Htree as (Hinv & _ & _ & _ & _ & _ & _ & T7 & T8). cbn [fst snd] in *.
  exists m. split; [exact Hm |]. split; [exact T7 |].
  intros a Ha. destruct (T8 a Ha (Hall a Ha)) as [Hb Hn]. split; [lia |].
  intros Hne. destruct (Hn Hne) as (n & Han & _ & Hrd). eauto.
Qed.

Lemma Prims_root_distance_witness :
  exists m, Prims.generate addr_allocation_order 4 3 (1, 2) 1 = Ok (Some m) /\
    root_distance m (1, 2) = 0 /\
    (forall a, is_cell m a ->
       0 <= root_distance m a < 4 * 3 /\
       (a <> (1, 2) ->
        exists n, linked m a n /\ root_distance m a = root_distance m n + 1)).
Proof.
  apply (Prims_root_distance addr_allocation_order 4 3 (1, 2) 1); simpl; try lia.
  intros [p1 p2] [q1 q2] [Hp1 Hp2] [Hq1 Hq2]. unfold addr_allocation_order. simpl in *.
  intros Heq. f_equal; lia.
Defined.

(** ** Kruskal's *)

Lemma sum_list_with_insert {A : Type} (F : A -> nat) i l x v :
  l !! i = Some x ->
  (sum_list_with F (<[i := v]> l) + F x = sum_list_with F l + F v)%nat.
Proof.
  revert i. induction l as [|a l IH]; intros [|i] Hx; simpl in *; try discriminate.
  - injection Hx as ->. lia.
  - specialize (IH i Hx). lia.
Qed.

Module KruskalsForest.
Import Kruskals.

Lemma MazeInv_relabel W H ToId from (maze : Maze) :
  MazeInv W H maze -> MazeInv W H (relabel ToId from maze).
Proof.
  unfold relabel. revert maze. induction from as [|it from IH]; intros maze Hinv; simpl;
    [exact Hinv |].
  apply IH, KruskalsFacts.MazeInv_set_bucketId, Hinv.
Qed.

Lemma degree_sum_relabel ToId from (maze : Maze) :
  degree_sum (relabel ToId from maze) = degree_sum maze.
Proof.
  unfold relabel. revert maze. induction from as [|it from IH]; intros maze; simpl;
    [reflexivity |].
  rewrite IH. apply grid_sum_upd_same. reflexivity.
Qed.

(** Merging the bucket of [f] into the bucket of [s], with a passage
    between the two cells. *)
Lemma ForestInv_merge W H (maze : Maze) (buckets : Buckets) f s from :
  ForestInv W H maze buckets ->
  is_cell maze f -> is_cell maze s -> adjacent f s ->
  bucket_of maze f <> bucket_of maze s ->
  buckets !! Z.to_nat (bucket_of maze f) = Some from ->
  ForestInv W H (relabel (bucket_of maze s) from (Connect maze f s))
    (<[Z.to_nat (bucket_of maze f) := []]>
       (alter (fun b => b ++ from) (Z.to_nat (bucket_of maze s)) buckets)).
Proof.
  intros (Hinv & Hlen & HC & HD & HE & HF & HG) Hf Hs Hadj Hne Hfrom.
  set (b1 := bucket_of maze f) in *. set (b2 := bucket_of maze s) in *.
  destruct (HC f Hf) as (Hb1 & bf & Hbf & Hfin). fold b1 in Hb1, Hbf.
  assert (bf = from) as -> by congruence.
  destruct (HC s Hs) as (Hb2 & bs & Hbs & Hsin). fold b2 in Hb2, Hbs.
  assert (Hidx : Z.to_nat b1 <> Z.to_nat b2) by lia.
  set (maze' := relabel b2 from (Connect maze f s)).
  assert (Hcell : forall q, is_cell maze' q <-> is_cell maze q).
  { intros q. unfold maze'. rewrite KruskalsStep.is_cell_relabel. apply is_cell_Connect. }
  assert (Hfrom_iff : forall q, is_cell maze q -> (q ∈ from <-> bucket_of maze q = b1)).
  { intros q Hq. split.
    - intros Hin. destruct (HD _ _ _ Hfrom Hin) as [_ ->]. lia.
    - intros Hb. destruct (HC q Hq) as (_ & b & Hb' & Hin). rewrite Hb in Hb'. congruence. }
  assert (Hbucket : forall q, is_cell maze q ->
            bucket_of maze' q = if decide (bucket_of maze q = b1) then b2
                                else bucket_of maze q).
  { intros q Hq. unfold maze'.
    rewrite KruskalsStep.bucket_of_relabel, KruskalsFacts.bucket_of_Connect.
    destruct (decide (bucket_of maze q = b1)) as [Hb|Hb].
    - rewrite decide_True; [reflexivity |].
      split; [apply Hfrom_iff; assumption | apply is_cell_Connect, Hq].
    - rewrite decide_False; [reflexivity |].
      intros [Hin _]. apply Hb, Hfrom_iff; assumption. }
  assert (Hlinked : forall a b, linked maze' a b <->
            linked maze a b \/ (a = f /\ b = s) \/ (a = s /\ b = f)).
  { intros a b. unfold linked, maze'. rewrite KruskalsStep.connected_of_relabel.
    rewrite elem_of_connected_Connect. split.
    - intros [Hab | (_ & [[-> ->] | [-> ->]])]; auto.
    - intros [Hab | [[-> ->] | [-> ->]]]; auto. }
  assert (Hlook : forall i, (<[Z.to_nat b1 := []]>
                               (alter (fun b => b ++ from) (Z.to_nat b2) buckets)) !! i =
            if decide (i = Z.to_nat b1) then
              (if decide (i < length buckets)%nat then Some [] else None)
            else if decide (i = Z.to_nat b2) then (fun b => b ++ from) <$> buckets !! i
            else buckets !! i).
  { intros i. destruct (decide (i = Z.to_nat b1)) as [->|Hi1].
    - destruct (decide (Z.to_nat b1 < length buckets)%nat) as [Hlt|Hge].
      + apply list_lookup_insert_eq. rewrite length_alter. exact Hlt.
      + apply lookup_ge_None_2. rewrite length_insert, length_alter. lia.
    - rewrite list_lookup_insert_ne by congruence.
      destruct (decide (i = Z.to_nat b2)) as [->|Hi2].
      + apply list_lookup_alter_eq.
      + apply list_lookup_alter_ne. congruence. }
  split; [apply MazeInv_relabel, MazeInv_Connect; assumption |].
  split; [rewrite length_insert, length_alter; exact Hlen |].
  split; [| split; [| split; [| split]]].
  - intros q Hq. apply Hcell in Hq. rewrite (Hbucket q Hq).
    destruct (HC q Hq) as (Hq0 & b & Hb & Hin).
    destruct (decide (bucket_of maze q = b1)) as [Heq|Hneq].
    + split; [exact Hb2 |]. rewrite Hlook.
      rewrite decide_False by lia. rewrite decide_True by reflexivity.
      rewrite Hbs. simpl. eexists. split; [reflexivity |].
      apply elem_of_app. right. apply Hfrom_iff; assumption.
    + split; [exact Hq0 |]. rewrite Hlook. rewrite decide_False by lia.
      destruct (decide (Z.to_nat (bucket_of maze q) = Z.to_nat b2)) as [Heq2|Hneq2].
      * rewrite Hb. simpl. eexists. split; [reflexivity |]. apply elem_of_app. auto.
      * eauto.
  - intros i b q. rewrite Hlook.
    destruct (decide (i = Z.to_nat b1)) as [->|Hi1].
    { destruct (decide _); [| discriminate]. intros [= <-] Hin. inversion Hin. }
    destruct (decide (i = Z.to_nat b2)) as [->|Hi2].
    + rewrite Hbs. simpl. intros [= <-] [Hin | Hin]%elem_of_app.
      * destruct (HD _ _ _ Hbs Hin) as [Hq Hqb]. split; [apply Hcell, Hq |].
        rewrite (Hbucket q Hq). rewrite decide_False by lia. exact Hqb.
      * destruct (HD _ _ _ Hfrom Hin) as [Hq Hqb]. split; [apply Hcell, Hq |].
        rewrite (Hbucket q Hq). rewrite decide_True by lia. lia.
    + intros Hb Hin. destruct (HD _ _ _ Hb Hin) as [Hq Hqb]. split; [apply Hcell, Hq |].
      rewrite (Hbucket q Hq). rewrite decide_False by lia. exact Hqb.
  - intros a b Hab.
    assert (Ha : is_cell maze a) by (apply Hcell; eapply elem_connected_is_cell, Hab).
    assert (Hb : is_cell maze b).
    { apply Hcell. destruct (MazeInv_relabel W H b2 from (Connect maze f s)) as (_ & _ & Hcl & _);
        [apply MazeInv_Connect; assumption |]. eapply Hcl, Hab. }
    rewrite (Hbucket a Ha), (Hbucket b Hb).
    apply Hlinked in Hab as [Hab | [[-> ->] | [-> ->]]].
    + rewrite (HE a b Hab). reflexivity.
    + fold b1 b2. rewrite decide_True by reflexivity. rewrite decide_False by congruence.
      reflexivity.
    + fold b1 b2. rewrite decide_False by congruence. rewrite decide_True by reflexivity.
      reflexivity.
  - intros a b Ha Hb. apply Hcell in Ha, Hb. rewrite (Hbucket a Ha), (Hbucket b Hb).
    assert (Hsub : forall u v, rtc (linked maze) u v -> rtc (linked maze') u v).
    { intros u v. apply rtc_subrel. intros x y Hxy. apply Hlinked. auto. }
    assert (Hfs : linked maze' f s) by (apply Hlinked; auto).
    assert (Hsf : linked maze' s f) by (apply Hlinked; auto).
    destruct (decide (bucket_of maze a = b1)) as [Ha1|Ha1];
      destruct (decide (bucket_of maze b = b1)) as [Hb1'|Hb1'].
    + intros _. apply Hsub, HF; [assumption | assumption |].
      rewrite Ha1, Hb1'. reflexivity.
    + intros Heq. transitivity f; [apply Hsub, HF; assumption |].
      apply (rtc_l _ _ s); [exact Hfs |]. apply Hsub, HF; [assumption | assumption |].
      exact Heq.
    + intros Heq. transitivity s; [apply Hsub, HF; [assumption | assumption | exact Heq] |].
      apply (rtc_l _ _ f); [exact Hsf |]. apply Hsub, HF; [assumption | assumption |].
      rewrite Hb1'. reflexivity.
    + intros Heq. apply Hsub, HF; assumption.
  - unfold maze'. rewrite degree_sum_relabel.
    rewrite degree_sum_Connect; try assumption.
    + assert (Hw : forall b : list CellRef, b <> [] ->
                match b with [] => O | _ => 1%nat end = 1%nat)
        by (intros [|? ?] Hb; [congruence | reflexivity]).
      pose proof (sum_list_with_alter
                    (fun b : list CellRef => match b with [] => O | _ => 1%nat end)
                    (fun b => b ++ from) _ _ _ Hbs) as Hs1.
      assert (Hfrom' : alter (fun b => b ++ from) (Z.to_nat b2) buckets !! Z.to_nat b1
                       = Some from).
      { rewrite list_lookup_alter_ne by congruence. exact Hfrom. }
      pose proof (sum_list_with_insert
                    (fun b : list CellRef => match b with [] => O | _ => 1%nat end)
                    _ _ _ [] Hfrom') as Hs2.
      cbv beta in Hs1, Hs2.
      rewrite (Hw bs) in Hs1 by (intros ->; inversion Hsin).
      rewrite (Hw (bs ++ from)) in Hs1
        by (intros E; apply app_eq_nil in E as [-> _]; inversion Hsin).
      rewrite (Hw from) in Hs2 by (intros ->; inversion Hfin).
      unfold nonempty_buckets in *. lia.
    + intros ->. unfold adjacent in Hadj. lia.
    + intros Hin. apply Hne. apply HE. exact Hin.
    + intros Hin. apply Hne. symmetry. apply HE. exact Hin.
Qed.

Lemma kruskals_step_forest W H (st : state) :
  Z.of_nat W * Z.of_nat H < 2 ^ 32 ->
  ForestInv W H (st_maze st) (st_buckets st) ->
  (forall e, e ∈ st_edges st -> EdgeOk W H e) ->
  st_edges st <> [] ->
  exists st', step st = Ok st' /\
    ForestInv W H (st_maze st') (st_buckets st') /\
    (forall e, e ∈ st_edges st' -> EdgeOk W H e) /\
    S (length (st_edges st')) = length (st_edges st).
Proof.
  intros Hsmall Hforest Hedges Hne. unfold step.
  destruct (MT19937.next (st_mt st)) as [r mt].
  destruct (vec_at_mod (st_edges st) r Hne) as (e & Hat & He). rewrite Hat, bind_Ok.
  set (idx := r mod Z.of_nat (length (st_edges st))) in *.
  assert (Hidx : (Z.to_nat idx < length (st_edges st))%nat).
  { unfold vec_at in Hat. destruct (0 <=? idx); [| discriminate].
    destruct (st_edges st !! Z.to_nat idx) eqn:E; [| discriminate].
    eapply lookup_lt_Some, E. }
  assert (Hdel : forall e', e' ∈ delete (Z.to_nat idx) (st_edges st) -> EdgeOk W H e').
  { intros e' He'. apply Hedges. eapply list_elem_of_delete_inv, He'. }
  assert (Hlen : S (length (delete (Z.to_nat idx) (st_edges st))) = length (st_edges st)).
  { rewrite length_delete; [lia |]. apply lookup_lt_is_Some_2, Hidx. }
  pose proof Hforest as (Hinv & Hblen & HC & _).
  destruct (Hedges e He) as (Hf & Hs & Hadj).
  apply (shape_is_cell _ _ _ _ (proj1 Hinv)) in Hf, Hs.
  destruct (Z.eqb_spec (bucket_of (st_maze st) (first e)) (bucket_of (st_maze st) (second e)))
    as [Heq|Hneq].
  - rewrite bind_Ok. eexists. split; [reflexivity |]. cbn [st_maze st_buckets st_edges].
    auto.
  - destruct (HC _ Hf) as (Hb1 & from & Hfrom & _).
    destruct (HC _ Hs) as (Hb2 & bs & Hbs & _).
    pose proof (lookup_lt_Some _ _ _ Hfrom) as Hlt1.
    pose proof (lookup_lt_Some _ _ _ Hbs) as Hlt2.
    rewrite (KruskalsStep.MergeBucket_eq _ _ _ _ from);
      [| unfold is_u32; lia | unfold is_u32; lia | exact Hneq | lia | exact Hfrom].
    rewrite bind_Ok. eexists. split; [reflexivity |]. cbn [st_maze st_buckets st_edges].
    split; [| auto].
    apply ForestInv_merge; assumption.
Qed.

Lemma kruskals_loop_forest W H :
  Z.of_nat W * Z.of_nat H < 2 ^ 32 ->
  forall fuel (st : state),
    ForestInv W H (st_maze st) (st_buckets st) ->
    (forall e, e ∈ st_edges st -> EdgeOk W H e) ->
    (length (st_edges st) <= fuel)%nat ->
    exists m buckets, loop fuel st = Ok m /\ ForestInv W H m buckets.
Proof.
  intros Hsmall. induction fuel as [|fuel IH]; intros st Hforest Hedges Hfuel.
  - destruct (st_edges st) as [|e es] eqn:E; [| simpl in Hfuel; lia].
    simpl. rewrite E. eauto.
  - simpl. destruct (st_edges st) as [|e es] eqn:E; [eauto |].
    destruct (kruskals_step_forest W H st Hsmall Hforest)
      as (st' & -> & Hforest' & Hedges' & Hlen);
      [rewrite E; exact Hedges | rewrite E; discriminate |].
    rewrite bind_Ok. apply IH; [assumption | assumption |].
    rewrite E in Hlen. simpl in *. lia.
Qed.

Section WithEdgeSet.
Variable set_insert : Edge -> list Edge -> list Edge.
Hypothesis Hkeeps : insert_keeps set_insert.

Lemma kruskals_fill_cell_forest W H x y st :
  Z.of_nat W < 2 ^ 32 -> Z.of_nat H < 2 ^ 32 -> Z.of_nat W * Z.of_nat H < 2 ^ 32 ->
  0 <= x < Z.of_nat W -> 0 <= y < Z.of_nat H ->
  FillForest W H x y st ->
  post (FillForest W H x (y + 1)) no_fault (fill_cell set_insert x y st).
Proof.
  intros HW HH Hsmall Hx Hy (Hinv & Hemp & Hid & Hlen & Hnum & Hbk & Hedges).
  destruct st as [[[maze edges] buckets] nodeId]. cbn [fst snd] in *. subst nodeId.
  unfold fill_cell.
  destruct (MazeInv_at W H maze x y Hinv Hx Hy) as [-> Hc]. rewrite bind_Ok.
  set (node := x * Z.of_nat H + y) in *.
  set (maze1 := upd maze (x, y) (set_bucketId node)).
  assert (Hinv1 : MazeInv W H maze1) by apply KruskalsFacts.MazeInv_set_bucketId, Hinv.
  destruct (MazeInv_at W H maze1 x y Hinv1 Hx Hy) as [Hat1 Hc1]. rewrite Hat1, bind_Ok.
  assert (Hnode : 0 <= node < Z.of_nat W * Z.of_nat H) by (unfold node; nia).
  rewrite KruskalsStep.bucket_push_ok by lia. rewrite bind_Ok.
  assert (Hwd : Width maze1 = Z.of_nat W) by (eapply MazeInv_Width; eassumption).
  assert (Hht : Height maze1 = Z.of_nat H) by (eapply MazeInv_Height; [eassumption | lia | lia]).
  rewrite Hwd, Hht.
  set (EP := fun es : list Edge => forall e', e' ∈ es -> EdgeOk W H e').
  assert (Hins : forall e es, EdgeOk W H e -> EP es -> EP (set_insert e es)).
  { intros e es He Hes e' He'. destruct (Hkeeps _ _ _ He') as [-> | Hin]; auto. }
  apply (bind_elim _ _ EP).
  { destruct (u32 (x + 1) <? Z.of_nat W) eqn:E; [| exact Hedges].
    apply Z.ltb_lt in E. rewrite (u32_small (x + 1)) in * by (unfold is_u32; lia).
    rewrite bind_Ok.
    destruct (MazeInv_at W H maze1 (x + 1) y Hinv1) as [-> _]; [lia | lia |].
    rewrite bind_Ok. cbn [post]. apply Hins; [| exact Hedges].
    split; [| split]; simpl; unfold in_grid, adjacent; simpl; lia. }
  intros edges1 HE1.
  apply (bind_elim _ _ EP).
  { destruct (u32 (y + 1) <? Z.of_nat H) eqn:E; [| exact HE1].
    apply Z.ltb_lt in E. rewrite (u32_small (y + 1)) in * by (unfold is_u32; lia).
    rewrite bind_Ok.
    destruct (MazeInv_at W H maze1 x (y + 1) Hinv1) as [-> _]; [lia | lia |].
    rewrite bind_Ok. cbn [post]. apply Hins; [| exact HE1].
    split; [| split]; simpl; unfold in_grid, adjacent; simpl; lia. }
  intros edges2 HE2. cbn [post].
  split; [exact Hinv1 |]. cbn [fst snd].
  split; [| split; [| split; [| split; [| split]]]].
  - intros p. unfold maze1. rewrite connected_of_upd by reflexivity. apply Hemp.
  - unfold u64. rewrite Z.mod_small; [unfold node; lia |].
    assert (Z.of_nat W * Z.of_nat H < 2 ^ 64) by lia. lia.
  - rewrite length_alter. exact Hlen.
  - intros p Hp Hnp. apply is_cell_upd in Hp. unfold maze1.
    rewrite KruskalsFacts.bucket_of_upd.
    destruct (decide ((x, y) = p)) as [<-|Hn].
    { rewrite decide_True by auto. reflexivity. }
    rewrite decide_False by tauto.
    apply Hnum; [exact Hp |]. unfold numbered in *.
    destruct p as [p1 p2]. simpl in *.
    assert (p1 <> x \/ p2 <> y).
    { destruct (decide (p1 = x)) as [->|]; [| auto]. right. intros ->. apply Hn. auto. }
    lia.
  - intros i b. rewrite list_lookup_alter.
    destruct (decide (Z.to_nat node = i)) as [<-|Hi].
    + intros (b0 & Eb & ->)%fmap_Some. rewrite (Hbk _ _ Eb).
      rewrite Z2Nat.id by lia.
      destruct (Z.ltb_spec node node); [lia |].
      destruct (Z.ltb_spec node (x * Z.of_nat H + (y + 1))); [| unfold node in *; lia].
      simpl. f_equal. unfold node. f_equal.
      * apply (Z.div_unique _ _ x y); lia.
      * apply (Z.mod_unique _ _ x y); lia.
    + intros Hb. rewrite (Hbk _ _ Hb).
      destruct (Z.ltb_spec (Z.of_nat i) node);
        destruct (Z.ltb_spec (Z.of_nat i) (x * Z.of_nat H + (y + 1)));
        try reflexivity; unfold node in *; lia.
  - exact HE2.
Qed.

Lemma kruskals_fill_forest W H (maze : Maze) :
  Z.of_nat W < 2 ^ 32 -> Z.of_nat H < 2 ^ 32 -> Z.of_nat W * Z.of_nat H < 2 ^ 32 ->
  (0 < W)%nat -> (0 < H)%nat ->
  MazeInv W H maze -> (forall p, connected_of maze p = ∅) ->
  post (FillForest W H (Z.of_nat W) 0) no_fault
       (fill set_insert maze (Z.of_nat W) (Z.of_nat H)).
Proof.
  intros HW HH Hsmall HW0 HH0 Hinv Hemp. unfold fill.
  rewrite (MazeInv_Width W H maze Hinv HW), Nat2Z.id.
  apply (for_post (fun x st => FillForest W H x 0 st) no_fault W 0).
  - split; [exact Hinv |]. cbn [fst snd].
    split; [exact Hemp |]. split; [lia |]. split; [| split; [| split]].
    + rewrite length_replicate.
      rewrite (Z.mul_comm (Z.of_nat H)), u32_small by (unfold is_u32; lia). lia.
    + intros p Hp Hn. apply (shape_is_cell _ _ _ _ (proj1 Hinv)) in Hp.
      unfold numbered in Hn. lia.
    + intros i b [-> _]%lookup_replicate.
      destruct (Z.ltb_spec (Z.of_nat i) (0 * Z.of_nat H + 0)); [lia | reflexivity].
    + intros e He. inversion He.
  - intros x st Hx Hst. destruct st as [[[m es] bs] nid]. cbn [fst snd].
    assert (Hh : Height m = Z.of_nat H).
    { destruct Hst as (Hm & _). eapply MazeInv_Height; [exact Hm | lia | lia]. }
    rewrite Hh, Nat2Z.id.
    eapply post_mono; [| intros e He; exact He |].
    2:{ apply (for_post (fun y st => FillForest W H x y st) no_fault H 0
                 (fill_cell set_insert x) _ Hst).
        intros y st' Hy Hst'. apply kruskals_fill_cell_forest; try assumption; lia. }
    cbn beta. intros st' (Hm & He & Hid & Hlen & Hnum & Hbk & Hed).
    split; [exact Hm |]. split; [exact He |]. split; [lia |]. split; [exact Hlen |].
    split; [| split; [| exact Hed]].
    + intros p Hp Hn. apply Hnum; [exact Hp |].
      apply (shape_is_cell _ _ _ _ (proj1 Hm)) in Hp. unfold numbered in *. lia.
    + intros i b Hb. rewrite (Hbk i b Hb).
      replace ((x + 1) * Z.of_nat H + 0) with (x * Z.of_nat H + (0 + Z.of_nat H)) by lia.
      reflexivity.
Qed.

Lemma FillForest_done W H st :
  (0 < H)%nat -> FillForest W H (Z.of_nat W) 0 st -> ForestInv W H st.1.1.1 st.1.2.
Proof.
  intros HH0 (Hinv & Hemp & _ & Hlen & Hnum & Hbk & _).
  destruct st as [[[maze edges] buckets] nodeId]. cbn [fst snd] in *.
  assert (Hg : forall p, is_cell maze p <-> in_grid W H p).
  { intros p. apply (shape_is_cell _ _ _ _ (proj1 Hinv)). }
  assert (Hid : forall p, is_cell maze p ->
            bucket_of maze p = p.1 * Z.of_nat H + p.2 /\
            0 <= p.1 * Z.of_nat H + p.2 < Z.of_nat W * Z.of_nat H).
  { intros p Hp. split.
    - apply Hnum; [exact Hp |]. apply Hg in Hp. unfold numbered, in_grid in *. lia.
    - apply Hg in Hp. unfold in_grid in Hp. nia. }
  assert (Hbucket : forall i b, buckets !! i = Some b ->
            b = [(Z.of_nat i / Z.of_nat H, Z.of_nat i mod Z.of_nat H)]).
  { intros i b Hb. rewrite (Hbk i b Hb). pose proof (lookup_lt_Some buckets i b Hb).
    destruct (Z.ltb_spec (Z.of_nat i) (Z.of_nat W * Z.of_nat H + 0)); [reflexivity | lia]. }
  split; [exact Hinv |]. split; [exact Hlen |].
  split; [| split; [| split; [| split]]].
  - intros p Hp. destruct (Hid p Hp) as [-> Hr]. split; [lia |].
    destruct (lookup_lt_is_Some_2 buckets (Z.to_nat (p.1 * Z.of_nat H + p.2))) as [b Hb];
      [lia |].
    exists b. split; [exact Hb |]. rewrite (Hbucket _ _ Hb). rewrite Z2Nat.id by lia.
    apply Hg in Hp. destruct Hp as [Hp1 Hp2]. destruct p as [p1 p2]. simpl in *.
    apply list_elem_of_singleton. f_equal.
    + apply (Z.div_unique _ _ p1 p2); lia.
    + apply (Z.mod_unique _ _ p1 p2); lia.
  - intros i b p Hb Hp. rewrite (Hbucket _ _ Hb) in Hp.
    apply list_elem_of_singleton in Hp as ->.
    pose proof (lookup_lt_Some buckets i _ Hb) as Hlt.
    pose proof (Z.mod_pos_bound (Z.of_nat i) (Z.of_nat H)) as Hm.
    pose proof (Z.div_mod (Z.of_nat i) (Z.of_nat H)) as Hdm.
    assert (0 <= Z.of_nat i / Z.of_nat H < Z.of_nat W).
    { split; [apply Z.div_pos; lia |]. apply Z.div_lt_upper_bound; lia. }
    assert (Hc : is_cell maze (Z.of_nat i / Z.of_nat H, Z.of_nat i mod Z.of_nat H)).
    { apply Hg. unfold in_grid. simpl. lia. }
    split; [exact Hc |]. destruct (Hid _ Hc) as [-> _]. simpl. lia.
  - intros a b Hab. unfold linked in Hab. rewrite Hemp in Hab. set_solver.
  - intros a b Ha Hb Heq. destruct (Hid a Ha) as [Ea _]. destruct (Hid b Hb) as [Eb _].
    rewrite Ea, Eb in Heq. apply Hg in Ha, Hb. destruct Ha as [Ha1 Ha2], Hb as [Hb1 Hb2].
    destruct a as [a1 a2], b as [b1 b2]. simpl in *.
    assert (a1 = b1) by nia. subst b1. assert (a2 = b2) by lia. subst b2.
    apply rtc_refl.
  - rewrite (degree_sum_empty maze Hemp). unfold nonempty_buckets.
    rewrite (sum_list_with_const _ buckets 1%nat).
    + lia.
    + intros b Hb. apply list_elem_of_lookup in Hb as [i Hi].
      rewrite (Hbucket _ _ Hi). reflexivity.
Qed.

Lemma kruskals_generate_forest width height seed :
  is_u32 width -> is_u32 height -> 1 <= width -> 1 <= height ->
  width * height < 2 ^ 32 ->
  exists m buckets, generate set_insert width height seed = Ok (Some m) /\
    ForestInv (Z.to_nat width) (Z.to_nat height) m buckets.
Proof.
  intros Hw Hh Hw1 Hh1 Hsmall. unfold generate.
  destruct (Z.ltb_spec width 1) as [?|_]; [lia |].
  destruct (Z.ltb_spec height 1) as [?|_]; [lia |]. cbn [orb].
  unfold start.
  destruct (Init_MazeInv (I := CellInfoBucket) false width height)
    as (g & -> & Hinv & Hemp & _).
  rewrite bind_Ok.
  set (W := Z.to_nat width) in *. set (H := Z.to_nat height) in *.
  unfold is_u32 in *.
  replace width with (Z.of_nat W) by (unfold W; lia).
  replace height with (Z.of_nat H) by (unfold H; lia).
  pose proof (kruskals_fill_forest W H g) as Hfill.
  destruct (fill set_insert g (Z.of_nat W) (Z.of_nat H)) as [[[[maze edges] buckets] nid]|e].
  2:{ exfalso. apply Hfill; try assumption; try (unfold W, H; lia). apply (Hemp eq_refl). }
  assert (Hff : FillForest W H (Z.of_nat W) 0 (maze, edges, buckets, nid)).
  { apply Hfill; try assumption; try (unfold W, H; lia). apply (Hemp eq_refl). }
  rewrite !bind_Ok. cbn [st_edges].
  destruct (kruskals_loop_forest W H) with (fuel := length edges)
      (st := mkSt maze (MT19937.seed seed) edges buckets)
    as (m & bk & -> & Hm).
  - unfold W, H. lia.
  - apply (FillForest_done W H _ ltac:(unfold H; lia) Hff).
  - apply Hff.
  - reflexivity.
  - rewrite bind_Ok. eauto.
Qed.

End WithEdgeSet.
End KruskalsForest.

Lemma elem_of_concat_data {I : Type} (g : Grid I) c :
  c ∈ concat (data g) <-> exists p, cell_at g p = Some c.
Proof.
  rewrite list_elem_of_In, in_concat. split.
  - intros (col & Hcol & Hc). apply list_elem_of_In in Hcol, Hc.
    apply list_elem_of_lookup in Hcol as [i Hi]. apply list_elem_of_lookup in Hc as [j Hj].
    exists (Z.of_nat i, Z.of_nat j). apply cell_at_Some. simpl.
    split; [lia |]. split; [lia |]. exists col. rewrite !Nat2Z.id. auto.
  - intros (p & Hp). apply cell_at_Some in Hp as (_ & _ & col & Hcol & Hc).
    exists col. split; apply list_elem_of_In; eapply list_elem_of_lookup_2; eassumption.
Qed.

(** The buckets in use are as many as the ids that name one. *)
Lemma used_ids_size (bs : Kruskals.Buckets) :
  forall S : gset Z,
    (forall id, id ∈ S <-> 0 <= id /\ exists b, bs !! Z.to_nat id = Some b /\ b <> []) ->
    size S = nonempty_buckets bs.
Proof.
  induction bs as [|b bs IH] using rev_ind; intros S HS.
  - assert (S = ∅) as ->; [| apply size_empty].
    apply set_eq. intros id. rewrite HS. split; [| set_solver].
    intros (_ & b & Hb & _). discriminate.
  - unfold nonempty_buckets. rewrite sum_list_with_app. simpl.
    fold (nonempty_buckets bs).
    set (n := Z.of_nat (length bs)).
    assert (HS' : forall id, id ∈ S ∖ {[n]} <->
              0 <= id /\ exists b', bs !! Z.to_nat id = Some b' /\ b' <> []).
    { intros id. rewrite elem_of_difference, elem_of_singleton, HS. split.
      - intros [(H0 & b' & Hb' & Hne) Hid]. split; [exact H0 |]. exists b'.
        split; [| exact Hne].
        apply lookup_app_Some in Hb' as [Hb' | [Hge Hb']]; [exact Hb' |].
        apply list_lookup_singleton_Some in Hb' as [Hz _]. unfold n in Hid. lia.
      - intros (H0 & b' & Hb' & Hne). pose proof (lookup_lt_Some _ _ _ Hb') as Hlt.
        split; [| unfold n; lia]. split; [exact H0 |]. exists b'. split; [| exact Hne].
        apply lookup_app_l_Some, Hb'. }
    rewrite <- (IH _ HS').
    destruct b as [|c b].
    + assert (S ∖ {[n]} = S) as ->; [| lia].
      apply set_eq. intros id. rewrite elem_of_difference, elem_of_singleton.
      split; [tauto |]. intros Hid. split; [exact Hid |]. intros ->.
      apply HS in Hid as (_ & b' & Hb' & Hne). unfold n in Hb'. rewrite Nat2Z.id in Hb'.
      rewrite lookup_app_r in Hb' by lia. rewrite Nat.sub_diag in Hb'.
      simpl in Hb'. congruence.
    + assert (Hn : n ∈ S).
      { apply HS. split; [unfold n; lia |]. exists (c :: b). split; [| discriminate].
        unfold n. rewrite Nat2Z.id. rewrite lookup_app_r by lia.
        rewrite Nat.sub_diag. reflexivity. }
      rewrite (union_difference_L {[n]} S) at 1 by set_solver.
      rewrite size_union by set_solver. rewrite size_singleton. lia.
Qed.

(** X14: Kruskal's generator returns a forest whose trees are its
    buckets.  With [width * height] below [2 ^ 32] and an edge container
    that only holds edges inserted into it, the generator returns a maze
    in which two cells carry the same bucket id exactly when a path joins
    them, and whose passages number the cells less the bucket ids in use:
    no passage closes a cycle. *)
Theorem Kruskals_forest (set_insert : Edge -> list Edge -> list Edge)
    (width height seed : Z) :
  1 <= width -> 1 <= height -> width * height < 2 ^ 32 ->
  insert_keeps set_insert ->
  exists m, Kruskals.generate set_insert width height seed = Ok (Some m) /\
    (forall a b, is_cell m a -> is_cell m b ->
       (Kruskals.bucket_of m a = Kruskals.bucket_of m b <-> rtc (linked m) a b)) /\
    edge_count m + Z.of_nat (size (bucket_ids m)) = width * height.
Proof.
  intros Hw1 Hh1 Hsmall Hkeeps.
  destruct (KruskalsForest.kruskals_generate_forest set_insert Hkeeps width height seed)
    as (m & buckets & Hm & Hinv & Hlen & HC & HD & HE & HF & HG);
    try assumption; try (unfold is_u32; nia).
  exists m. split; [exact Hm |]. split.
  - intros a b Ha Hb. split; [apply HF; assumption |].
    induction 1 as [|x y z Hxy _ IH]; [reflexivity |].
    rewrite (HE x y Hxy). apply IH; [| exact Hb].
    destruct Hinv as (_ & _ & Hcl & _). eapply Hcl, Hxy.
  - assert (Hsize : size (bucket_ids m) = nonempty_buckets buckets).
    { apply used_ids_size. intros id. unfold bucket_ids.
      rewrite elem_of_list_to_set, list_elem_of_fmap. split.
      - intros (c & -> & Hc). apply elem_of_concat_data in Hc as [p Hp].
        destruct (HC p) as (H0 & b & Hb & Hin); [eexists; exact Hp |].
        unfold Kruskals.bucket_of, info_of in H0, Hb. rewrite Hp in H0, Hb.
        split; [exact H0 |]. exists b. split; [exact Hb |]. intros ->. inversion Hin.
      - intros (H0 & b & Hb & Hne). destruct b as [|p b]; [congruence |].
        destruct (HD _ _ p Hb) as [[c Hc] Hid]; [left |].
        exists c. split; [| apply elem_of_concat_data; eauto].
        unfold Kruskals.bucket_of, info_of in Hid. rewrite Hc in Hid. lia. }
    rewrite Hsize. unfold edge_count.
    assert (Hd : Z.of_nat (degree_sum m) =
                 (width * height - Z.of_nat (nonempty_buckets buckets)) * 2).
    { rewrite !Z2Nat.id in HG by lia. lia. }
    rewrite Hd, Z.div_mul by lia. lia.
Qed.

Lemma Kruskals_forest_witness :
  exists m, Kruskals.generate Kruskals.ordered_insert 4 3 1 = Ok (Some m) /\
    (forall a b, is_cell m a -> is_cell m b ->
       (Kruskals.bucket_of m a = Kruskals.bucket_of m b <-> rtc (linked m) a b)) /\
    edge_count m + Z.of_nat (size (bucket_ids m)) = 4 * 3.
Proof.
  apply (Kruskals_forest Kruskals.ordered_insert 4 3 1); try lia.
  apply ordered_insert_keeps.
Defined.

(** * The guard of the generators *)

(** X15: every generator returns the absent result exactly on the inputs
    its guard rejects.  On every other input Binary Tree, Sidewinder,
    Recursive Division and Prim's return a maze, and so does Kruskal's
    when [width * height] fits the 32-bit product that sizes its bucket
    table. *)
Theorem generators_absent_iff (addr : CellRef -> Z)
    (set_insert : Edge -> list Edge -> list Edge)
    (width height : Z) (startPoint : Point) (seed : Z) :
  is_u32 width -> is_u32 height -> is_u32 startPoint.1 -> is_u32 startPoint.2 ->
  ((BinaryTree.generate width height seed = Ok None <-> width < 1 \/ height < 1) /\
   (Sidewinder.generate addr width height seed = Ok None <-> width < 1 \/ height < 1) /\
   (RecursiveDivision.generate width height seed = Ok None <-> width < 1 \/ height < 1) /\
   (Kruskals.generate set_insert width height seed = Ok None <-> width < 1 \/ height < 1) /\
   (Prims.generate addr width height startPoint seed = Ok None <->
    width < 1 \/ height < 1 \/ width <= startPoint.1 \/ height <= startPoint.2)) /\
  (1 <= width /\ 1 <= height ->
   (exists m, BinaryTree.generate width height seed = Ok (Some m)) /\
   (exists m, Sidewinder.generate addr width height seed = Ok (Some m)) /\
   (exists m, RecursiveDivision.generate width height seed = Ok (Some m)) /\
   (width * height < 2 ^ 32 ->
    exists m, Kruskals.generate set_insert width height seed = Ok (Some m)) /\
   (startPoint.1 < width /\ startPoint.2 < height ->
    exists m, Prims.generate addr width height startPoint seed = Ok (Some m))).
Proof.
  intros Hw Hh Hs1 Hs2.
  destruct (generators_result addr set_insert width height startPoint seed Hw Hh Hs1 Hs2)
    as (Habs & Hpabs & Hval & Hpval).
  split.
  - split; [| split; [| split; [| split]]]; (split; [| intros Hbad]);
      try (apply Habs, Hbad); try (apply Hpabs, Hbad); intros Hnone.
    + destruct (Z_lt_ge_dec width 1); [auto |]. destruct (Z_lt_ge_dec height 1); [auto |].
      destruct Hval as ([m Hm] & _); [lia |]. congruence.
    + destruct (Z_lt_ge_dec width 1); [auto |]. destruct (Z_lt_ge_dec height 1); [auto |].
      destruct Hval as (_ & [m Hm] & _); [lia |]. congruence.
    + destruct (Z_lt_ge_dec width 1); [auto |]. destruct (Z_lt_ge_dec height 1); [auto |].
      destruct Hval as (_ & _ & [m Hm] & _); [lia |]. congruence.
    + destruct (Z_lt_ge_dec width 1); [auto |]. destruct (Z_lt_ge_dec height 1); [auto |].
      destruct Hval as (_ & _ & _ & [[m Hm] | [Hm _]]); [lia | congruence | congruence].
    + destruct (Z_lt_ge_dec width 1); [auto |]. destruct (Z_lt_ge_dec height 1); [auto |].
      destruct (Z_le_gt_dec width startPoint.1); [auto |].
      destruct (Z_le_gt_dec height startPoint.2); [auto |].
      destruct Hpval as [m Hm]; [lia |]. congruence.
  - intros [Hw1 Hh1]. destruct Hval as (Hbt & Hsw & Hrd & Hk); [lia |].
    split; [exact Hbt |]. split; [exact Hsw |]. split; [exact Hrd |]. split.
    + intros Hsmall. destruct Hk as [Hk | [_ Hov]]; [exact Hk | lia].
    + intros [Hsx Hsy]. apply Hpval. lia.
Qed.

Lemma generators_absent_iff_witness :
  BinaryTree.generate 0 5 7 = Ok None /\
  exists m, Prims.generate addr_allocation_order 4 3 (1, 2) 7 = Ok (Some m).
Proof.
  destruct (generators_absent_iff addr_allocation_order Kruskals.ordered_insert
              0 5 (1, 2) 7) as [(Hbt & _) _]; try (unfold is_u32; simpl; lia).
  destruct (generators_absent_iff addr_allocation_order Kruskals.ordered_insert
              4 3 (1, 2) 7) as [_ Hval]; try (unfold is_u32; simpl; lia).
  split; [apply Hbt; lia |].
  destruct Hval as (_ & _ & _ & _ & Hp); [lia |]. apply Hp. simpl. lia.
Defined.

(** * The signed tests of Prim's [GetNeighbours] *)

(** X17: [GetNeighbours] tests its west and north neighbours through
    [static_cast<int>]: it always returns, and for a cell in a column
    beyond [2 ^ 31] it never offers the west neighbour, for a cell in a row
    beyond [2 ^ 31] never the north neighbour, whatever their visited
    flags. *)
Theorem Prims_GetNeighbours_blind_spot (W H : nat) (maze : Prims.Maze)
    (x y : Z) (wanted : bool) :
  MazeInv W H maze -> Z.of_nat W < 2 ^ 32 -> Z.of_nat H < 2 ^ 32 ->
  0 <= x < Z.of_nat W -> 0 <= y < Z.of_nat H ->
  exists ns, Prims.GetNeighbours maze (x, y) wanted = Ok ns /\
    (2 ^ 31 < x -> (x - 1, y) ∉ ns) /\
    (2 ^ 31 < y -> (x, y - 1) ∉ ns).
Proof.
  intros Hinv HW HH Hx Hy.
  assert (Hwd : Width maze = Z.of_nat W) by (eapply MazeInv_Width; [eassumption | lia]).
  assert (Hht : Height maze = Z.of_nat H) by (eapply MazeInv_Height; [eassumption | lia | lia]).
  unfold Prims.GetNeighbours. cbn [fst snd]. rewrite Hwd, Hht.
  assert (Hsigned : forall z, 0 <= z < 2 ^ 32 ->
            ((0 <=? to_int (z - 1)) = true -> 1 <= z /\ u32 (z - 1) = z - 1) /\
            (2 ^ 31 < z -> (0 <=? to_int (z - 1)) = false)).
  { intros z Hz. split.
    - intros Hb. apply Z.leb_le in Hb.
      apply PrimsFacts.to_int_nonneg; [exact Hz | exact Hb].
    - intros Hbig. unfold to_int. rewrite (u32_small (z - 1)) by (unfold is_u32; lia).
      destruct (Z.ltb_spec (z - 1) (2 ^ 31)); [lia |]. apply Z.leb_gt. lia. }
  destruct (Hsigned x) as [Hwest Hwest']; [lia |].
  destruct (Hsigned y) as [Hnorth Hnorth']; [lia |].
  rewrite (u32_small (x + 1)), (u32_small (y + 1)) by (unfold is_u32; lia).
  rewrite (PrimsPerfect.prims_push_if_eq W H maze wanted _ (u32 (x - 1)) y [] Hinv).
  2:{ intros E. destruct (Hwest E) as [? ->]. lia. }
  rewrite bind_Ok.
  rewrite (PrimsPerfect.prims_push_if_eq W H maze wanted _ x (u32 (y - 1)) _ Hinv).
  2:{ intros E. destruct (Hnorth E) as [? ->]. lia. }
  rewrite bind_Ok.
  rewrite (PrimsPerfect.prims_push_if_eq W H maze wanted (x + 1 <? Z.of_nat W) (x + 1) y _ Hinv).
  2:{ intros E. apply Z.ltb_lt in E. lia. }
  rewrite bind_Ok.
  rewrite (PrimsPerfect.prims_push_if_eq W H maze wanted (y + 1 <? Z.of_nat H) x (y + 1) _ Hinv).
  2:{ intros E. apply Z.ltb_lt in E. lia. }
  eexists. split; [reflexivity |].
  assert (Hmem : forall (b : bool) (p q : Point), q ∈ (if b then [p] else []) -> b = true /\ q = p).
  { intros b p q Hq. destruct b; [| inversion Hq].
    apply list_elem_of_singleton in Hq. auto. }
  split.
  - intros Hbig. rewrite (Hwest' Hbig). cbn [andb app].
    rewrite !elem_of_app.
    intros [[Hq | Hq] | Hq]; apply Hmem in Hq as [Hb [=]]; lia.
  - intros Hbig. rewrite (Hnorth' Hbig). cbn [andb app]. rewrite app_nil_r.
    rewrite !elem_of_app.
    intros [[Hq | Hq] | Hq]; apply Hmem in Hq as [Hb [=]]; lia.
Qed.

Lemma Prims_GetNeighbours_blind_spot_witness :
  exists ns,
    Prims.GetNeighbours (get_grid (Init (I := Prims.CellInfo) (2 ^ 31 + 2) 1 false))
      (2 ^ 31 + 1, 0) true = Ok ns /\
    (2 ^ 31 + 1 - 1, 0) ∉ ns.
Proof.
  destruct (Init_MazeInv (I := Prims.CellInfo) false (2 ^ 31 + 2) 1) as (g & Hg & Hinv & _).
  rewrite Hg. cbn [get_grid].
  destruct (Prims_GetNeighbours_blind_spot _ _ g (2 ^ 31 + 1) 0 true Hinv)
    as (ns & Hns & Hwest & _); try lia.
  exists ns. split; [exact Hns |]. apply Hwest. lia.
Defined.

(** * The mazes are undirected *)

(** X18: in every maze a generator returns the connection sets are
    symmetric and only hold cells of the maze: a cell is in another's set
    exactly when the other is in its own; for Kruskal's this is for any
    edge container that only holds the edges inserted into it. *)
Theorem generators_symmetric (addr : CellRef -> Z)
    (set_insert : Edge -> list Edge -> list Edge)
    (width height : Z) (startPoint : Point) (seed : Z) :
  is_u32 width -> is_u32 height -> 1 <= width -> 1 <= height ->
  (exists m, BinaryTree.generate width height seed = Ok (Some m) /\
     Symmetric m /\ Closed m) /\
  (exists m, Sidewinder.generate addr width height seed = Ok (Some m) /\
     Symmetric m /\ Closed m) /\
  (exists m, RecursiveDivision.generate width height seed = Ok (Some m) /\
     Symmetric m /\ Closed m) /\
  (is_u32 startPoint.1 -> is_u32 startPoint.2 ->
   startPoint.1 < width -> startPoint.2 < height ->
   exists m, Prims.generate addr width height startPoint seed = Ok (Some m) /\
     Symmetric m /\ Closed m) /\
  (insert_keeps set_insert ->
   forall m, Kruskals.generate set_insert width height seed = Ok (Some m) ->
     Symmetric m /\ Closed m).
Proof.
  intros Hw Hh Hw1 Hh1. split; [| split; [| split; [| split]]].
  - destruct (BinaryTreeFacts.bt_generate_spec width height seed)
      as (m & Hm & _ & Hsym & Hcl & _); try assumption. eauto.
  - destruct (SidewinderFacts.sw_generate_spec addr width height seed)
      as (m & Hm & _ & Hsym & Hcl & _); try assumption. eauto.
  - destruct (RecursiveDivisionFacts.rd_generate_spec width height seed)
      as (m & Hm & _ & Hsym & Hcl & _); try assumption. eauto.
  - intros Hs1 Hs2 Hsx Hsy.
    destruct (PrimsFacts.prims_generate_spec addr width height startPoint seed)
      as (m & Hm & _ & Hsym & Hcl & _); try assumption. eauto.
  - intros Hkeeps m Hm.
    pose proof (KruskalsFacts.kruskals_generate_post set_insert width height seed
                  Hw Hh Hw1 Hh1) as Hp.
    rewrite Hm in Hp. destruct Hp as (m' & [= <-] & _ & Hinv).
    destruct (Hinv Hkeeps) as (_ & Hsym & Hcl & _). auto.
Qed.

Lemma generators_symmetric_witness :
  (exists m, BinaryTree.generate 4 4 1 = Ok (Some m) /\ Symmetric m /\ Closed m) /\
  (exists m, Prims.generate addr_allocation_order 4 4 (3, 0) 1 = Ok (Some m) /\
     Symmetric m /\ Closed m).
Proof.
  destruct (generators_symmetric addr_allocation_order Kruskals.ordered_insert
              4 4 (3, 0) 1) as (Hbt & _ & _ & Hprims & _);
    [unfold is_u32; lia | unfold is_u32; lia | lia | lia |].
  split; [exact Hbt |]. apply Hprims; unfold is_u32; simpl; lia.
Defined.
